(** * website-translator: crawl, translate and proxy-rewrite pipeline

    A shallow embedding of [server/index.js] (and of the earlier revision of
    the same server kept in the repository) together with the properties of
    the crawl scheduler, the link discoverer, the translation client and the
    content rewriter.

    Conventions.
    - A JavaScript string is the [string] of its UTF-8 bytes. Texts that
      are searched for or compared are well-formed, so a text occurs in
      another as a run of bytes exactly where it occurs as a run of code
      units; [jsLength] counts code units.
    - A parsed page is a tree of [node]s, the shape cheerio hands to the
      handlers: text nodes (nodeType 3), comments (nodeType 8) and elements
      with their attributes and children.
    - The platform's [URL] class, [axios] and the SQLite file are the
      server's environment: URL parsing and the HTTP oracles are section
      variables, the two tables are lists of rows in rowid order.
    - A JavaScript [Set] is a duplicate-free list in insertion order. *)

From Stdlib Require Import List String Ascii Bool Arith Lia PeanoNat Sorted.
Import ListNotations.
Open Scope string_scope.

Set Implicit Arguments.
Set Warnings "-register-all".

(* ===================================================================== *)
(** * JavaScript string operations used by the server *)
(* ===================================================================== *)

Module JsString.

(** The character U+0022, written by its code. *)
Definition dquote : string := String (ascii_of_nat 34) EmptyString.

(** [s.startsWith(p)] *)
Fixpoint startsWith (s p : string) {struct p} : bool :=
  match p, s with
  | EmptyString, _ => true
  | String _ _, EmptyString => false
  | String c p', String d s' => Ascii.eqb c d && startsWith s' p'
  end.

(** [s.indexOf(pat)], [None] for -1. *)
Fixpoint indexOf (s pat : string) : option nat :=
  if startsWith s pat then Some 0
  else match s with
       | EmptyString => None
       | String _ s' => option_map S (indexOf s' pat)
       end.

(** [s.includes(pat)] *)
Definition includes (s pat : string) : bool :=
  match indexOf s pat with Some _ => true | None => false end.

(** [s.endsWith(suf)] *)
Fixpoint endsWith (s suf : string) : bool :=
  String.eqb s suf
  || match s with
     | EmptyString => false
     | String _ s' => endsWith s' suf
     end.

(** The first [n] characters and the rest after them. *)
Fixpoint take (n : nat) (s : string) : string :=
  match n, s with
  | S n', String c s' => String c (take n' s')
  | _, _ => EmptyString
  end.

Fixpoint drop (n : nat) (s : string) : string :=
  match n, s with
  | S n', String _ s' => drop n' s'
  | _, _ => s
  end.

(** ECMAScript GetSubstitution for a string pattern: there are no
    captures, so [$1]..[$99] and [$<] stand for themselves; [$$], [$&],
    [$`] and [$'] are expanded. *)
Fixpoint getSubstitution (matched before after tpl : string) : string :=
  match tpl with
  | EmptyString => EmptyString
  | String c tl =>
      if Ascii.eqb c "$" then
        match tl with
        | EmptyString => String c EmptyString
        | String d rest =>
            if Ascii.eqb d "$" then String "$" (getSubstitution matched before after rest)
            else if Ascii.eqb d "&" then matched ++ getSubstitution matched before after rest
            else if Ascii.eqb d "`" then before ++ getSubstitution matched before after rest
            else if Ascii.eqb d "'" then after ++ getSubstitution matched before after rest
            else String c (getSubstitution matched before after tl)
        end
      else String c (getSubstitution matched before after tl)
  end.

(** [s.replace(pat, repl)] with a string pattern: the first occurrence
    only, the replacement text read as a substitution template. *)
Definition replace (s pat repl : string) : string :=
  match indexOf s pat with
  | None => s
  | Some i =>
      let before := take i s in
      let after := drop (i + String.length pat) s in
      before ++ getSubstitution pat before after repl ++ after
  end.

(** White space of [String.prototype.trim]: the WhiteSpace and
    LineTerminator code points, by their UTF-8 bytes. One byte: U+0009 to
    U+000D and U+0020. *)
Definition isSpace (c : ascii) : bool :=
  let n := nat_of_ascii c in
  Nat.eqb n 32 || (Nat.leb 9 n && Nat.leb n 13).

(** Two bytes: U+00A0. *)
Definition isSpace2 (a b : ascii) : bool :=
  Nat.eqb (nat_of_ascii a) 194 && Nat.eqb (nat_of_ascii b) 160.

(** Three bytes: U+1680, U+2000 to U+200A, U+2028, U+2029, U+202F,
    U+205F, U+3000 and U+FEFF. *)
Definition isSpace3 (a b c : ascii) : bool :=
  let x := nat_of_ascii a in
  let y := nat_of_ascii b in
  let z := nat_of_ascii c in
  (Nat.eqb x 225 && Nat.eqb y 154 && Nat.eqb z 128)
  || (Nat.eqb x 226 && Nat.eqb y 128
      && ((Nat.leb 128 z && Nat.leb z 138) || Nat.eqb z 168 || Nat.eqb z 169 || Nat.eqb z 175))
  || (Nat.eqb x 226 && Nat.eqb y 129 && Nat.eqb z 159)
  || (Nat.eqb x 227 && Nat.eqb y 128 && Nat.eqb z 128)
  || (Nat.eqb x 239 && Nat.eqb y 187 && Nat.eqb z 191).

(** What follows the white space character [s] starts with, if it
    starts with one. *)
Definition afterSpace (s : string) : option string :=
  match s with
  | EmptyString => None
  | String a s1 =>
      if isSpace a then Some s1
      else match s1 with
           | EmptyString => None
           | String b s2 =>
               if isSpace2 a b then Some s2
               else match s2 with
                    | EmptyString => None
                    | String c s3 => if isSpace3 a b c then Some s3 else None
                    end
           end
  end.

Fixpoint trimStart (s : string) : string :=
  match s with
  | EmptyString => EmptyString
  | String a s1 =>
      if isSpace a then trimStart s1
      else match s1 with
           | EmptyString => s
           | String b s2 =>
               if isSpace2 a b then trimStart s2
               else match s2 with
                    | EmptyString => s
                    | String c s3 => if isSpace3 a b c then trimStart s3 else s
                    end
           end
  end.

(** A text is dropped from the point on where white space is all that
    follows. *)
Fixpoint trimEnd (s : string) : string :=
  match s with
  | EmptyString => EmptyString
  | String c s' =>
      match trimStart s with
      | EmptyString => EmptyString
      | _ => String c (trimEnd s')
      end
  end.

Definition trim (s : string) : string := trimEnd (trimStart s).

(** [s.length]: the UTF-16 code units of the text. A byte below 128 and
    the first byte of a sequence of two or three bytes stand for one
    code unit, the first byte of a sequence of four for two (a surrogate
    pair), a continuation byte for none. *)
Fixpoint jsLength (s : string) : nat :=
  match s with
  | EmptyString => 0
  | String c s' =>
      let n := nat_of_ascii c in
      (if Nat.ltb n 128 then 1
       else if Nat.ltb n 192 then 0
       else if Nat.ltb n 240 then 1
       else 2) + jsLength s'
  end.

(** Canonicalisation of the [i] flag on ASCII letters. *)
Definition upper (c : ascii) : ascii :=
  let n := nat_of_ascii c in
  if Nat.leb 97 n && Nat.leb n 122 then ascii_of_nat (n - 32) else c.

Fixpoint upcase (s : string) : string :=
  match s with
  | EmptyString => EmptyString
  | String c s' => String (upper c) (upcase s')
  end.

(** A JavaScript value is truthy; for a string: not empty. *)
Definition truthy (s : string) : bool :=
  match s with EmptyString => false | _ => true end.

End JsString.

Import JsString.

(* ===================================================================== *)
(** * Completions and values *)
(* ===================================================================== *)

Module Js.

(** How an expression ends: with a value, or by throwing. *)
Inductive completion (A : Type) : Type :=
| Normal (a : A)
| Throw (message : string).

Arguments Throw {A} message.

Definition bind {A B : Type} (c : completion A) (k : A -> completion B) : completion B :=
  match c with
  | Normal a => k a
  | Throw m => Throw m
  end.

(** [try { body } catch (error) { handler(error.message) }] *)
Definition tryCatch {A : Type} (body : completion A) (handler : string -> completion A)
  : completion A :=
  match body with
  | Normal a => Normal a
  | Throw m => handler m
  end.

(** The values a response body can hold after axios has read it, and
    [undefined]. A number is kept by the text SQLite stores for it. *)
Inductive value : Type :=
| VUndefined
| VNull
| VBool (b : bool)
| VNum (shown : string)
| VStr (s : string)
| VArr (items : list value)
| VObj (fields : list (string * value)).

(** The last field of that name, as [JSON.parse] keeps it. *)
Fixpoint field (k : string) (fields : list (string * value)) : value :=
  match fields with
  | [] => VUndefined
  | (k', v) :: rest =>
      match field k rest with
      | VUndefined => if String.eqb k' k then v else VUndefined
      | later => later
      end
  end.

(** [v.translatedText]: reading a property of [null] or [undefined] is a
    TypeError; strings, numbers, booleans and arrays have no such
    property. *)
Definition getTranslatedText (v : value) : completion value :=
  match v with
  | VUndefined | VNull => Throw "Cannot read properties of null (reading 'translatedText')"
  | VObj fields => Normal (field "translatedText" fields)
  | _ => Normal VUndefined
  end.

End Js.

Import Js.

Notation "x <- c ;; k" := (Js.bind c (fun x => k))
  (at level 61, c at next level, right associativity).

(* ===================================================================== *)
(** * The parsed document *)
(* ===================================================================== *)

Module Dom.

(** A node of the tree cheerio builds: [Text] has nodeType 3 and carries
    its [nodeValue]; the body of a [script] or [style] element is a
    [Text] child of that element, as for any other element. A doctype
    has no children, is neither a text node nor an element, and is left
    alone by every operation below, like a [Comment]. *)
Inductive node : Type :=
| Text (data : string)
| Comment (data : string)
| Element (name : string) (attribs : list (string * string)) (children : list node).

(** The children of the document root. *)
Definition document := list node.

Definition isElement (n : node) : bool :=
  match n with Element _ _ _ => true | _ => false end.

Definition nameOf (n : node) : string :=
  match n with Element nm _ _ => nm | _ => EmptyString end.

Definition attribsOf (n : node) : list (string * string) :=
  match n with Element _ a _ => a | _ => [] end.

Definition childNodes (n : node) : list node :=
  match n with Element _ _ cs => cs | _ => [] end.

(** [el.attribs[k]] *)
Fixpoint getAttr (k : string) (a : list (string * string)) : option string :=
  match a with
  | [] => None
  | (k', v) :: a' => if String.eqb k' k then Some v else getAttr k a'
  end.

(** [el.attribs[k] = v]: an existing key keeps its place, a new one goes
    last. *)
Fixpoint setAttr (k v : string) (a : list (string * string)) : list (string * string) :=
  match a with
  | [] => [(k, v)]
  | (k', v') :: a' => if String.eqb k' k then (k', v) :: a' else (k', v') :: setAttr k v a'
  end.

(** [$(el).attr(k)] *)
Definition attr (k : string) (n : node) : option string := getAttr k (attribsOf n).

(** The text of a node: the data of its text descendants, in order. *)
Fixpoint textContent (n : node) : string :=
  match n with
  | Text d => d
  | Comment _ => EmptyString
  | Element _ _ cs => String.concat EmptyString (List.map textContent cs)
  end.

(** The elements below (and including) a node, in document order. *)
Fixpoint elements (n : node) : list node :=
  match n with
  | Element _ _ cs => n :: flat_map elements cs
  | _ => []
  end.

(** [$('n1, n2, ...')]: the elements with one of the names, in document
    order. *)
Definition select (names : list string) (doc : document) : list node :=
  filter (fun e => existsb (String.eqb (nameOf e)) names) (flat_map elements doc).

(** [$(sel).text()]: the text of the selected elements one after the
    other, script and style text included. *)
Definition text (sel : list node) : string :=
  String.concat EmptyString (List.map textContent sel).

(** [$(sel).each((i, el) => el.attribs = f(el.name, el.attribs))]: a pass
    that reads and writes only the element's own attributes. *)
Fixpoint mapElements (f : string -> list (string * string) -> list (string * string))
         (n : node) : node :=
  match n with
  | Element nm a cs => Element nm (f nm a) (List.map (mapElements f) cs)
  | _ => n
  end.

(** Positions: the child indices from the root down to a node. *)
Definition position := list nat.

Fixpoint updateNth (i : nat) (f : node -> node) (l : list node) : list node :=
  match l, i with
  | [], _ => []
  | x :: l', 0 => f x :: l'
  | x :: l', S i' => x :: updateNth i' f l'
  end.

Fixpoint updateAt (p : position) (f : node -> node) (doc : list node) : list node :=
  match p with
  | [] => doc
  | i :: p' =>
      match p' with
      | [] => updateNth i f doc
      | _ => updateNth i (fun n => match n with
                                   | Element nm a cs => Element nm a (updateAt p' f cs)
                                   | _ => n
                                   end) doc
      end
  end.

(** The positions, relative to a node, of the nodes below (and including)
    it that satisfy [sel], in document order. *)
Fixpoint positionsIn (sel : node -> bool) (n : node) : list position :=
  ((if sel n then [[]] else [])
   ++ match n with
      | Element _ _ cs =>
          (fix below (i : nat) (l : list node) : list position :=
             match l with
             | [] => []
             | c :: l' => List.map (fun p => i :: p) (positionsIn sel c) ++ below (S i) l'
             end) 0 cs
      | _ => []
      end)%list.

Fixpoint positionsFrom (sel : node -> bool) (i : nat) (l : list node) : list position :=
  match l with
  | [] => []
  | c :: l' => (List.map (fun p => i :: p) (positionsIn sel c) ++ positionsFrom sel (S i) l')%list
  end.

Definition positions (sel : node -> bool) (doc : document) : list position :=
  positionsFrom sel 0 doc.

(** The document with the data of every text node blanked: what is left
    is the markup (element names, attributes, nesting, comments). *)
Fixpoint markup (n : node) : node :=
  match n with
  | Text _ => Text EmptyString
  | Comment d => Comment d
  | Element nm a cs => Element nm a (List.map markup cs)
  end.

(** Every attribute list of the document, in document order. *)
Definition attributes (doc : document) : list (list (string * string)) :=
  List.map attribsOf (flat_map elements doc).

(** [domutils.getText], which [:contains] reads: as [textContent], but a
    [br] element counts as a line feed. *)
Fixpoint getText (n : node) : string :=
  match n with
  | Text d => d
  | Comment _ => EmptyString
  | Element nm _ cs =>
      if String.eqb nm "br" then String (ascii_of_nat 10) EmptyString
      else String.concat EmptyString (List.map getText cs)
  end.

(** Elements printed without an end tag. *)
Definition voidElements : list string :=
  ["area"; "base"; "basefont"; "bgsound"; "br"; "col"; "embed"; "frame"; "hr"; "img";
   "input"; "keygen"; "link"; "meta"; "param"; "source"; "track"; "wbr"].

(** Elements whose text is printed as it is. *)
Definition rawTextElements : list string :=
  ["style"; "script"; "xmp"; "iframe"; "noembed"; "noframes"; "plaintext"; "noscript"].

(** The serializer's escaping: the ampersand and U+00A0 everywhere, the
    two angle brackets in text, the double quote in attribute values. *)
Fixpoint escape (attribute : bool) (s : string) : string :=
  match s with
  | EmptyString => EmptyString
  | String c s' =>
      if Ascii.eqb c "&" then "&amp;" ++ escape attribute s'
      else if attribute && Ascii.eqb c (ascii_of_nat 34) then "&quot;" ++ escape attribute s'
      else if negb attribute && Ascii.eqb c "<" then "&lt;" ++ escape attribute s'
      else if negb attribute && Ascii.eqb c ">" then "&gt;" ++ escape attribute s'
      else match s' with
           | String d s'' =>
               if isSpace2 c d then "&nbsp;" ++ escape attribute s''
               else String c (escape attribute s')
           | EmptyString => String c EmptyString
           end
  end.

Definition formatAttribute (kv : string * string) : string :=
  " " ++ fst kv ++ "=" ++ dquote ++ escape true (snd kv) ++ dquote.

(** The markup of a node as [$.html()] and [$(el).html()] print it (the
    serializer of the HTML parser, for elements of HTML: every attribute
    with its value in double quotes, text escaped unless its parent is a
    raw text element [raw]). *)
Fixpoint serializeIn (raw : bool) (n : node) : string :=
  match n with
  | Text d => if raw then d else escape false d
  | Comment d => "<!--" ++ d ++ "-->"
  | Element nm a cs =>
      "<" ++ nm ++ String.concat EmptyString (List.map formatAttribute a) ++ ">"
      ++ (if existsb (String.eqb nm) voidElements then EmptyString
          else String.concat EmptyString
                 (List.map (serializeIn (existsb (String.eqb nm) rawTextElements)) cs)
               ++ "</" ++ nm ++ ">")
  end.

Definition serialize (n : node) : string := serializeIn false n.

(** [$(el).html()] *)
Definition innerHtml (n : node) : string :=
  String.concat EmptyString
    (List.map (serializeIn (existsb (String.eqb (nameOf n)) rawTextElements)) (childNodes n)).

End Dom.

Import Dom.

(* ===================================================================== *)
(** * The platform's URL class *)
(* ===================================================================== *)

Module Url.

(** The fields of a [URL] object the server reads. *)
Record URL : Type := mkURL {
  protocol : string;
  hostname : string;
  pathname : string;
  search : string;
  href : string
}.

(** [new URL(input, base)] ([base] absent for the one-argument form);
    [None] when the constructor throws. *)
Definition parser : Type := string -> option string -> option URL.

(** [new URL] on the plain inputs the examples use: an [http://] or
    [https://] URL, or with such a base a reference that starts with a
    slash (with two slashes it names its own host). The host is made of lower-case letters in labels separated by
    single dots, without a port; path and query are written in lower-case
    letters, digits and [. - _ / ? = & :], and the path has no dot
    segment. On these the platform copies the parts over and prints an
    empty path as [/]. Any other input is outside this table and
    answered [None]. *)
Fixpoint splitAtAny (stops : list ascii) (s : string) : string * string :=
  match s with
  | EmptyString => (EmptyString, EmptyString)
  | String c s' =>
      if existsb (Ascii.eqb c) stops then (EmptyString, s)
      else let (a, b) := splitAtAny stops s' in (String c a, b)
  end.

Definition isLetter (c : ascii) : bool :=
  let n := nat_of_ascii c in Nat.leb 97 n && Nat.leb n 122.

Definition plainChar (c : ascii) : bool :=
  let n := nat_of_ascii c in
  isLetter c || (Nat.leb 48 n && Nat.leb n 57)
  || existsb (Ascii.eqb c) ["."; "-"; "_"; "/"; "?"; "="; "&"; ":"]%char.

Fixpoint plain (s : string) : bool :=
  match s with
  | EmptyString => true
  | String c s' => plainChar c && plain s'
  end.

Fixpoint lettersAndDots (s : string) : bool :=
  match s with
  | EmptyString => true
  | String c s' => (isLetter c || Ascii.eqb c ".") && lettersAndDots s'
  end.

Definition plainHost (host : string) : bool :=
  truthy host && lettersAndDots host
  && negb (startsWith host ".") && negb (endsWith host ".") && negb (includes host "..").

Definition absolute (input : string) : option URL :=
  let scheme := if startsWith input "https://" then Some "https:"
                else if startsWith input "http://" then Some "http:"
                else None in
  match scheme with
  | None => None
  | Some proto =>
      let rest := drop (String.length proto + 2) input in
      let (host, tail) := splitAtAny ["/"; "?"]%char rest in
      let (p, q) := splitAtAny ["?"]%char tail in
      if plainHost host && plain tail && negb (includes p "/.")
      then Some (mkURL proto host
                       (if truthy p then p else "/")
                       (if String.eqb q "?" then EmptyString else q)
                       (proto ++ "//" ++ host ++ (if truthy p then p else "/") ++ q))
      else None
  end.

Definition simple : parser :=
  fun input base =>
    match absolute input with
    | Some u => Some u
    | None =>
        match base with
        | None => None
        | Some b =>
            match absolute b with
            | None => None
            | Some bu =>
                if startsWith input "//" then absolute (protocol bu ++ input)
                else if startsWith input "/"
                     then absolute (protocol bu ++ "//" ++ hostname bu ++ input)
                     else None
            end
        end
    end.

End Url.

Import Url.

(* ===================================================================== *)
(** * JavaScript [Set] of strings *)
(* ===================================================================== *)

Module JsSet.

(** The members in insertion order, [Array.from(set)]. *)
Definition t : Type := list string.

Definition has (s : t) (x : string) : bool := existsb (String.eqb x) s.

(** [set.add(x)]: a new member goes last, a present one keeps its place. *)
Definition add (s : t) (x : string) : t := if has s x then s else (s ++ [x])%list.

(** [set.delete(x)] *)
Fixpoint delete (s : t) (x : string) : t :=
  match s with
  | [] => []
  | y :: s' => if String.eqb y x then s' else y :: delete s' x
  end.

Definition size (s : t) : nat := List.length s.

End JsSet.

(* ===================================================================== *)
(** * The two tables *)
(* ===================================================================== *)

Module Db.

Record website : Type := mkWebsite {
  w_id : nat;
  w_domain : string
}.

(** A row of [translations]; [translated_text] is the one nullable
    column. *)
Record translation : Type := mkTranslation {
  t_id : nat;
  website_id : nat;
  original_text : string;
  translated_text : option string;
  language : string;
  t_path : string;
  element_type : string
}.

(** Both tables, rows in rowid order. *)
Record t : Type := mkDb {
  websites : list website;
  translations : list translation
}.

(** [findWebsite.get(domain)] and [getWebsiteByDomain.get(domain)] *)
Definition findWebsite (d : t) (domain : string) : option website :=
  find (fun w => String.eqb (w_domain w) domain) (websites d).

(** [WHERE website_id = ? AND path = ? AND language = ?] *)
Definition getTranslations (d : t) (websiteId : nat) (path lang : string) : list translation :=
  filter (fun r => Nat.eqb (website_id r) websiteId
                   && String.eqb (t_path r) path
                   && String.eqb (language r) lang)
         (translations d).

(** [getTranslation.get(domain, originalText, language)]: the first row
    of the join, [None] for [undefined]. *)
Definition getTranslation (d : t) (domain originalText lang : string) : option translation :=
  find (fun r => existsb (fun w => Nat.eqb (w_id w) (website_id r)
                                   && String.eqb (w_domain w) domain) (websites d)
                 && String.eqb (original_text r) originalText
                 && String.eqb (language r) lang)
       (translations d).

(** [WHERE website_id = ? AND translated_text IS NULL] *)
Definition findUntranslated (d : t) (websiteId : nat) : list translation :=
  filter (fun r => Nat.eqb (website_id r) websiteId
                   && match translated_text r with None => true | Some _ => false end)
         (translations d).

(** [UPDATE translations SET translated_text = ?, language = ? WHERE id = ?] *)
Definition updateTranslation (d : t) (text : option string) (lang : string) (id : nat) : t :=
  mkDb (websites d)
       (List.map (fun r => if Nat.eqb (t_id r) id
                           then mkTranslation (t_id r) (website_id r) (original_text r)
                                              text lang (t_path r) (element_type r)
                           else r)
                 (translations d)).

(** What better-sqlite3 binds for one JavaScript value: [undefined] and
    [null] as NULL, a string as it is, a number by its text (the column
    is TEXT); a boolean, an array or an object in this place is a
    TypeError. *)
Definition bindValue (v : value) : completion (option string) :=
  match v with
  | VUndefined | VNull => Normal None
  | VStr s => Normal (Some s)
  | VNum shown => Normal (Some shown)
  | _ => Throw "SQLite3 can only bind numbers, strings, bigints, buffers, and null"
  end.

(** What [run(translatedText, targetLanguage, item.id)] binds to the
    first parameter. An array argument is taken for a list of
    parameters: with one item the three parameters are still bound in
    order, the item first; with another number of items the count is
    wrong. A plain object is taken for named parameters, of which the
    statement has none, so one parameter is left without a value. *)
Definition bindText (v : value) : completion (option string) :=
  match v with
  | VArr [item] => bindValue item
  | VArr [] => Throw "Too few parameter values were provided"
  | VArr _ => Throw "Too many parameter values were provided"
  | VObj _ => Throw "Too few parameter values were provided"
  | _ => bindValue v
  end.

End Db.

(* ===================================================================== *)
(** * The translation client and the translate-website endpoint *)
(* ===================================================================== *)

Module Translate.

Import Db.

Inductive response : Type :=
| Translated
| Failed.

Section WithBackend.

(** [axios.post(LIBRE_TRANSLATE_API + '/translate', {q, source, target,
    format})], by [q] and [target]: the [data] of the response, or a
    throw (network error, timeout, status outside 2xx). *)
Variable post : string -> string -> completion value.

Definition translateText (text targetLanguage : string) : completion value :=
  tryCatch (response_data <- post text targetLanguage ;; getTranslatedText response_data)
           (fun _ => Normal (VStr text)).

(** The [for (const item of untranslated)] loop; a throw leaves the rows
    updated so far as they are. *)
Fixpoint translateItems (targetLanguage : string) (items : list translation) (d : Db.t)
  : Db.t * completion unit :=
  match items with
  | [] => (d, Normal tt)
  | item :: rest =>
      match translatedText <- translateText (original_text item) targetLanguage ;;
            bindText translatedText with
      | Throw m => (d, Throw m)
      | Normal text =>
          translateItems targetLanguage rest (updateTranslation d text targetLanguage (t_id item))
      end
  end.

(** The handler of [POST /api/translate-website]. *)
Definition translateWebsite (d : Db.t) (websiteId : nat) (targetLanguage : string)
  : Db.t * response :=
  let untranslated := findUntranslated d websiteId in
  match translateItems targetLanguage untranslated d with
  | (d', Normal _) => (d', Translated)
  | (d', Throw _) => (d', Failed)
  end.

End WithBackend.

End Translate.

(* ===================================================================== *)
(** * Link discovery and the map-website crawl *)
(* ===================================================================== *)

Module Crawl.

(** The alternatives of [/\.(jpg|jpeg|png|gif|ico|css|js|pdf|doc|docx|zip)$/i]. *)
Definition extensions : list string :=
  ["jpg"; "jpeg"; "png"; "gif"; "ico"; "css"; "js"; "pdf"; "doc"; "docx"; "zip"].

Definition hasListedExtension (url : string) : bool :=
  existsb (fun e => endsWith (upcase url) (upcase ("." ++ e))) extensions.

(** [/^[^/]*:/]: a colon with no slash before it. *)
Fixpoint schemeLike (url : string) : bool :=
  match url with
  | EmptyString => false
  | String c rest =>
      if Ascii.eqb c ":" then true
      else if Ascii.eqb c "/" then false
      else schemeLike rest
  end.

(** [invalidPatterns], each regular expression as its [test]. *)
Definition invalidPatterns : list (string -> bool) :=
  [ (fun url => startsWith url "mailto:");
    (fun url => startsWith url "tel:");
    (fun url => startsWith url "#");
    (fun url => startsWith url "javascript:");
    hasListedExtension;
    (fun url => includes url "@");
    schemeLike ].

Definition isValidWebpagePath (url : string) : bool :=
  if existsb (fun pattern => pattern url) invalidPatterns then false
  else startsWith url "/" || startsWith url "./" || startsWith url "../".

Record CrawlResult : Type := mkCrawlResult {
  path : string;
  title : string;
  textCount : nat
}.

Record state : Type := mkState {
  pagesQueue : JsSet.t;
  visitedPages : JsSet.t;
  foundPages : list CrawlResult
}.

(** [maxPages] of the map-website endpoint. *)
Definition maxPages : nat := 20.

Definition extractable : list string :=
  ["h1"; "h2"; "h3"; "h4"; "h5"; "h6"; "p"; "span"; "a"; "button"].

Inductive mapResponse : Type :=
| MapOk (domain : string) (pages : list CrawlResult) (totalPages : nat)
| MapBadRequest (error : string)
| MapError.

Section WithEnvironment.

Variable newURL : Url.parser.

(** [axios.get(pageUrl)] followed by [cheerio.load(response.data)]; it
    throws when the request fails (network error, timeout, status outside
    2xx). *)
Variable fetch : string -> completion document.

(** [getPageLinks] of [server/index.js]. *)
Definition getPageLinks (html : document) (baseUrl : string) : list string :=
  fold_left
    (fun links el =>
       match attr "href" el with
       | None => links
       | Some href =>
           if negb (truthy href) then links
           else match newURL href (Some baseUrl) with
                | None => links
                | Some fullUrl =>
                    match newURL baseUrl None with
                    | None => links
                    | Some base =>
                        if String.eqb (hostname fullUrl) (hostname base)
                           && isValidWebpagePath (pathname fullUrl)
                        then JsSet.add links (pathname fullUrl)
                        else links
                    end
                end
       end)
    (select ["a"] html) [].

(** [getPageLinks] of the earlier revision: same hostname and an http(s)
    protocol, no path filter. *)
Definition getPageLinks_rev0 (html : document) (baseUrl : string) : list string :=
  fold_left
    (fun links el =>
       match attr "href" el with
       | None => links
       | Some href =>
           if negb (truthy href) then links
           else match newURL href (Some baseUrl) with
                | None => links
                | Some url =>
                    match newURL baseUrl None with
                    | None => links
                    | Some base =>
                        if String.eqb (hostname url) (hostname base)
                           && (String.eqb (protocol url) "http:" || String.eqb (protocol url) "https:")
                        then JsSet.add links (pathname url)
                        else links
                    end
                end
       end)
    (select ["a"] html) [].

Variable baseUrl : string.

(** [$('title').text() || currentPath] *)
Definition titleOf (doc : document) (currentPath : string) : string :=
  let t := text (select ["title"] doc) in
  if truthy t then t else currentPath.

(** [$('h1, ..., button').text().trim().length] *)
Definition textCountOf (doc : document) : nat :=
  jsLength (trim (text (select extractable doc))).

(** The [links.forEach] of the loop body. *)
Definition enqueue (visited queue : JsSet.t) (links : list string) : JsSet.t :=
  fold_left (fun q link => if negb (JsSet.has visited link) then JsSet.add q link else q)
            links queue.

(** One turn of the [while] body. The loop condition keeps the frontier
    from being empty here. *)
Definition step (st : state) : state :=
  match pagesQueue st with
  | [] => st
  | currentPath :: _ =>
      let queue := JsSet.delete (pagesQueue st) currentPath in
      if JsSet.has (visitedPages st) currentPath
      then mkState queue (visitedPages st) (foundPages st)
      else
        let visited := JsSet.add (visitedPages st) currentPath in
        match fetch (baseUrl ++ currentPath) with
        | Throw _ => mkState queue visited (foundPages st)
        | Normal doc =>
            let found := (foundPages st
                          ++ [mkCrawlResult currentPath (titleOf doc currentPath) (textCountOf doc)])%list in
            mkState (enqueue visited queue (getPageLinks doc baseUrl)) visited found
        end
  end.

(** [pagesQueue.size > 0 && visitedPages.size < maxPages] *)
Definition continues (st : state) : bool :=
  Nat.ltb 0 (JsSet.size (pagesQueue st)) && Nat.ltb (JsSet.size (visitedPages st)) maxPages.

(** The [while] loop, [None] when the turns allowed run out before the
    condition fails. *)
Fixpoint loop (turns : nat) (st : state) : option state :=
  if continues st then
    match turns with
    | 0 => None
    | S k => loop k (step st)
    end
  else Some st.

Definition start (seedPath : string) : state := mkState [seedPath] [] [].

(** The crawl of one request. Every turn of a crawl marks a new page, so
    [maxPages] turns are all it can take (see [crawl_terminates]). *)
Definition crawl (seedPath : string) : option state := loop maxPages (start seedPath).

End WithEnvironment.

(** The handler of [POST /api/map-website]; the outer [None] stands for a
    loop that does not finish. *)
Definition mapWebsite (newURL : Url.parser) (fetch : string -> completion document)
           (url : option string) : option mapResponse :=
  match url with
  | None => Some (MapBadRequest "URL is required")
  | Some u =>
      if negb (truthy u) then Some (MapBadRequest "URL is required")
      else match newURL u None with
           | None => Some MapError
           | Some parsedUrl =>
               let domain := hostname parsedUrl in
               let baseUrl := protocol parsedUrl ++ "//" ++ domain in
               match crawl newURL fetch baseUrl (pathname parsedUrl) with
               | None => None
               | Some st => Some (MapOk domain (foundPages st) (List.length (foundPages st)))
               end
           end
  end.

End Crawl.

(* ===================================================================== *)
(** * The view endpoints and the content rewriter *)
(* ===================================================================== *)

Module View.

Import Db.

Inductive body : Type :=
| Message (text : string)
| Page (doc : document).

Record response : Type := mkResponse {
  status : nat;
  content : body
}.

(** What a request leads to: the response, and the upstream requests made
    on the way, in order. *)
Record outcome : Type := mkOutcome {
  reply : response;
  upstream : list string
}.

(** [req.query.lang || 'en'] *)
Definition languageOf (lang : option string) : string :=
  match lang with
  | Some l => if truthy l then l else "en"
  | None => "en"
  end.

(** [translation.translated_text || translation.original_text] *)
Definition replacement (tr : translation) : string :=
  match translated_text tr with
  | Some t => if truthy t then t else original_text tr
  | None => original_text tr
  end.

Fixpoint walkAndReplace (tr : translation) (n : node) : node :=
  match n with
  | Text nodeValue =>
      if includes nodeValue (original_text tr)
      then Text (replace nodeValue (original_text tr) (replacement tr))
      else Text nodeValue
  | Comment d => Comment d
  | Element nm a cs => Element nm a (List.map (walkAndReplace tr) cs)
  end.

(** The selector the handlers build for a row:
    [element_type:contains(original_text)], the text in double
    quotes. *)
Definition selectorOf (tr : translation) : string :=
  element_type tr ++ ":contains(" ++ dquote ++ original_text tr ++ dquote ++ ")".

Definition isLower (c : ascii) : bool :=
  let n := nat_of_ascii c in Nat.leb 97 n && Nat.leb n 122.

Definition isDigit (c : ascii) : bool :=
  let n := nat_of_ascii c in Nat.leb 48 n && Nat.leb n 57.

Fixpoint everyChar (p : ascii -> bool) (s : string) : bool :=
  match s with
  | EmptyString => true
  | String c s' => p c && everyChar p s'
  end.

(** A tag name in lower-case letters and digits. *)
Definition isTagName (s : string) : bool :=
  match s with
  | EmptyString => false
  | String c rest => isLower c && everyChar (fun d => isLower d || isDigit d) rest
  end.

(** A text without parenthesis, backslash and left angle bracket. *)
Definition isPlainText (s : string) : bool :=
  negb (includes s "(") && negb (includes s ")")
  && negb (includes s (String (ascii_of_nat 92) EmptyString))
  && negb (includes s "<").

(** The rows whose selector is read as it is meant. The selector parser
    takes the argument of [:contains] up to the parenthesis that closes
    the first one, strips the quotes around it and resolves backslash
    escapes; and a selector with a tag in angle brackets is taken for
    markup, not for a selector. With a tag name before the colon and a
    text as above, the selector is a tag and the pseudo-class with the
    recorded text, whatever else the text holds. *)
Definition plain (tr : translation) : bool :=
  isTagName (element_type tr) && isPlainText (original_text tr).

(** What the selector of a plain row matches: the elements of that name
    whose text includes the recorded text. *)
Definition selected (tr : translation) (n : node) : bool :=
  isElement n && String.eqb (nameOf n) (element_type tr)
  && includes (getText n) (original_text tr).

Section Substitution.

(** [$(selector)] for the selectors of the other rows: the positions of
    the elements it selects in the document, in the order of the
    selection, or the throw of the selector parser. *)
Variable selectAll : string -> document -> completion (list position).

Definition selection (tr : translation) (doc : document) : completion (list position) :=
  if plain tr then Normal (positions (selected tr) doc)
  else selectAll (selectorOf tr) doc.

(** [$(selector).each((i, el) => walkAndReplace(el))]: the selection is
    taken first, then each selected element is walked in turn, so a text
    node below two selected elements is visited twice. *)
Definition substituteOne (tr : translation) (doc : document) : completion document :=
  ps <- selection tr doc ;;
  Normal (fold_left (fun d p => updateAt p (walkAndReplace tr) d) ps doc).

(** [translations.forEach(...)]; a throw ends it. *)
Fixpoint substitute (translations : list translation) (doc : document) : completion document :=
  match translations with
  | [] => Normal doc
  | tr :: rest => doc' <- substituteOne tr doc ;; substitute rest doc'
  end.

End Substitution.

(** Statements run on every element of a selection, with a throw ending
    the pass. *)
Fixpoint mapElementsM (f : string -> list (string * string) -> completion (list (string * string)))
         (n : node) : completion node :=
  match n with
  | Element nm a cs =>
      a' <- f nm a ;;
      cs' <- (fix each (l : list node) : completion (list node) :=
                match l with
                | [] => Normal []
                | c :: l' => c' <- mapElementsM f c ;; l'' <- each l' ;; Normal (c' :: l'')
                end) cs ;;
      Normal (Element nm a' cs')
  | _ => Normal n
  end.

Fixpoint eachM (f : node -> completion node) (l : list node) : completion (list node) :=
  match l with
  | [] => Normal []
  | c :: l' => c' <- f c ;; l'' <- eachM f l' ;; Normal (c' :: l'')
  end.

(** The fixed selection [h1, h2, h3, h4, h5, h6, p, span, a, button]. *)
Definition extractable : list string :=
  ["h1"; "h2"; "h3"; "h4"; "h5"; "h6"; "p"; "span"; "a"; "button"].

Definition isOneOf (names : list string) (nm : string) : bool :=
  existsb (String.eqb nm) names.

(** The style rewriting of the sub-path view, a global [replace] over the
    regular expression that reads: the letters url and an opening
    parenthesis, an optional quote (single or double), a group of one or
    more characters other than the two quotes, [h], [t], [p] and the
    closing parenthesis, an optional quote, a closing parenthesis. The
    group is the longest such run: the character after it is outside the
    class, so no shorter run can be followed by the rest. *)
Definition isQuote (c : ascii) : bool :=
  Ascii.eqb c "'" || Ascii.eqb c (ascii_of_nat 34).

Definition inGroup (c : ascii) : bool :=
  negb (isQuote c || Ascii.eqb c "h" || Ascii.eqb c "t" || Ascii.eqb c "p" || Ascii.eqb c ")").

Fixpoint spanGroup (s : string) : string * string :=
  match s with
  | EmptyString => (EmptyString, EmptyString)
  | String c s' =>
      if inGroup c then let (g, r) := spanGroup s' in (String c g, r)
      else (EmptyString, s)
  end.

Definition skipQuote (s : string) : string :=
  match s with
  | String c s' => if isQuote c then s' else s
  | EmptyString => s
  end.

(** A match at the start of [s]: the group and what follows the match. *)
Definition matchUrl (s : string) : option (string * string) :=
  if startsWith s "url(" then
    let (p1, r) := spanGroup (skipQuote (drop 4 s)) in
    match p1, skipQuote r with
    | String _ _, String c r' => if Ascii.eqb c ")" then Some (p1, r') else None
    | _, _ => None
    end
  else None.

Definition stripSlash (s : string) : string :=
  if startsWith s "/" then drop 1 s else s.

Fixpoint fixUrlsWithin (budget : nat) (s : string) : string :=
  match budget with
  | 0 => s
  | S k =>
      match matchUrl s with
      | Some (p1, r) =>
          (if startsWith p1 "data:"
           then take (String.length s - String.length r) s
           else "url('" ++ stripSlash p1 ++ "')")
          ++ fixUrlsWithin k r
      | None =>
          match s with
          | EmptyString => EmptyString
          | String c s' => String c (fixUrlsWithin k s')
          end
      end
  end.

Definition fixUrls (s : string) : string := fixUrlsWithin (String.length s) s.

Section WithEnvironment.

Variable newURL : Url.parser.

(** [axios.get(url)] followed by [cheerio.load(response.data)]. *)
Variable fetch : string -> completion document.

Variable db : Db.t.

(** [$(selector)] on the selectors of the rows that are not [plain]. *)
Variable selectAll : string -> document -> completion (list position).

(** The proxy route written into an internal link. *)
Definition proxyHref (domain : string) (u : URL) (lang : string) : string :=
  "/view/" ++ domain ++ pathname u ++ search u ++ "?lang=" ++ lang.

(** The [$('a').each] pass; [skipFragments] is the extra
    [!href.startsWith('#')] of [serveTranslatedWebsite]. *)
Definition rewriteLink (skipFragments : bool) (domain lang : string)
           (nm : string) (a : list (string * string)) : list (string * string) :=
  if String.eqb nm "a" then
    match getAttr "href" a with
    | None => a
    | Some href =>
        if truthy href && negb (skipFragments && startsWith href "#") then
          match newURL href (Some ("https://" ++ domain)) with
          | None => a
          | Some hrefUrl =>
              if String.eqb (hostname hrefUrl) domain
              then setAttr "href" (proxyHref domain hrefUrl lang) a
              else a
          end
        else a
    end
  else a.

Definition rewriteLinks (skipFragments : bool) (domain lang : string) (doc : document) : document :=
  List.map (mapElements (rewriteLink skipFragments domain lang)) doc.

(** The [$('img, script, link').each] pass of the three inline handlers;
    [new URL] is not guarded there. *)
Definition fixAssetPath (domain : string) (nm : string) (a : list (string * string))
  : completion (list (string * string)) :=
  if isOneOf ["img"; "script"; "link"] nm then
    let src := match getAttr "src" a with
               | Some s => if truthy s then Some s else getAttr "href" a
               | None => getAttr "href" a
               end in
    match src with
    | None => Normal a
    | Some s =>
        if truthy s && negb (startsWith s "http") then
          match newURL s (Some ("https://" ++ domain)) with
          | None => Throw "Invalid URL"
          | Some u =>
              match getAttr "src" a with
              | Some s0 => if truthy s0 then Normal (setAttr "src" (href u) a)
                           else Normal (setAttr "href" (href u) a)
              | None => Normal (setAttr "href" (href u) a)
              end
          end
        else Normal a
    end
  else Normal a.

Definition fixAssetPaths (domain : string) (doc : document) : completion document :=
  eachM (mapElementsM (fixAssetPath domain)) doc.

(** The [$('img, script, link, source, video, audio').each] pass of
    [serveTranslatedWebsite]. *)
Definition fixAttribute (baseUrl : string) (a : list (string * string)) (k : string)
  : list (string * string) :=
  match getAttr k a with
  | None => a
  | Some v =>
      if truthy v && negb (startsWith v "http") && negb (startsWith v "data:") then
        match newURL v (Some baseUrl) with
        | Some u => setAttr k (href u) a
        | None => a
        end
      else a
  end.

Definition fixAsset (baseUrl : string) (nm : string) (a : list (string * string))
  : list (string * string) :=
  if isOneOf ["img"; "script"; "link"; "source"; "video"; "audio"] nm
  then fold_left (fixAttribute baseUrl) ["src"; "href"; "poster"] a
  else a.

Definition fixAssets (baseUrl : string) (doc : document) : document :=
  List.map (mapElements (fixAsset baseUrl)) doc.

(** [translation?.translated_text], when truthy. *)
Definition translationFor (domain originalText lang : string) : option string :=
  match getTranslation db domain originalText lang with
  | Some tr =>
      match translated_text tr with
      | Some t => if truthy t then Some t else None
      | None => None
      end
  | None => None
  end.

(** The last pass of the root view: [$el.text(translated_text)] on every
    extractable element whose trimmed text has a translation. The
    elements come in document order, and one whose content is replaced
    takes its descendants out of the document. *)
Fixpoint retranslate (domain lang : string) (n : node) : node :=
  match n with
  | Element nm a cs =>
      let descend := Element nm a (List.map (retranslate domain lang) cs) in
      if isOneOf extractable nm then
        let originalText := trim (textContent n) in
        if truthy originalText then
          match translationFor domain originalText lang with
          | Some t => Element nm a [Text t]
          | None => descend
          end
        else descend
      else descend
  | _ => n
  end.

(** [GET /view/:domain] of [server/index.js]; [again] tells whether the
    last pass is there (it is not in the earlier revision). *)
Definition viewRootWith (again : bool) (domain : string) (lang : option string) : outcome :=
  let path := "/" in
  let language := languageOf lang in
  match findWebsite db domain with
  | None => mkOutcome (mkResponse 404 (Message "Website not found")) []
  | Some website =>
      let translations := getTranslations db (w_id website) path language in
      let url := "https://" ++ domain in
      match
        doc <- fetch url ;;
        doc <- substitute selectAll translations doc ;;
        doc <- fixAssetPaths domain (rewriteLinks false domain language doc) ;;
        Normal (if again then List.map (retranslate domain language) doc else doc)
      with
      | Normal doc => mkOutcome (mkResponse 200 (Page doc)) [url]
      | Throw m => mkOutcome (mkResponse 500 (Message ("Error loading translated website: " ++ m))) [url]
      end
  end.

Definition viewRoot : string -> option string -> outcome := viewRootWith true.
Definition viewRoot_rev0 : string -> option string -> outcome := viewRootWith false.

(** [GET /view/:domain/*] of the earlier revision; [rest] is
    [req.params[0]]. *)
Definition viewPath_rev0 (domain rest : string) (lang : option string) : outcome :=
  let path := "/" ++ rest in
  let language := languageOf lang in
  match findWebsite db domain with
  | None => mkOutcome (mkResponse 404 (Message "Website not found")) []
  | Some website =>
      let translations := getTranslations db (w_id website) path language in
      let url := "https://" ++ domain ++ path in
      match
        doc <- fetch url ;;
        doc <- substitute selectAll translations doc ;;
        fixAssetPaths domain (rewriteLinks false domain language doc)
      with
      | Normal doc => mkOutcome (mkResponse 200 (Page doc)) [url]
      | Throw m => mkOutcome (mkResponse 500 (Message ("Error loading translated website: " ++ m))) [url]
      end
  end.

(** ** [GET /view/:domain/*] of [server/index.js] *)

(** [$('base').remove()] *)
Fixpoint removeBase (n : node) : list node :=
  match n with
  | Element nm a cs =>
      if String.eqb nm "base" then [] else [Element nm a (flat_map removeBase cs)]
  | _ => [n]
  end.

(** [$('head').prepend(...)] with a [base] element for the origin. *)
Fixpoint prependBase (baseHref : string) (n : node) : node :=
  match n with
  | Element nm a cs =>
      let cs' := List.map (prependBase baseHref) cs in
      if String.eqb nm "head"
      then Element nm a (Element "base" [("href", baseHref)] [] :: cs')
      else Element nm a cs'
  | _ => n
  end.

(** The [$('[href]').each] and [$('[src]').each] passes. *)
Definition stripHref (nm : string) (a : list (string * string)) : list (string * string) :=
  match getAttr "href" a with
  | None => a
  | Some href =>
      if truthy href && negb (startsWith href "http") && negb (startsWith href "//")
         && negb (startsWith href "mailto:") && negb (startsWith href "#")
      then setAttr "href" (stripSlash href) a
      else a
  end.

Definition stripSrc (nm : string) (a : list (string * string)) : list (string * string) :=
  match getAttr "src" a with
  | None => a
  | Some src =>
      if truthy src && negb (startsWith src "http") && negb (startsWith src "//")
      then setAttr "src" (stripSlash src) a
      else a
  end.

(** The [$('[style]').each] pass. *)
Definition fixInlineStyle (nm : string) (a : list (string * string)) : list (string * string) :=
  match getAttr "style" a with
  | None => a
  | Some style => if truthy style then setAttr "style" (fixUrls style) a else a
  end.

(** cheerio's parser, as [$(el).html(markup)] calls it. *)
Variable parseHtml : string -> list node.

(** The [$('style').each] pass. *)
Fixpoint fixStyleTags (n : node) : node :=
  match n with
  | Element nm a cs =>
      if String.eqb nm "style"
      then Element nm a (parseHtml (fixUrls (innerHtml n)))
      else Element nm a (List.map fixStyleTags cs)
  | _ => n
  end.

(** The translation pass: the inner markup of the element is printed, the
    first occurrence of the element's trimmed text in that markup is
    replaced, and the result is parsed back as the element's content. *)
Definition translatedHtml (n : node) (originalText translated : string) : string :=
  replace (innerHtml n) originalText translated.

Fixpoint translateMarkup (domain lang : string) (n : node) : node :=
  match n with
  | Element nm a cs =>
      let descend := Element nm a (List.map (translateMarkup domain lang) cs) in
      if isOneOf extractable nm then
        let originalText := trim (textContent n) in
        if truthy originalText then
          match translationFor domain originalText lang with
          | Some t => Element nm a (parseHtml (translatedHtml n originalText t))
          | None => descend
          end
        else descend
      else descend
  | _ => n
  end.

Definition viewPath (domain rest : string) (lang : option string) : outcome :=
  let path := rest in
  let lang := languageOf lang in
  match findWebsite db domain with
  | None => mkOutcome (mkResponse 500 (Message ("Error: " ++ "Website not found: " ++ domain))) []
  | Some website =>
      let protocol := if includes domain "localhost" then "http:" else "https:" in
      let originalUrl := protocol ++ "//" ++ domain ++ "/" ++ path in
      match fetch originalUrl with
      | Throw m => mkOutcome (mkResponse 500 (Message ("Error: " ++ m))) [originalUrl]
      | Normal doc =>
          let doc := List.map (prependBase (protocol ++ "//" ++ domain ++ "/")) (flat_map removeBase doc) in
          let doc := List.map (mapElements stripHref) doc in
          let doc := List.map (mapElements stripSrc) doc in
          let doc := List.map (mapElements fixInlineStyle) doc in
          let doc := List.map fixStyleTags doc in
          let doc := List.map (translateMarkup domain lang) doc in
          mkOutcome (mkResponse 200 (Page doc)) [originalUrl]
      end
  end.

(** ** [serveTranslatedWebsite] *)

(** The wrapper around the body with the page's styles copied into it,
    the wrapper's style rule appended to the head, and the meta and base
    tags prepended to it. *)
Variable wrapBody : document -> document.
Variable appendWrapperStyle : document -> document.
Variable prependMeta : string -> document -> document.

Definition serveTranslatedWebsite (domain path lang : string) : outcome :=
  let baseUrl := "https://" ++ domain in
  let pageUrl := baseUrl ++ path in
  match findWebsite db domain with
  | None => mkOutcome (mkResponse 404 (Message "Website not found")) []
  | Some website =>
      match fetch pageUrl with
      | Throw m =>
          mkOutcome (mkResponse 500 (Message ("Error loading translated website: " ++ m))) [pageUrl]
      | Normal doc =>
          let translations := getTranslations db (w_id website) path lang in
          let doc := wrapBody doc in
          match substitute selectAll translations doc with
          | Throw m =>
              mkOutcome (mkResponse 500 (Message ("Error loading translated website: " ++ m)))
                        [pageUrl]
          | Normal doc =>
              let doc := rewriteLinks true domain lang doc in
              let doc := appendWrapperStyle doc in
              let doc := fixAssets baseUrl doc in
              let doc := prependMeta baseUrl doc in
              mkOutcome (mkResponse 200 (Page doc)) [pageUrl]
          end
      end
  end.

End WithEnvironment.

End View.

(* ===================================================================== *)
(** * The fetch-website and get-translation endpoints *)
(* ===================================================================== *)

Module Ingest.

Import Db.

(** The rowid an [AUTOINCREMENT] table gives its next row. The tables are
    created empty when the server starts and no row is ever deleted, so
    it is one more than the largest id in the table. *)
Definition nextId (ids : list nat) : nat := S (fold_right Nat.max 0 ids).

(** [insertWebsite.run(domain)], with its [lastInsertRowid]. *)
Definition insertWebsite (d : Db.t) (domain : string) : Db.t * nat :=
  let id := nextId (List.map w_id (websites d)) in
  (mkDb (websites d ++ [mkWebsite id domain])%list (translations d), id).

(** [insertTranslation.run(website_id, original_text, translated_text,
    language, path, element_type)] *)
Definition insertTranslation (d : Db.t) (websiteId : nat) (originalText : string)
           (translatedText : option string) (lang path elementType : string) : Db.t :=
  mkDb (websites d)
       (translations d
        ++ [mkTranslation (nextId (List.map t_id (translations d))) websiteId originalText
                          translatedText lang path elementType])%list.

(** The transaction of the fetch-website handlers: the row of the domain,
    made when there is none. A throw rolls the transaction back. *)
Definition findOrCreateWebsite (d : Db.t) (domain : string) : Db.t * completion website :=
  match findWebsite d domain with
  | Some website =>
      if Nat.eqb (w_id website) 0 then (d, Throw "Failed to create or find website")
      else (d, Normal website)
  | None =>
      let (d', websiteId) := insertWebsite d domain in
      if Nat.eqb websiteId 0 then (d, Throw "Failed to create or find website")
      else (d', Normal (mkWebsite websiteId domain))
  end.

(** The fixed selection [h1, h2, h3, h4, h5, h6, p, span, a, button]. *)
Definition extractable : list string :=
  ["h1"; "h2"; "h3"; "h4"; "h5"; "h6"; "p"; "span"; "a"; "button"].

(** What the [each] over the selection stores for a page: the trimmed
    text and the name of every selected element whose trimmed text is
    not empty, in document order. *)
Definition fragments (doc : document) : list (string * string) :=
  flat_map (fun el => let text := trim (textContent el) in
                      if truthy text then [(text, nameOf el)] else [])
           (select extractable doc).

(** The inserts for one page, with [insertedCount]. *)
Definition storeFragments (websiteId : nat) (path : string) (doc : document) (d : Db.t)
  : Db.t * nat :=
  fold_left (fun (acc : Db.t * nat) (fragment : string * string) =>
               (insertTranslation (fst acc) websiteId (fst fragment) None "en" path (snd fragment),
                S (snd acc)))
            (fragments doc) (d, 0).

Inductive response : Type :=
| Stored (websiteId : nat) (domain : string) (translationsCount : nat)
| BadRequest (error : string)
| Failed (error : string).

(** [error.message || 'Failed to process website'] *)
Definition failure (message : string) : response :=
  Failed (if truthy message then message else "Failed to process website").

Inductive lookup : Type :=
| Found (translations : list translation)
| NotFound.

(** [findTranslations.all(website_id, language, path)] *)
Definition findTranslations (d : Db.t) (websiteId : nat) (lang path : string) : list translation :=
  filter (fun r => Nat.eqb (website_id r) websiteId
                   && String.eqb (language r) lang
                   && String.eqb (t_path r) path)
         (translations d).

(** A query parameter as a statement gets it: a text, or [undefined]
    when the query does not name it, which is bound as NULL and equal to
    no column value. *)
Definition equalsParameter (column : string) (parameter : option string) : bool :=
  match parameter with
  | Some value => String.eqb column value
  | None => false
  end.

(** The handler of [GET /api/get-translation], for query parameters that
    are texts or absent: 404 when no site has the domain, the rows of
    the site for the language and the path otherwise. *)
Definition getTranslationOf (d : Db.t) (domain path lang : option string) : lookup :=
  match find (fun w => equalsParameter (w_domain w) domain) (websites d) with
  | None => NotFound
  | Some website =>
      Found (filter (fun r => Nat.eqb (website_id r) (w_id website)
                              && equalsParameter (language r) lang
                              && equalsParameter (t_path r) path)
                    (translations d))
  end.

Section WithEnvironment.

Variable newURL : Url.parser.

(** [axios.get(pageUrl)] followed by [cheerio.load(response.data)]. *)
Variable fetch : string -> completion document.

(** The [for (const pagePath of selectedPages)] loop; a fetch that throws
    ends it, with the rows stored so far left in the table. *)
Fixpoint storePages (websiteId : nat) (baseUrl : string) (pages : list string)
         (d : Db.t) (total : nat) : Db.t * completion nat :=
  match pages with
  | [] => (d, Normal total)
  | pagePath :: rest =>
      match fetch (baseUrl ++ pagePath) with
      | Throw m => (d, Throw m)
      | Normal doc =>
          let (d', insertedCount) := storeFragments websiteId pagePath doc d in
          storePages websiteId baseUrl rest d' (total + insertedCount)
      end
  end.

(** The handler of [POST /api/fetch-website] of [server/index.js]. *)
Definition fetchWebsite (d : Db.t) (url : option string) (selectedPages : option (list string))
  : Db.t * response :=
  match url, selectedPages with
  | Some u, Some pages =>
      if negb (truthy u) || Nat.eqb (List.length pages) 0
      then (d, BadRequest "URL and selected pages are required")
      else match newURL u None with
           | None => (d, failure "Invalid URL")
           | Some parsedUrl =>
               let domain := hostname parsedUrl in
               match findOrCreateWebsite d domain with
               | (d1, Throw m) => (d1, failure m)
               | (d1, Normal website) =>
                   let baseUrl := protocol parsedUrl ++ "//" ++ domain in
                   match storePages (w_id website) baseUrl pages d1 0 with
                   | (d2, Normal total) => (d2, Stored (w_id website) (w_domain website) total)
                   | (d2, Throw m) => (d2, failure m)
                   end
               end
           end
  | _, _ => (d, BadRequest "URL and selected pages are required")
  end.

(** The handler of [POST /api/fetch-website] of the earlier revision: one
    page, the URL itself, stored under its path. *)
Definition fetchWebsite_rev0 (d : Db.t) (url : option string) : Db.t * response :=
  match url with
  | None => (d, BadRequest "URL is required")
  | Some u =>
      if negb (truthy u) then (d, BadRequest "URL is required")
      else match newURL u None with
           | None => (d, failure "Invalid URL")
           | Some parsedUrl =>
               let domain := hostname parsedUrl in
               match findOrCreateWebsite d domain with
               | (d1, Throw m) => (d1, failure m)
               | (d1, Normal website) =>
                   match fetch u with
                   | Throw m => (d1, failure m)
                   | Normal doc =>
                       let path := if truthy (pathname parsedUrl) then pathname parsedUrl else "/" in
                       let (d2, insertedCount) := storeFragments (w_id website) path doc d1 in
                       (d2, Stored (w_id website) (w_domain website) insertedCount)
                   end
               end
           end
  end.

End WithEnvironment.

End Ingest.

(* ===================================================================== *)
(** * The operations on small inputs *)
(* ===================================================================== *)

Module Checks.

Import Crawl View.

Example replace_first_occurrence : replace "aXbXc" "X" "-" = "a-bXc".
Proof. reflexivity. Qed.

Example replace_absent_pattern : replace "abc" "X" "-" = "abc".
Proof. reflexivity. Qed.

Example replace_matched_text : replace "one two" "two" "[$&]" = "one [two]".
Proof. reflexivity. Qed.

Example replace_digit_template : replace "Price" "Price" "$5 off" = "$5 off".
Proof. reflexivity. Qed.

Example trim_both_ends : trim "  a b  " = "a b".
Proof. reflexivity. Qed.

Example indexOf_second : indexOf "hello" "l" = Some 2.
Proof. reflexivity. Qed.

Example valid_page_path : isValidWebpagePath "/about/team" = true.
Proof. reflexivity. Qed.

Example valid_colon_after_slash : isValidWebpagePath "/a:b" = true.
Proof. reflexivity. Qed.

Example invalid_extension_any_case : isValidWebpagePath "/img/logo.PNG" = false.
Proof. reflexivity. Qed.

Example invalid_mail : isValidWebpagePath "mailto:info@example.com" = false.
Proof. reflexivity. Qed.

Example invalid_at_sign : isValidWebpagePath "/user@example" = false.
Proof. reflexivity. Qed.

Example invalid_relative : isValidWebpagePath "about" = false.
Proof. reflexivity. Qed.

Example fixUrls_strips_slash : fixUrls "a: url('/bg/a.gif') b" = "a: url('bg/a.gif') b".
Proof. reflexivity. Qed.

Example fixUrls_stops_at_p : fixUrls "url(/photo.png)" = "url(/photo.png)".
Proof. reflexivity. Qed.

Example simple_origin :
  Url.simple "https://example.com" None
  = Some (mkURL "https:" "example.com" "/" "" "https://example.com/").
Proof. reflexivity. Qed.

Example simple_reference :
  Url.simple "/a/b?x=1" (Some "https://example.com")
  = Some (mkURL "https:" "example.com" "/a/b" "?x=1" "https://example.com/a/b?x=1").
Proof. reflexivity. Qed.

Example serialize_link :
  serialize (Element "a" [("href", "/x?a=1&b=2"); ("hidden", "")]
                     [Text "x < y"; Element "br" [] []])
  = "<a href=" ++ dquote ++ "/x?a=1&amp;b=2" ++ dquote ++ " hidden=" ++ dquote ++ dquote
    ++ ">x &lt; y<br></a>".
Proof. reflexivity. Qed.

Example serialize_style :
  innerHtml (Element "style" [] [Text "a > b { color: red }"]) = "a > b { color: red }".
Proof. reflexivity. Qed.

Example trim_no_break_space :
  trim (String (ascii_of_nat 194) (String (ascii_of_nat 160) "Hi ")) = "Hi".
Proof. reflexivity. Qed.

Example jsLength_two_bytes :
  jsLength (String (ascii_of_nat 195) (String (ascii_of_nat 169) "t")) = 2.
Proof. reflexivity. Qed.

End Checks.

(* ===================================================================== *)
(** * Properties: the translation client *)
(* ===================================================================== *)

Module TranslateFacts.

Import Db Translate.

Section Client.

Variable post : string -> string -> completion value.

(** The [catch] of [translateText] takes every throw: of the request, and
    of reading a property of a [null] body. *)
Lemma translateText_never_throws (text lang : string) :
  exists v, translateText post text lang = Normal v.
Proof.
  unfold translateText, tryCatch, Js.bind.
  destruct (post text lang) as [data|m]; [|eauto].
  destruct (getTranslatedText data); eauto.
Qed.

(** A request that throws is answered by the input text. *)
Lemma translateText_request_throws (text lang m : string) :
  post text lang = Throw m -> translateText post text lang = Normal (VStr text).
Proof. intros H. unfold translateText. rewrite H. reflexivity. Qed.

(** A body that is [null] is answered by the input text as well. *)
Lemma translateText_null_body (text lang : string) :
  post text lang = Normal VNull -> translateText post text lang = Normal (VStr text).
Proof. intros H. unfold translateText. rewrite H. reflexivity. Qed.

(** A well-formed reply is answered by its [translatedText]. *)
Lemma translateText_reply (text lang : string) (fields : list (string * value)) :
  post text lang = Normal (VObj fields) ->
  translateText post text lang = Normal (field "translatedText" fields).
Proof. intros H. unfold translateText. rewrite H. reflexivity. Qed.

End Client.

(** A backend that answers every request 200 with the body [{}]. *)
Definition emptyObjectBackend : string -> string -> completion value :=
  fun _ _ => Normal (VObj []).

(** A backend that answers 200 with the body [{error: ...}], as a proxy
    in front of the service may. *)
Definition errorBodyBackend : string -> string -> completion value :=
  fun _ _ => Normal (VObj [("error", VStr "Service Unavailable")]).

(** C4, where the code departs from it: the request succeeds with a body that has
    no [translatedText] field (a malformed response). [translateText]
    does not throw, but it returns [undefined], not the input text
    ["Hello"]. The same happens when the body is a string, as axios
    leaves it when it is not JSON. *)
Theorem C4_malformed_response_returns_undefined :
  translateText emptyObjectBackend "Hello" "es" = Normal VUndefined
  /\ translateText errorBodyBackend "Hello" "es" = Normal VUndefined
  /\ translateText (fun _ _ => Normal (VStr "<html>Bad Gateway</html>")) "Hello" "es"
     = Normal VUndefined
  /\ Normal VUndefined <> Normal (VStr "Hello").
Proof. repeat split; try reflexivity. discriminate. Qed.

End TranslateFacts.

(* ===================================================================== *)
(** * Properties: the translate-website run *)
(* ===================================================================== *)

Module TranslateWebsiteFacts.

Import Db Translate.

(** A backend that keeps to its contract: a request either throws or is
    answered by an object whose [translatedText] is a string. *)
Definition keepsContract (post : string -> string -> completion value) : Prop :=
  forall text lang,
    (exists m, post text lang = Throw m)
    \/ (exists fields s, post text lang = Normal (VObj fields)
                         /\ field "translatedText" fields = VStr s).

Definition isTranslated (r : translation) : Prop := translated_text r <> None.

(** How a row after the loop relates to the row it was before. *)
Definition filled (ids : list nat) (r r' : translation) : Prop :=
  website_id r' = website_id r
  /\ t_id r' = t_id r
  /\ original_text r' = original_text r
  /\ (isTranslated r -> isTranslated r')
  /\ (In (t_id r) ids -> isTranslated r').

Section Run.

Variable post : string -> string -> completion value.
Hypothesis contract : keepsContract post.

Lemma translateText_is_string (text lang : string) :
  exists s, translateText post text lang = Normal (VStr s).
Proof.
  unfold translateText.
  destruct (contract text lang) as [[m H]|(fields & s & H & Hs)]; rewrite H; cbn.
  - eauto.
  - rewrite Hs. eauto.
Qed.

Lemma filled_refl (r : translation) : filled [] r r.
Proof. unfold filled; cbn; intuition. Qed.

Lemma update_row_filled (d : Db.t) (s lang : string) (id : nat) :
  Forall2 (filled [id]) (translations d) (translations (updateTranslation d (Some s) lang id)).
Proof.
  destruct d as [ws rows]; cbn. induction rows as [|r rows IH]; cbn; constructor; auto.
  unfold filled, isTranslated.
  destruct (Nat.eqb_spec (t_id r) id) as [E|E]; cbn; repeat split; auto; try discriminate.
  intros [H|[]]. congruence.
Qed.

Lemma filled_trans (ids1 ids2 : list nat) (l1 l2 l3 : list translation) :
  Forall2 (filled ids1) l1 l2 -> Forall2 (filled ids2) l2 l3 ->
  Forall2 (filled (ids1 ++ ids2)) l1 l3.
Proof.
  intros H. revert l3. induction H as [|a b l1 l2 Hab _ IH]; intros l3 H23; inversion H23; subst.
  - constructor.
  - constructor; auto.
    destruct Hab as (A1 & A2 & A3 & A4 & A5).
    match goal with H : filled ids2 b _ |- _ => destruct H as (B1 & B2 & B3 & B4 & B5) end.
    unfold filled. repeat split; try congruence; auto.
    intros Hin. apply in_app_or in Hin. destruct Hin as [Hin|Hin]; auto.
    apply B5. rewrite A2. exact Hin.
Qed.

(** Under the contract the loop runs to its end, and every row whose id
    it went through holds a text afterwards. *)
Lemma translateItems_fills (lang : string) (items : list translation) :
  forall d, exists d',
    translateItems post lang items d = (d', Normal tt)
    /\ websites d' = websites d
    /\ Forall2 (filled (List.map t_id items)) (translations d) (translations d').
Proof.
  induction items as [|item items IH]; intros d; cbn [translateItems].
  - exists d. repeat split. clear. induction (translations d); constructor; auto using filled_refl.
  - destruct (translateText_is_string (original_text item) lang) as [s Hs].
    rewrite Hs. cbn.
    destruct (IH (updateTranslation d (Some s) lang (t_id item))) as (d' & Hrun & Hw & Hrows).
    exists d'. split; [exact Hrun|]. split; [rewrite Hw; reflexivity|].
    change (t_id item :: List.map t_id items) with ([t_id item] ++ List.map t_id items)%list.
    eapply filled_trans; [apply update_row_filled|exact Hrows].
Qed.

(** With a backend that keeps its contract, a run answers success and
    leaves the site without untranslated rows: a text whose request
    failed holds its original as translation and is not asked for again. *)
Lemma translateWebsite_leaves_none_untranslated (d : Db.t) (websiteId : nat) (lang : string) :
  snd (translateWebsite post d websiteId lang) = Translated
  /\ findUntranslated (fst (translateWebsite post d websiteId lang)) websiteId = [].
Proof.
  unfold translateWebsite.
  destruct (translateItems_fills lang (findUntranslated d websiteId) d) as (d' & Hrun & _ & Hrows).
  rewrite Hrun. cbn. split; [reflexivity|].
  unfold findUntranslated at 1.
  assert (Hall : forall r r', filled (List.map t_id (findUntranslated d websiteId)) r r' ->
                              In r (translations d) ->
                              (Nat.eqb (website_id r') websiteId
                               && match translated_text r' with None => true | Some _ => false end)
                              = false).
  { intros r r' (A1 & A2 & A3 & A4 & A5) Hin.
    destruct (translated_text r') eqn:Et; [apply andb_false_r|].
    destruct (Nat.eqb_spec (website_id r') websiteId) as [Ew|Ew]; [|reflexivity].
    exfalso. apply A5; [|exact Et].
    apply in_map. unfold findUntranslated. apply filter_In. split; [exact Hin|].
    rewrite <- A1, Ew, Nat.eqb_refl. cbn.
    destruct (translated_text r) eqn:Er; [|reflexivity].
    exfalso. apply A4; [unfold isTranslated; congruence|exact Et]. }
  clear Hrun. induction Hrows as [|r r' l l' Hr _ IH]; cbn; [reflexivity|].
  rewrite (Hall r r' Hr (or_introl eq_refl)).
  apply IH. intros r0 r0' H0 Hin. apply (Hall r0 r0' H0). right. exact Hin.
Qed.

End Run.

(** One site with one stored fragment, as [POST /api/fetch-website]
    leaves it. *)
Definition oneFragment : Db.t :=
  mkDb [mkWebsite 1 "example.com"]
       [mkTranslation 1 1 "Hello" None "en" "/" "p"].

(** A backend that answers 200 with the body [{translatedText: null}]. *)
Definition nullTextBackend : string -> string -> completion value :=
  fun _ _ => Normal (VObj [("translatedText", VNull)]).

(** C8, where the code departs from it: the backend answers with a [null]
    translation. The run reports success, the row it went through still
    has no translated text (only its language has changed), and the next
    [findUntranslated] returns it again. *)
Theorem C8_null_translation_is_stored_as_null :
  translateWebsite nullTextBackend oneFragment 1 "es"
  = (mkDb [mkWebsite 1 "example.com"] [mkTranslation 1 1 "Hello" None "es" "/" "p"], Translated)
  /\ findUntranslated (fst (translateWebsite nullTextBackend oneFragment 1 "es")) 1
     = [mkTranslation 1 1 "Hello" None "es" "/" "p"].
Proof. split; reflexivity. Qed.

(** With the body [{}] of C4 the text is [undefined], which is bound as
    NULL like [null]: the run answers success and the row is left
    without a translation, under the new language. *)
Lemma translateWebsite_stores_undefined_as_null :
  translateWebsite TranslateFacts.emptyObjectBackend oneFragment 1 "es"
  = (mkDb [mkWebsite 1 "example.com"] [mkTranslation 1 1 "Hello" None "es" "/" "p"], Translated).
Proof. reflexivity. Qed.

(** A body whose [translatedText] is a boolean cannot be bound: the run
    stops at the first row and answers 500; the rows are left as they
    were. *)
Lemma translateWebsite_stops_on_boolean :
  translateWebsite (fun _ _ => Normal (VObj [("translatedText", VBool true)])) oneFragment 1 "es"
  = (oneFragment, Failed).
Proof. reflexivity. Qed.

End TranslateWebsiteFacts.

(* ===================================================================== *)
(** * Properties: strings and documents *)
(* ===================================================================== *)

Module DomFacts.

(** Induction over a document tree, with the hypothesis for every child
    of an element. *)
Section NodeInduction.

Variable P : node -> Prop.
Hypothesis text_case : forall d, P (Text d).
Hypothesis comment_case : forall d, P (Comment d).
Hypothesis element_case : forall nm a cs, Forall P cs -> P (Element nm a cs).

Fixpoint node_induction (n : node) : P n :=
  match n with
  | Text d => text_case d
  | Comment d => comment_case d
  | Element nm a cs =>
      element_case nm a
        ((fix all (l : list node) : Forall P l :=
            match l with
            | [] => Forall_nil P
            | c :: l' => Forall_cons c (node_induction c) (all l')
            end) cs)
  end.

End NodeInduction.

Lemma map_ext_Forall (A B : Type) (f g : A -> B) (l : list A) :
  Forall (fun x => f x = g x) l -> List.map f l = List.map g l.
Proof. induction 1; cbn; congruence. Qed.

Lemma map_id_Forall (A : Type) (f : A -> A) (l : list A) :
  Forall (fun x => f x = x) l -> List.map f l = l.
Proof. induction 1; cbn; congruence. Qed.

Lemma getAttr_setAttr_same (k v : string) (a : list (string * string)) :
  getAttr k (setAttr k v a) = Some v.
Proof.
  induction a as [|[k' v'] a IH]; cbn.
  - rewrite String.eqb_refl. reflexivity.
  - destruct (String.eqb k' k) eqn:E; cbn; rewrite E; auto.
Qed.

Lemma getAttr_setAttr_other (k k' v : string) (a : list (string * string)) :
  k <> k' -> getAttr k' (setAttr k v a) = getAttr k' a.
Proof.
  intros Hk. induction a as [|[k0 v0] a IH]; cbn.
  - destruct (String.eqb_spec k k'); [contradiction|reflexivity].
  - destruct (String.eqb_spec k0 k) as [E|E]; cbn.
    + subst. destruct (String.eqb_spec k k'); [contradiction|reflexivity].
    + destruct (String.eqb k0 k'); auto.
Qed.

(** Writing the value an attribute already has changes nothing. *)
Lemma setAttr_unchanged (k v : string) (a : list (string * string)) :
  getAttr k a = Some v -> setAttr k v a = a.
Proof.
  induction a as [|[k' v'] a IH]; cbn; [discriminate|].
  destruct (String.eqb k' k) eqn:E.
  - intros H. inversion H. reflexivity.
  - intros H. rewrite IH; auto.
Qed.

(** A pass over the attributes keeps the elements in place. *)
Lemma elements_mapElements (f : string -> list (string * string) -> list (string * string))
      (n : node) :
  elements (mapElements f n) = List.map (mapElements f) (elements n).
Proof.
  induction n as [d|d|nm a cs IH] using node_induction; cbn; try reflexivity.
  f_equal. induction IH as [|c cs Hc _ IHcs]; cbn; [reflexivity|].
  rewrite List.map_app, Hc, IHcs. reflexivity.
Qed.

Lemma elements_are_elements (n e : node) : In e (elements n) -> isElement e = true.
Proof.
  induction n as [d|d|nm a cs IH] using node_induction; cbn; try contradiction.
  intros [<-|Hin]; [reflexivity|].
  apply in_flat_map in Hin. destruct Hin as (c & Hc & He).
  rewrite Forall_forall in IH. eauto.
Qed.

Lemma startsWith_app (p s : string) : startsWith (p ++ s) p = true.
Proof.
  induction p as [|c p IH]; cbn.
  - reflexivity.
  - rewrite Ascii.eqb_refl. exact IH.
Qed.

Lemma endsWith_refl (s : string) : endsWith s s = true.
Proof. destruct s; cbn [endsWith]; rewrite String.eqb_refl; reflexivity. Qed.

Lemma endsWith_app (p s : string) : endsWith (p ++ s) s = true.
Proof.
  induction p as [|c p IH]; cbn [append].
  - apply endsWith_refl.
  - cbn [endsWith]. rewrite IH. apply orb_true_r.
Qed.

(** A string that starts with [pat] is [pat] followed by the rest. *)
Lemma startsWith_split (s pat : string) :
  startsWith s pat = true -> s = pat ++ drop (String.length pat) s.
Proof.
  revert s. induction pat as [|c pat IH]; intros s; cbn.
  - reflexivity.
  - destruct s as [|c' s]; [discriminate|].
    destruct (Ascii.eqb_spec c c') as [->|]; [|discriminate].
    cbn. intros H. f_equal. apply IH. exact H.
Qed.

(** Where [indexOf] finds the pattern, the string is what stands before
    it, the pattern, and what stands after it. *)
Lemma indexOf_split (s pat : string) (i : nat) :
  indexOf s pat = Some i -> s = take i s ++ pat ++ drop (i + String.length pat) s.
Proof.
  revert i. induction s as [|c s IH]; intros i; cbn [indexOf].
  - destruct (startsWith EmptyString pat) eqn:E; [|discriminate].
    intros H. inversion H. cbn. apply (startsWith_split _ _ E).
  - destruct (startsWith (String c s) pat) eqn:E.
    + intros H. inversion H. cbn [take plus append]. apply (startsWith_split _ _ E).
    + destruct (indexOf s pat) as [j|] eqn:Ej; [|discriminate].
      cbn. intros H. inversion H. subst. cbn. f_equal. apply IH. reflexivity.
Qed.

(** A template without a dollar sign stands for itself. *)
Lemma getSubstitution_plain (matched before after tpl : string) :
  includes tpl "$" = false -> getSubstitution matched before after tpl = tpl.
Proof.
  induction tpl as [|c tpl IH]; [reflexivity|].
  unfold includes. cbn [indexOf startsWith].
  destruct (Ascii.eqb_spec "$" c) as [<-|Hc].
  - cbn. discriminate.
  - cbn [getSubstitution andb].
    destruct (Ascii.eqb_spec c "$") as [E2|E2]; [congruence|].
    intros H. f_equal. apply IH. unfold includes.
    destruct (indexOf tpl "$"); [discriminate|reflexivity].
Qed.

(** Replacing a pattern without a dollar sign by itself is no change. *)
Lemma replace_by_itself (s pat : string) :
  includes pat "$" = false -> replace s pat pat = s.
Proof.
  intros H. unfold replace. destruct (indexOf s pat) as [i|] eqn:E; [|reflexivity].
  rewrite (getSubstitution_plain _ _ _ _ H). symmetry. apply indexOf_split. exact E.
Qed.

End DomFacts.

(* ===================================================================== *)
(** * Properties: text substitution *)
(* ===================================================================== *)

Module SubstitutionFacts.

Import Db View DomFacts.

(** ** What the text-node walk leaves alone *)

Lemma walkAndReplace_markup (tr : translation) (n : node) :
  markup (walkAndReplace tr n) = markup n.
Proof.
  induction n as [d|d|nm a cs IH] using node_induction; cbn.
  - destruct (includes d (original_text tr)); reflexivity.
  - reflexivity.
  - f_equal. rewrite List.map_map. apply map_ext_Forall. exact IH.
Qed.

Section Frame.

Variable f : node -> node.
Hypothesis f_markup : forall n, markup (f n) = markup n.

Lemma updateNth_markup (g : node -> node) (i : nat) (l : list node) :
  (forall n, markup (g n) = markup n) ->
  List.map markup (updateNth i g l) = List.map markup l.
Proof.
  intros Hg. revert i. induction l as [|x l IH]; intros i; [destruct i; reflexivity|].
  destruct i; cbn; [rewrite Hg|rewrite IH]; reflexivity.
Qed.

Lemma updateAt_markup (p : position) :
  forall doc, List.map markup (updateAt p f doc) = List.map markup doc.
Proof.
  induction p as [|i p IH]; intros doc; [reflexivity|].
  cbn [updateAt]. destruct p as [|j p].
  - apply updateNth_markup. exact f_markup.
  - apply updateNth_markup. intros [d|d|nm a cs]; try reflexivity.
    cbn [markup]. f_equal. apply IH.
Qed.

End Frame.

Lemma walked_markup (tr : translation) (ps : list position) :
  forall doc,
    List.map markup (fold_left (fun d p => updateAt p (walkAndReplace tr) d) ps doc)
    = List.map markup doc.
Proof.
  induction ps as [|p ps IH]; intros doc; [reflexivity|].
  cbn [fold_left]. rewrite IH. apply updateAt_markup. apply walkAndReplace_markup.
Qed.

Lemma substituteOne_markup (selectAll : string -> document -> completion (list position))
      (tr : translation) (doc doc' : document) :
  substituteOne selectAll tr doc = Normal doc' ->
  List.map markup doc' = List.map markup doc.
Proof.
  unfold substituteOne. destruct (selection selectAll tr doc) as [ps|m]; [|discriminate].
  cbn [Js.bind]. intros E. injection E as <-. apply walked_markup.
Qed.

(** The substitution step of the handlers that walk text nodes changes
    the data of text nodes and nothing else: element names, attributes,
    nesting and comments are those of the fetched document. *)
Lemma substitute_markup (selectAll : string -> document -> completion (list position))
      (translations : list translation) :
  forall doc doc',
    substitute selectAll translations doc = Normal doc' ->
    List.map markup doc' = List.map markup doc.
Proof.
  induction translations as [|tr trs IH]; intros doc doc'; cbn [substitute].
  - intros E. injection E as <-. reflexivity.
  - destruct (substituteOne selectAll tr doc) as [doc1|m] eqn:E1; [|discriminate].
    cbn [Js.bind]. intros E. rewrite (IH _ _ E). apply (substituteOne_markup _ _ _ E1).
Qed.

Lemma elements_markup (n : node) :
  List.map attribsOf (elements (markup n)) = List.map attribsOf (elements n).
Proof.
  induction n as [d|d|nm a cs IH] using node_induction; cbn; try reflexivity.
  f_equal. induction IH as [|c cs Hc _ IHcs]; cbn; [reflexivity|].
  rewrite !List.map_app, Hc, IHcs. reflexivity.
Qed.

Lemma attributes_markup (doc : document) :
  attributes (List.map markup doc) = attributes doc.
Proof.
  unfold attributes. induction doc as [|n doc IH]; cbn; [reflexivity|].
  rewrite !List.map_app, elements_markup, IH. reflexivity.
Qed.

(** In particular no attribute value changes, whatever the recorded
    texts are. *)
Lemma substitute_attributes (selectAll : string -> document -> completion (list position))
      (translations : list translation) (doc doc' : document) :
  substitute selectAll translations doc = Normal doc' ->
  attributes doc' = attributes doc.
Proof.
  intros E. rewrite <- (attributes_markup doc'), (substitute_markup _ _ _ E).
  apply attributes_markup.
Qed.

(** ** A tuple without a translation *)

Definition untranslated (tr : translation) : Prop :=
  translated_text tr = None \/ translated_text tr = Some EmptyString.

Lemma replacement_untranslated (tr : translation) :
  untranslated tr -> replacement tr = original_text tr.
Proof. unfold replacement. intros [H|H]; rewrite H; reflexivity. Qed.

Lemma walkAndReplace_untranslated (tr : translation) (n : node) :
  untranslated tr -> includes (original_text tr) "$" = false ->
  walkAndReplace tr n = n.
Proof.
  intros Hu Hd. induction n as [d|d|nm a cs IH] using node_induction; cbn.
  - rewrite (replacement_untranslated Hu), (replace_by_itself _ _ Hd).
    destruct (includes d (original_text tr)); reflexivity.
  - reflexivity.
  - f_equal. apply map_id_Forall. exact IH.
Qed.

Lemma updateNth_id (g : node -> node) (i : nat) (l : list node) :
  (forall n, g n = n) -> updateNth i g l = l.
Proof.
  intros Hg. revert i. induction l as [|x l IH]; intros i; [destruct i; reflexivity|].
  destruct i; cbn; [rewrite Hg|rewrite IH]; reflexivity.
Qed.

Lemma updateAt_id (g : node -> node) (p : position) :
  (forall n, g n = n) -> forall doc, updateAt p g doc = doc.
Proof.
  intros Hg. induction p as [|i p IH]; intros doc; [reflexivity|].
  cbn [updateAt]. destruct p as [|j p].
  - apply updateNth_id. exact Hg.
  - apply updateNth_id. intros [d|d|nm a cs]; try reflexivity. f_equal. apply IH.
Qed.

Lemma walked_id (tr : translation) (ps : list position) (doc : document) :
  (forall n, walkAndReplace tr n = n) ->
  fold_left (fun d p => updateAt p (walkAndReplace tr) d) ps doc = doc.
Proof.
  intros H. induction ps as [|p ps IH]; [reflexivity|].
  cbn [fold_left]. rewrite updateAt_id; [exact IH|exact H].
Qed.

(** A tuple whose translation is absent leaves the document as it is
    when its selector is read, provided its text holds no dollar sign. *)
Lemma substituteOne_untranslated (selectAll : string -> document -> completion (list position))
      (tr : translation) (doc : document) :
  untranslated tr -> includes (original_text tr) "$" = false ->
  substituteOne selectAll tr doc = Normal doc
  \/ (plain tr = false /\ exists m, substituteOne selectAll tr doc = Throw m).
Proof.
  intros Hu Hd. unfold substituteOne, selection.
  destruct (plain tr); [left|destruct (selectAll (selectorOf tr) doc) as [ps|m]; [left|right]].
  - cbn [Js.bind]. f_equal. apply walked_id. intros n.
    apply walkAndReplace_untranslated; assumption.
  - cbn [Js.bind]. f_equal. apply walked_id. intros n.
    apply walkAndReplace_untranslated; assumption.
  - split; [reflexivity|]. exists m. reflexivity.
Qed.

(** ** The scenarios *)

Definition helloWorld : document := [Element "p" [] [Text "Hello world"]].

Definition helloHola : translation := mkTranslation 1 1 "Hello" (Some "Hola") "es" "/" "p".

(** The translated fragment of the scenario: only the recorded text is
    replaced, what follows it in the text node stays. *)
Lemma substitute_hello_world (selectAll : string -> document -> completion (list position)) :
  substitute selectAll [helloHola] helloWorld = Normal [Element "p" [] [Text "Hola world"]].
Proof. reflexivity. Qed.

(** A page with a price tag, and the fragment that [POST
    /api/fetch-website] stores for it: no translation yet, language
    [en]. *)
Definition priceTag : document := [Element "p" [] [Text "Pay $$$ now"]].

Definition priceTagFragment : translation :=
  mkTranslation 1 1 "Pay $$$ now" None "en" "/" "p".

(** C6, where the code departs from it. The scenario holds; but a tuple without a
    translation is replaced by its own text read as a replacement
    template, in which [$$] stands for one dollar sign, so the text node
    [Pay $$$ now] becomes [Pay $$ now]. *)
Theorem C6_untranslated_text_with_dollars_is_changed :
  forall selectAll : string -> document -> completion (list position),
    substitute selectAll [helloHola] helloWorld = Normal [Element "p" [] [Text "Hola world"]]
    /\ translated_text priceTagFragment = None
    /\ substitute selectAll [priceTagFragment] priceTag
       = Normal [Element "p" [] [Text "Pay $$ now"]].
Proof. intros selectAll. repeat split. Qed.

End SubstitutionFacts.

(* ===================================================================== *)
(** * Properties: the view endpoints *)
(* ===================================================================== *)

Module ViewFacts.

Import Db View DomFacts.

(** ** An unknown domain *)

Section UnknownDomain.

Variable newURL : Url.parser.
Variable fetch : string -> completion document.
Variable db : Db.t.
Variable selectAll : string -> document -> completion (list position).
Variable domain : string.
Hypothesis unknown : findWebsite db domain = None.

Definition notFound : outcome := mkOutcome (mkResponse 404 (Message "Website not found")) [].

(** The root view, the sub-path view of the earlier revision and
    [serveTranslatedWebsite] answer 404 and make no upstream request. *)
Lemma viewRoot_unknown_domain (again : bool) (lang : option string) :
  viewRootWith newURL fetch db selectAll again domain lang = notFound.
Proof. unfold viewRootWith. rewrite unknown. reflexivity. Qed.

Lemma viewPath_rev0_unknown_domain (rest : string) (lang : option string) :
  viewPath_rev0 newURL fetch db selectAll domain rest lang = notFound.
Proof. unfold viewPath_rev0. rewrite unknown. reflexivity. Qed.

Lemma serveTranslatedWebsite_unknown_domain
      (wrapBody appendWrapperStyle : document -> document)
      (prependMeta : string -> document -> document) (path lang : string) :
  serveTranslatedWebsite newURL fetch db selectAll wrapBody appendWrapperStyle prependMeta
                         domain path lang
  = notFound.
Proof. unfold serveTranslatedWebsite. rewrite unknown. reflexivity. Qed.

(** The sub-path view of [server/index.js] makes no upstream request
    either, but what it answers is the 500 of its [catch]. *)
Lemma viewPath_unknown_domain (parseHtml : string -> list node) (rest : string)
      (lang : option string) :
  viewPath fetch db parseHtml domain rest lang
  = mkOutcome (mkResponse 500 (Message ("Error: Website not found: " ++ domain))) [].
Proof. unfold viewPath. rewrite unknown. reflexivity. Qed.

End UnknownDomain.

(** C3, where the code departs from it: [GET /view/unknown.example/about] with no
    row for the domain. No upstream request is made, but the status is
    500, not 404. *)
Theorem C3_subpath_view_answers_500_for_unknown_domain :
  forall (fetch : string -> completion document) (parseHtml : string -> list node),
    viewPath fetch (mkDb [] []) parseHtml "unknown.example" "about" None
    = mkOutcome (mkResponse 500 (Message "Error: Website not found: unknown.example")) [].
Proof. reflexivity. Qed.

(** ** Substitution through the inner markup *)

Definition exampleSite : list website := [mkWebsite 1 "example.com"].

(** A paragraph whose link has a title equal to its text. *)
Definition titledLink : document :=
  [Element "p" [] [Element "a" [("title", "Hi")] [Text "Hi"]]].

Definition hiHola : Db.t :=
  mkDb exampleSite [mkTranslation 1 1 "Hi" (Some "Hola") "es" "/page" "a"].

(** A paragraph with a script in it. *)
Definition greeting : document :=
  [Element "p" [] [Text "Hello"; Element "script" [] [Text "var greeting = 'Hello';"]]].

Definition helloHolaDb : Db.t :=
  mkDb exampleSite [mkTranslation 1 1 "Hello" (Some "Hola") "es" "/" "p";
                    mkTranslation 2 1 "Hello" (Some "Hola") "es" "/page" "p"].

(** C2, where the code departs from it, at [GET
    /view/example.com/page?lang=es]. The sub-path view of
    [server/index.js] replaces the first occurrence of the text in the
    printed inner markup of the element: here that occurrence is the
    value of the [title] attribute, which becomes [Hola] while the text
    of the link stays [Hi]. And the handlers that walk text nodes (the
    earlier sub-path view at the same request, the root view at [GET
    /view/example.com?lang=es]) reach the text node of a script inside a
    selected element and rewrite the script. *)
Theorem C2_substitution_reaches_attributes_and_scripts :
  (forall parseHtml : string -> list node,
      viewPath (fun _ => Normal titledLink) hiHola parseHtml "example.com" "page" (Some "es")
      = mkOutcome
          (mkResponse 200
             (Page [Element "p" []
                      (parseHtml ("<a title=" ++ dquote ++ "Hola" ++ dquote ++ ">Hi</a>"))]))
          ["https://example.com/page"])
  /\ innerHtml (Element "p" [] [Element "a" [("title", "Hi")] [Text "Hi"]])
     = "<a title=" ++ dquote ++ "Hi" ++ dquote ++ ">Hi</a>"
  /\ (forall selectAll : string -> document -> completion (list position),
        viewPath_rev0 Url.simple (fun _ => Normal greeting) helloHolaDb selectAll
                      "example.com" "page" (Some "es")
        = mkOutcome
            (mkResponse 200
               (Page [Element "p" []
                        [Text "Hola"; Element "script" [] [Text "var greeting = 'Hola';"]]]))
            ["https://example.com/page"])
  /\ (forall selectAll : string -> document -> completion (list position),
        viewRoot Url.simple (fun _ => Normal greeting) helloHolaDb selectAll
                 "example.com" (Some "es")
        = mkOutcome
            (mkResponse 200
               (Page [Element "p" []
                        [Text "Hola"; Element "script" [] [Text "var greeting = 'Hola';"]]]))
            ["https://example.com"]).
Proof. repeat split. Qed.

(** ** The default language *)

(** The database without the rows of other languages. *)
Definition onlyLanguage (lang : string) (d : Db.t) : Db.t :=
  mkDb (websites d) (filter (fun r => String.eqb (language r) lang) (translations d)).

Lemma filter_filter_implied (A : Type) (p q : A -> bool) (l : list A) :
  (forall x, p x = true -> q x = true) -> filter p (filter q l) = filter p l.
Proof.
  intros H. induction l as [|x l IH]; cbn; [reflexivity|].
  destruct (q x) eqn:Eq; cbn; [rewrite IH; reflexivity|].
  destruct (p x) eqn:Ep; [rewrite (H x Ep) in Eq; discriminate|exact IH].
Qed.

Lemma find_filter_implied (A : Type) (p q : A -> bool) (l : list A) :
  (forall x, p x = true -> q x = true) -> find p (filter q l) = find p l.
Proof.
  intros H. induction l as [|x l IH]; cbn; [reflexivity|].
  destruct (q x) eqn:Eq; cbn; [rewrite IH; reflexivity|].
  destruct (p x) eqn:Ep; [rewrite (H x Ep) in Eq; discriminate|exact IH].
Qed.

Section OnlyLanguage.

Variable lang : string.
Variable d : Db.t.

Lemma getTranslations_onlyLanguage (websiteId : nat) (path : string) :
  getTranslations (onlyLanguage lang d) websiteId path lang = getTranslations d websiteId path lang.
Proof.
  unfold getTranslations, onlyLanguage; cbn. apply filter_filter_implied.
  intros r H. apply andb_prop in H. tauto.
Qed.

Lemma getTranslation_onlyLanguage (domain originalText : string) :
  getTranslation (onlyLanguage lang d) domain originalText lang
  = getTranslation d domain originalText lang.
Proof.
  unfold getTranslation, onlyLanguage; cbn. apply find_filter_implied.
  intros r H. apply andb_prop in H. tauto.
Qed.

Lemma translationFor_onlyLanguage (domain originalText : string) :
  translationFor (onlyLanguage lang d) domain originalText lang
  = translationFor d domain originalText lang.
Proof. unfold translationFor. rewrite getTranslation_onlyLanguage. reflexivity. Qed.

Lemma retranslate_onlyLanguage (domain : string) (n : node) :
  retranslate (onlyLanguage lang d) domain lang n = retranslate d domain lang n.
Proof.
  induction n as [t|t|nm a cs IH] using node_induction; try reflexivity.
  cbn [retranslate]. rewrite translationFor_onlyLanguage.
  rewrite (map_ext_Forall _ _ IH). reflexivity.
Qed.

Lemma translateMarkup_onlyLanguage (parseHtml : string -> list node) (domain : string) (n : node) :
  translateMarkup (onlyLanguage lang d) parseHtml domain lang n
  = translateMarkup d parseHtml domain lang n.
Proof.
  induction n as [t|t|nm a cs IH] using node_induction; try reflexivity.
  cbn [translateMarkup]. rewrite translationFor_onlyLanguage.
  rewrite (map_ext_Forall _ _ IH). reflexivity.
Qed.

End OnlyLanguage.

(** What the link pass does to one element: nothing, or it is an anchor
    and its [href] now is a proxy route that ends in the language. *)
Lemma rewriteLink_cases (newURL : Url.parser) (skipFragments : bool) (domain lang nm : string)
      (a : list (string * string)) :
  rewriteLink newURL skipFragments domain lang nm a = a
  \/ (nm = "a"
      /\ exists u, getAttr "href" (rewriteLink newURL skipFragments domain lang nm a)
                   = Some ("/view/" ++ domain ++ pathname u ++ search u ++ "?lang=" ++ lang)).
Proof.
  unfold rewriteLink.
  destruct (String.eqb_spec nm "a") as [->|]; [|left; reflexivity].
  destruct (getAttr "href" a) as [href|]; [|left; reflexivity].
  destruct (truthy href && negb (skipFragments && startsWith href "#")); [|left; reflexivity].
  destruct (newURL href (Some ("https://" ++ domain))) as [u|]; [|left; reflexivity].
  destruct (String.eqb (hostname u) domain); [|left; reflexivity].
  right. split; [reflexivity|]. exists u. apply getAttr_setAttr_same.
Qed.

(** An internal link is rewritten: an anchor whose [href] resolves to
    the site's hostname gets the proxy route for it. *)
Lemma rewriteLink_internal (newURL : Url.parser) (domain lang href : string)
      (a : list (string * string)) (u : URL) :
  getAttr "href" a = Some href -> truthy href = true ->
  newURL href (Some ("https://" ++ domain)) = Some u -> hostname u = domain ->
  getAttr "href" (rewriteLink newURL false domain lang "a" a) = Some (proxyHref domain u lang).
Proof.
  intros Ha Ht Hu Hh. unfold rewriteLink.
  rewrite String.eqb_refl, Ha, Ht. cbn [andb negb]. rewrite Hu, Hh, String.eqb_refl.
  apply getAttr_setAttr_same.
Qed.

Lemma elements_rewriteLinks (newURL : Url.parser) (skipFragments : bool) (domain lang : string)
      (doc : document) :
  flat_map elements (rewriteLinks newURL skipFragments domain lang doc)
  = List.map (mapElements (rewriteLink newURL skipFragments domain lang)) (flat_map elements doc).
Proof.
  unfold rewriteLinks. induction doc as [|n doc IH]; cbn; [reflexivity|].
  rewrite List.map_app, elements_mapElements, IH. reflexivity.
Qed.

(** How an element after the link pass relates to the element before. *)
Definition linkedTo (domain lang : string) (e e' : node) : Prop :=
  nameOf e' = nameOf e
  /\ (attribsOf e' = attribsOf e
      \/ (nameOf e = "a"
          /\ exists u, attr "href" e'
                       = Some ("/view/" ++ domain ++ pathname u ++ search u ++ "?lang=" ++ lang))).

Lemma rewriteLinks_linkedTo (newURL : Url.parser) (skipFragments : bool) (domain lang : string)
      (doc : document) :
  Forall2 (linkedTo domain lang)
          (flat_map elements doc)
          (flat_map elements (rewriteLinks newURL skipFragments domain lang doc)).
Proof.
  rewrite elements_rewriteLinks.
  assert (H : Forall (fun e => isElement e = true) (flat_map elements doc)).
  { apply Forall_forall. intros e He. apply in_flat_map in He.
    destruct He as (n & _ & He). eapply elements_are_elements; eauto. }
  induction H as [|e l He _ IH]; cbn; constructor; auto.
  destruct e as [t|t|nm a cs]; try discriminate.
  unfold linkedTo, attr. cbn. split; [reflexivity|].
  apply rewriteLink_cases.
Qed.

(** A parser for the content of an element that holds no markup. *)
Definition plainTextParser : string -> list node := fun markup => [Text markup].

Definition aboutLink : document := [Element "a" [("href", "/about")] [Text "About"]].

(** C10, where it does not hold as stated: [GET /view/example.com/page]
    without [lang]. The sub-path view of [server/index.js] has no link
    pass: it drops the leading slash of an [href] and leaves the link to
    the [base] element it puts in the head. The link of the response
    names no language. *)
Lemma C10_subpath_view_links_carry_no_language :
  viewPath (fun _ => Normal aboutLink) (mkDb exampleSite []) plainTextParser
           "example.com" "page" None
  = mkOutcome (mkResponse 200 (Page [Element "a" [("href", "about")] [Text "About"]]))
              ["https://example.com/page"]
  /\ endsWith "about" "?lang=en" = false.
Proof. split; reflexivity. Qed.

(** A request without [lang] looks translations up in [en]: the response
    of each handler is the one for the database without the rows of
    other languages. *)
Lemma default_language_lookup
      (newURL : Url.parser) (fetch : string -> completion document) (db : Db.t)
      (selectAll : string -> document -> completion (list position))
      (parseHtml : string -> list node) (domain rest : string) (again : bool) :
  viewRootWith newURL fetch db selectAll again domain None
  = viewRootWith newURL fetch (onlyLanguage "en" db) selectAll again domain None
  /\ viewPath_rev0 newURL fetch db selectAll domain rest None
     = viewPath_rev0 newURL fetch (onlyLanguage "en" db) selectAll domain rest None
  /\ viewPath fetch db parseHtml domain rest None
     = viewPath fetch (onlyLanguage "en" db) parseHtml domain rest None.
Proof.
  split; [|split].
  - unfold viewRootWith. change (languageOf None) with "en".
    change (findWebsite (onlyLanguage "en" db) domain) with (findWebsite db domain).
    destruct (findWebsite db domain) as [w|]; [|reflexivity].
    rewrite getTranslations_onlyLanguage.
    destruct (fetch ("https://" ++ domain)) as [doc|m]; [|reflexivity].
    cbn [Js.bind].
    destruct (substitute selectAll _ doc) as [doc1|m]; [|reflexivity].
    cbn [Js.bind].
    destruct (fixAssetPaths newURL domain _) as [doc'|m]; [|reflexivity].
    destruct again; [|reflexivity].
    cbn [Js.bind].
    rewrite (List.map_ext _ _ (retranslate_onlyLanguage "en" db domain)). reflexivity.
  - unfold viewPath_rev0. change (languageOf None) with "en".
    change (findWebsite (onlyLanguage "en" db) domain) with (findWebsite db domain).
    destruct (findWebsite db domain) as [w|]; [|reflexivity].
    rewrite getTranslations_onlyLanguage. reflexivity.
  - unfold viewPath. change (languageOf None) with "en".
    change (findWebsite (onlyLanguage "en" db) domain) with (findWebsite db domain).
    destruct (findWebsite db domain) as [w|]; [|reflexivity].
    destruct (fetch _) as [doc|m]; [|reflexivity].
    rewrite (List.map_ext _ _ (translateMarkup_onlyLanguage "en" db parseHtml domain)). reflexivity.
Qed.

End ViewFacts.

(* ===================================================================== *)
(** * Properties: the asset passes *)
(* ===================================================================== *)

Module AssetFacts.

Import View DomFacts.

(** Every attribute value of the document. *)
Definition values (doc : document) : list string :=
  flat_map (fun e => List.map snd (attribsOf e)) (flat_map elements doc).

Section Passes.

Variable newURL : Url.parser.
Variable baseUrl : string.

(** A reference settles when the URL it resolves to prints as a text
    that is not empty and that starts with [http] or resolves to the
    same print again. The platform's URL class prints every URL so. *)
Definition settles (v : string) : bool :=
  match newURL v (Some baseUrl) with
  | None => true
  | Some u =>
      truthy (href u)
      && (startsWith (href u) "http"
          || match newURL (href u) (Some baseUrl) with
             | Some u' => String.eqb (href u') (href u)
             | None => false
             end)
  end.

(** A value the pass of [serveTranslatedWebsite] leaves as it is. *)
Definition atRest (v : string) : bool :=
  negb (truthy v) || startsWith v "http" || startsWith v "data:"
  || match newURL v (Some baseUrl) with
     | None => true
     | Some u => String.eqb (href u) v
     end.

Lemma getAttr_In (k v : string) (a : list (string * string)) :
  getAttr k a = Some v -> In v (List.map snd a).
Proof.
  induction a as [|[k' v'] a IH]; cbn; [discriminate|].
  destruct (String.eqb k' k); [intros H; inversion H; auto|auto].
Qed.

Lemma fixAttribute_other (a : list (string * string)) (k k' : string) :
  k <> k' -> getAttr k' (fixAttribute newURL baseUrl a k) = getAttr k' a.
Proof.
  intros Hk. unfold fixAttribute.
  destruct (getAttr k a) as [v|]; [|reflexivity].
  destruct (truthy v && negb (startsWith v "http") && negb (startsWith v "data:")); [|reflexivity].
  destruct (newURL v (Some baseUrl)); [|reflexivity].
  apply getAttr_setAttr_other. exact Hk.
Qed.

Lemma fixAttribute_atRest (a : list (string * string)) (k : string) :
  (forall v, getAttr k a = Some v -> atRest v = true) ->
  fixAttribute newURL baseUrl a k = a.
Proof.
  intros H. unfold fixAttribute. destruct (getAttr k a) as [v|] eqn:Ea; [|reflexivity].
  specialize (H v eq_refl). unfold atRest in H.
  destruct (truthy v); [|reflexivity].
  destruct (startsWith v "http"); [reflexivity|].
  destruct (startsWith v "data:"); [reflexivity|].
  cbn in H |- *. destruct (newURL v (Some baseUrl)) as [u|]; [|reflexivity].
  apply String.eqb_eq in H. rewrite H. apply setAttr_unchanged. exact Ea.
Qed.

Lemma fixAttribute_result_atRest (a : list (string * string)) (k : string) :
  (forall v, getAttr k a = Some v -> settles v = true) ->
  forall v', getAttr k (fixAttribute newURL baseUrl a k) = Some v' -> atRest v' = true.
Proof.
  intros H v'. unfold fixAttribute. destruct (getAttr k a) as [v|] eqn:Ea; [|congruence].
  specialize (H v eq_refl). unfold settles in H. unfold atRest.
  destruct (truthy v) eqn:Et; cbn [andb].
  - destruct (startsWith v "http") eqn:Eh; cbn [andb negb].
    + rewrite Ea. intros E; inversion E; subst. rewrite Et, Eh. reflexivity.
    + destruct (startsWith v "data:") eqn:Ed; cbn [andb negb].
      * rewrite Ea. intros E; inversion E; subst. rewrite Et, Eh, Ed. reflexivity.
      * destruct (newURL v (Some baseUrl)) as [u|] eqn:Eu.
        -- rewrite getAttr_setAttr_same. intros E; inversion E; subst.
           apply andb_prop in H. destruct H as [H1 H2]. rewrite H1. cbn [negb orb].
           destruct (startsWith (href u) "http"); [reflexivity|].
           destruct (startsWith (href u) "data:"); [reflexivity|].
           cbn in H2 |- *. destruct (newURL (href u) (Some baseUrl)); [exact H2|discriminate].
        -- rewrite Ea. intros E; inversion E; subst. rewrite Et, Eh, Ed, Eu. reflexivity.
  - rewrite Ea. intros E; inversion E; subst. rewrite Et. reflexivity.
Qed.

(** On one element the pass of [serveTranslatedWebsite] has nothing left
    to do after it ran once. *)
Lemma fixAsset_idempotent (nm : string) (a : list (string * string)) :
  (forall v, In v (List.map snd a) -> settles v = true) ->
  fixAsset newURL baseUrl nm (fixAsset newURL baseUrl nm a) = fixAsset newURL baseUrl nm a.
Proof.
  intros H. unfold fixAsset.
  destruct (isOneOf ["img"; "script"; "link"; "source"; "video"; "audio"] nm); [|reflexivity].
  cbn [fold_left].
  set (a1 := fixAttribute newURL baseUrl a "src").
  set (a2 := fixAttribute newURL baseUrl a1 "href").
  set (a3 := fixAttribute newURL baseUrl a2 "poster").
  assert (R1 : forall v, getAttr "src" a3 = Some v -> atRest v = true).
  { intros v. unfold a3, a2. rewrite !fixAttribute_other by discriminate.
    apply fixAttribute_result_atRest. intros v0 Hv0. apply H. eapply getAttr_In; eauto. }
  assert (R2 : forall v, getAttr "href" a3 = Some v -> atRest v = true).
  { intros v. unfold a3. rewrite fixAttribute_other by discriminate.
    apply fixAttribute_result_atRest. intros v0. unfold a1.
    rewrite fixAttribute_other by discriminate. intros Hv0. apply H. eapply getAttr_In; eauto. }
  assert (R3 : forall v, getAttr "poster" a3 = Some v -> atRest v = true).
  { intros v. apply fixAttribute_result_atRest. intros v0. unfold a2, a1.
    rewrite !fixAttribute_other by discriminate. intros Hv0. apply H. eapply getAttr_In; eauto. }
  rewrite (@fixAttribute_atRest a3 "src" R1), (@fixAttribute_atRest a3 "href" R2),
    (@fixAttribute_atRest a3 "poster" R3).
  reflexivity.
Qed.

Lemma mapElements_idempotent (f : string -> list (string * string) -> list (string * string))
      (n : node) :
  (forall e, In e (elements n) ->
             f (nameOf e) (f (nameOf e) (attribsOf e)) = f (nameOf e) (attribsOf e)) ->
  mapElements f (mapElements f n) = mapElements f n.
Proof.
  induction n as [d|d|nm a cs IH] using node_induction; intros H; try reflexivity.
  cbn [mapElements].
  assert (Ha : f nm (f nm a) = f nm a) by (apply (H (Element nm a cs)); left; reflexivity).
  rewrite Ha. f_equal. rewrite List.map_map. apply map_ext_Forall.
  rewrite Forall_forall in IH |- *. intros c Hc. apply IH; [exact Hc|].
  intros e He. apply H. right. apply in_flat_map. eauto.
Qed.

Lemma values_of_element (doc : document) (n e : node) (v : string) :
  In n doc -> In e (elements n) -> In v (List.map snd (attribsOf e)) -> In v (values doc).
Proof.
  intros Hn He Hv. unfold values. apply in_flat_map. exists e. split; [|exact Hv].
  apply in_flat_map. eauto.
Qed.

Lemma fixAssets_idempotent (doc : document) :
  forallb settles (values doc) = true ->
  fixAssets newURL baseUrl (fixAssets newURL baseUrl doc) = fixAssets newURL baseUrl doc.
Proof.
  intros H. rewrite forallb_forall in H. unfold fixAssets. rewrite List.map_map.
  apply List.map_ext_in. intros n Hn. apply mapElements_idempotent.
  intros e He. apply fixAsset_idempotent. intros v Hv. apply H.
  eapply values_of_element; eauto.
Qed.

End Passes.

(** ** The pass of the inline handlers *)

Section InlinePass.

Variable newURL : Url.parser.
Variable domain : string.

Let base : string := "https://" ++ domain.

(** The attribute the pass reads and writes: [src] when it holds a text,
    [href] otherwise. *)
Definition referenceKey (a : list (string * string)) : string :=
  match getAttr "src" a with
  | Some s => if truthy s then "src" else "href"
  | None => "href"
  end.

Lemma fixAssetPath_by_key (nm : string) (a : list (string * string)) :
  fixAssetPath newURL domain nm a
  = if isOneOf ["img"; "script"; "link"] nm then
      match getAttr (referenceKey a) a with
      | None => Normal a
      | Some s =>
          if truthy s && negb (startsWith s "http") then
            match newURL s (Some base) with
            | None => Throw "Invalid URL"
            | Some u => Normal (setAttr (referenceKey a) (href u) a)
            end
          else Normal a
      end
    else Normal a.
Proof.
  unfold fixAssetPath, referenceKey, base.
  destruct (isOneOf ["img"; "script"; "link"] nm); [|reflexivity].
  destruct (getAttr "src" a) as [s|] eqn:Esrc; [destruct (truthy s) eqn:Ets|].
  - rewrite Esrc. reflexivity.
  - destruct (getAttr "href" a) as [h|]; reflexivity.
  - destruct (getAttr "href" a) as [h|]; reflexivity.
Qed.

Lemma referenceKey_kept (a : list (string * string)) (v : string) :
  truthy v = true -> referenceKey (setAttr (referenceKey a) v a) = referenceKey a.
Proof.
  intros Hv. unfold referenceKey at 2 3.
  destruct (getAttr "src" a) as [s|] eqn:Esrc; [destruct (truthy s) eqn:Ets|].
  - unfold referenceKey. rewrite getAttr_setAttr_same, Hv. reflexivity.
  - unfold referenceKey. rewrite getAttr_setAttr_other by discriminate.
    rewrite Esrc, Ets. reflexivity.
  - unfold referenceKey. rewrite getAttr_setAttr_other by discriminate.
    rewrite Esrc. reflexivity.
Qed.

Lemma fixAssetPath_settled (nm : string) (a a' : list (string * string)) :
  (forall v, In v (List.map snd a) -> settles newURL base v = true) ->
  fixAssetPath newURL domain nm a = Normal a' ->
  fixAssetPath newURL domain nm a' = Normal a'.
Proof.
  intros Hs. rewrite !fixAssetPath_by_key.
  destruct (isOneOf ["img"; "script"; "link"] nm); [|intros E; reflexivity].
  destruct (getAttr (referenceKey a) a) as [s|] eqn:Ek.
  - destruct (truthy s && negb (startsWith s "http")) eqn:Eg.
    + destruct (newURL s (Some base)) as [u|] eqn:Eu; [|discriminate].
      intros E; injection E as <-.
      specialize (Hs s (getAttr_In _ _ Ek)). unfold settles in Hs. rewrite Eu in Hs.
      apply andb_prop in Hs. destruct Hs as [Kt Kr].
      rewrite (referenceKey_kept _ _ Kt), getAttr_setAttr_same, Kt. cbn [andb].
      destruct (startsWith (href u) "http"); [reflexivity|]. cbn [negb orb] in Kr |- *.
      destruct (newURL (href u) (Some base)) as [u'|]; [|discriminate].
      apply String.eqb_eq in Kr. rewrite Kr. f_equal.
      apply setAttr_unchanged. apply getAttr_setAttr_same.
    + intros E; injection E as <-. rewrite Ek, Eg. reflexivity.
  - intros E; injection E as <-. rewrite Ek. reflexivity.
Qed.

(** Statements run on the children of an element are the statements run
    on a list of nodes. *)
Lemma mapElementsM_element (f : string -> list (string * string) -> completion (list (string * string)))
      (nm : string) (a : list (string * string)) (cs : list node) :
  mapElementsM f (Element nm a cs)
  = (a' <- f nm a ;; cs' <- eachM (mapElementsM f) cs ;; Normal (Element nm a' cs')).
Proof.
  cbn [mapElementsM]. destruct (f nm a) as [a'|m]; [|reflexivity]. cbn [Js.bind].
  match goal with |- Js.bind ?x _ = Js.bind ?y _ => assert (E : x = y) end.
  { induction cs as [|c cs IH]; [reflexivity|]. cbn [eachM]. rewrite IH. reflexivity. }
  rewrite E. reflexivity.
Qed.

Lemma mapElementsM_settled (f : string -> list (string * string) -> completion (list (string * string)))
      (n : node) :
  (forall e a', In e (elements n) -> f (nameOf e) (attribsOf e) = Normal a' ->
                f (nameOf e) a' = Normal a') ->
  forall n', mapElementsM f n = Normal n' -> mapElementsM f n' = Normal n'.
Proof.
  induction n as [d|d|nm a cs IH] using node_induction; intros H n'.
  - cbn. intros E; injection E as <-. reflexivity.
  - cbn. intros E; injection E as <-. reflexivity.
  - rewrite mapElementsM_element.
    destruct (f nm a) as [a'|m] eqn:Ea; [|discriminate]. cbn [Js.bind].
    destruct (eachM (mapElementsM f) cs) as [cs'|m] eqn:Ecs; [|discriminate]. cbn [Js.bind].
    intros E; injection E as <-. rewrite mapElementsM_element.
    assert (Ha' : f nm a' = Normal a') by (apply (H (Element nm a cs) a' (or_introl eq_refl) Ea)).
    rewrite Ha'. cbn [Js.bind].
    assert (Hcs : eachM (mapElementsM f) cs' = Normal cs').
    { assert (H' : forall c, In c cs ->
                     forall e a0, In e (elements c) -> f (nameOf e) (attribsOf e) = Normal a0 ->
                                  f (nameOf e) a0 = Normal a0).
      { intros c Hc e a0 He. apply H. right. apply in_flat_map. eauto. }
      clear H Ea. revert cs' Ecs.
      induction IH as [|c cs Hc _ IHcs]; intros cs' Ecs.
      - cbn in Ecs. injection Ecs as <-. reflexivity.
      - cbn [eachM] in Ecs.
        destruct (mapElementsM f c) as [c'|m] eqn:Ec; [|discriminate]. cbn [Js.bind] in Ecs.
        destruct (eachM (mapElementsM f) cs) as [cs0|m] eqn:Ecs0; [|discriminate].
        cbn [Js.bind] in Ecs. injection Ecs as <-. cbn [eachM].
        rewrite (Hc (H' c (or_introl eq_refl)) c' eq_refl). cbn [Js.bind].
        rewrite (IHcs (fun c0 Hc0 => H' c0 (or_intror Hc0)) cs0 eq_refl). reflexivity. }
    rewrite Hcs. reflexivity.
Qed.

Lemma fixAssetPaths_settled (doc doc' : document) :
  forallb (settles newURL base) (values doc) = true ->
  fixAssetPaths newURL domain doc = Normal doc' ->
  fixAssetPaths newURL domain doc' = Normal doc'.
Proof.
  intros H. rewrite forallb_forall in H. unfold fixAssetPaths.
  assert (H' : forall n, In n doc ->
                 forall n', mapElementsM (fixAssetPath newURL domain) n = Normal n' ->
                            mapElementsM (fixAssetPath newURL domain) n' = Normal n').
  { intros n Hn. apply mapElementsM_settled. intros e a' He. apply fixAssetPath_settled.
    intros v Hv. apply H. eapply values_of_element; eauto. }
  clear H. revert doc' H'. induction doc as [|n doc IH]; intros doc' H' E.
  - cbn in E. injection E as <-. reflexivity.
  - cbn [eachM] in E.
    destruct (mapElementsM (fixAssetPath newURL domain) n) as [n'|m] eqn:En; [|discriminate].
    cbn [Js.bind] in E.
    destruct (eachM (mapElementsM (fixAssetPath newURL domain)) doc) as [doc0|m] eqn:Ed;
      [|discriminate].
    cbn [Js.bind] in E. injection E as <-. cbn [eachM].
    rewrite (H' n (or_introl eq_refl) n' En). cbn [Js.bind].
    rewrite (IH doc0 (fun n0 Hn0 => H' n0 (or_intror Hn0)) eq_refl). reflexivity.
Qed.

End InlinePass.

(** ** The slash-stripping passes of the sub-path view *)

Lemma stripSlash_settled (v : string) :
  startsWith v "//" = false -> stripSlash (stripSlash v) = stripSlash v.
Proof.
  unfold stripSlash. destruct v as [|c v]; [reflexivity|].
  cbn [startsWith]. destruct (Ascii.eqb_spec "/" c) as [<-|Hc]; cbn [andb drop]; [|intros _].
  - destruct v as [|d v]; [reflexivity|]. cbn [startsWith].
    destruct (Ascii.eqb_spec "/" d) as [<-|Hd]; cbn [andb]; [discriminate|reflexivity].
  - cbn [startsWith]. destruct (Ascii.eqb_spec "/" c); [contradiction|reflexivity].
Qed.

(** These need no assumption: what is left after the leading slash is
    dropped is skipped or has no leading slash. *)
Lemma stripHref_idempotent (nm : string) (a : list (string * string)) :
  stripHref nm (stripHref nm a) = stripHref nm a.
Proof.
  unfold stripHref at 2 3. destruct (getAttr "href" a) as [h|] eqn:Ea; [|unfold stripHref; rewrite Ea; reflexivity].
  destruct (truthy h && negb (startsWith h "http") && negb (startsWith h "//")
            && negb (startsWith h "mailto:") && negb (startsWith h "#")) eqn:Eg;
    [|unfold stripHref; rewrite Ea, Eg; reflexivity].
  unfold stripHref. rewrite getAttr_setAttr_same.
  destruct (truthy (stripSlash h) && negb (startsWith (stripSlash h) "http")
            && negb (startsWith (stripSlash h) "//")
            && negb (startsWith (stripSlash h) "mailto:")
            && negb (startsWith (stripSlash h) "#")); [|reflexivity].
  rewrite stripSlash_settled.
  - apply setAttr_unchanged. apply getAttr_setAttr_same.
  - destruct (startsWith h "//"); [|reflexivity].
    rewrite andb_false_r in Eg. cbn in Eg. discriminate.
Qed.

Lemma stripSrc_idempotent (nm : string) (a : list (string * string)) :
  stripSrc nm (stripSrc nm a) = stripSrc nm a.
Proof.
  unfold stripSrc at 2 3. destruct (getAttr "src" a) as [h|] eqn:Ea; [|unfold stripSrc; rewrite Ea; reflexivity].
  destruct (truthy h && negb (startsWith h "http") && negb (startsWith h "//")) eqn:Eg;
    [|unfold stripSrc; rewrite Ea, Eg; reflexivity].
  unfold stripSrc. rewrite getAttr_setAttr_same.
  destruct (truthy (stripSlash h) && negb (startsWith (stripSlash h) "http")
            && negb (startsWith (stripSlash h) "//")); [|reflexivity].
  rewrite stripSlash_settled.
  - apply setAttr_unchanged. apply getAttr_setAttr_same.
  - destruct (startsWith h "//"); [|reflexivity].
    rewrite andb_false_r in Eg. discriminate.
Qed.

(** ** What passes through *)

Section PassThrough.

Variable newURL : Url.parser.

Lemma fixAttribute_http (baseUrl k rest : string) (a : list (string * string)) :
  fixAttribute newURL baseUrl (setAttr k ("http" ++ rest) a) k = setAttr k ("http" ++ rest) a.
Proof.
  unfold fixAttribute. rewrite getAttr_setAttr_same, (startsWith_app "http" rest).
  rewrite andb_false_r. reflexivity.
Qed.

Lemma fixAttribute_data (baseUrl k rest : string) (a : list (string * string)) :
  fixAttribute newURL baseUrl (setAttr k ("data:" ++ rest) a) k = setAttr k ("data:" ++ rest) a.
Proof.
  unfold fixAttribute. rewrite getAttr_setAttr_same, (startsWith_app "data:" rest).
  rewrite andb_false_r. reflexivity.
Qed.

Lemma fixAssetPath_http (domain nm rest : string) (a : list (string * string)) :
  fixAssetPath newURL domain nm (setAttr "src" ("http" ++ rest) a)
  = Normal (setAttr "src" ("http" ++ rest) a).
Proof.
  rewrite fixAssetPath_by_key. destruct (isOneOf ["img"; "script"; "link"] nm); [|reflexivity].
  assert (Hk : referenceKey (setAttr "src" ("http" ++ rest) a) = "src").
  { unfold referenceKey. rewrite getAttr_setAttr_same. reflexivity. }
  rewrite Hk, getAttr_setAttr_same, (startsWith_app "http" rest), andb_false_r. reflexivity.
Qed.

End PassThrough.

(** The pass of the inline views has no exemption for [data:]: it
    hands the value to [new URL] and writes back what that prints. *)
Lemma fixAssetPath_data (newURL : Url.parser) (domain nm rest : string)
      (a : list (string * string)) (u : URL) :
  isOneOf ["img"; "script"; "link"] nm = true ->
  newURL ("data:" ++ rest) (Some ("https://" ++ domain)) = Some u ->
  fixAssetPath newURL domain nm (setAttr "src" ("data:" ++ rest) a)
  = Normal (setAttr "src" (href u) (setAttr "src" ("data:" ++ rest) a)).
Proof.
  intros Hnm Hu. rewrite fixAssetPath_by_key, Hnm.
  assert (Hk : referenceKey (setAttr "src" ("data:" ++ rest) a) = "src").
  { unfold referenceKey. rewrite getAttr_setAttr_same. reflexivity. }
  rewrite Hk, getAttr_setAttr_same, Hu. reflexivity.
Qed.

(** The platform's URL class on a [data:] URL whose fragment holds a
    space, and on what it prints for it; [Url.simple] elsewhere. *)
Definition platformOnData : Url.parser :=
  fun input base =>
    if String.eqb input "data:text/plain,a#b c" || String.eqb input "data:text/plain,a#b%20c"
    then Some (mkURL "data:" "" "text/plain,a" "" "data:text/plain,a#b%20c")
    else Url.simple input base.

Definition dataImage : document := [Element "img" [("src", "data:text/plain,a#b c")] []].

(** C7, where it does not hold as stated: a [data:] URI does not pass
    through the asset pass of the root view unchanged. The pass skips
    values that start with [http] only, so the image source
    [data:text/plain,a#b c] goes to [new URL] and comes back with the
    space of its fragment percent-encoded. The pass of
    [serveTranslatedWebsite] leaves the same page as it is. *)
Lemma C7_root_view_rewrites_data_uri :
  startsWith "data:text/plain,a#b c" "data:" = true
  /\ fixAssetPaths platformOnData "example.com" dataImage
     = Normal [Element "img" [("src", "data:text/plain,a#b%20c")] []]
  /\ viewRoot platformOnData (fun _ => Normal dataImage) (Db.mkDb ViewFacts.exampleSite [])
              (fun _ _ => Throw "Unmatched selector") "example.com" None
     = mkOutcome (mkResponse 200 (Page [Element "img" [("src", "data:text/plain,a#b%20c")] []]))
                 ["https://example.com"]
  /\ String.eqb "data:text/plain,a#b%20c" "data:text/plain,a#b c" = false
  /\ fixAssets platformOnData "https://example.com" dataImage = dataImage.
Proof. repeat split. Qed.

(** C7, as amended. On a document whose references settle, each of the
    two asset passes has nothing left to do on its own result: the pass
    of [serveTranslatedWebsite] maps its result to itself, and so does
    the pass of the inline views whenever it gets through. A value that
    starts with [http] is left as it is by both. A value that starts
    with [data:] is left as it is by the pass of
    [serveTranslatedWebsite]; the pass of the inline views replaces it by
    what [new URL] prints for it. *)
Theorem C7_asset_rewriting_is_idempotent
        (newURL : Url.parser) (domain : string) (doc : document) :
  forallb (settles newURL ("https://" ++ domain)) (values doc) = true ->
  fixAssets newURL ("https://" ++ domain) (fixAssets newURL ("https://" ++ domain) doc)
  = fixAssets newURL ("https://" ++ domain) doc
  /\ (forall doc', fixAssetPaths newURL domain doc = Normal doc' ->
                   fixAssetPaths newURL domain doc' = Normal doc')
  /\ (forall k rest a,
         fixAttribute newURL ("https://" ++ domain) (setAttr k ("http" ++ rest) a) k
         = setAttr k ("http" ++ rest) a)
  /\ (forall k rest a,
         fixAttribute newURL ("https://" ++ domain) (setAttr k ("data:" ++ rest) a) k
         = setAttr k ("data:" ++ rest) a)
  /\ (forall nm rest a,
         fixAssetPath newURL domain nm (setAttr "src" ("http" ++ rest) a)
         = Normal (setAttr "src" ("http" ++ rest) a))
  /\ (forall nm rest a u,
         isOneOf ["img"; "script"; "link"] nm = true ->
         newURL ("data:" ++ rest) (Some ("https://" ++ domain)) = Some u ->
         fixAssetPath newURL domain nm (setAttr "src" ("data:" ++ rest) a)
         = Normal (setAttr "src" (href u) (setAttr "src" ("data:" ++ rest) a))).
Proof.
  intros H. split; [|split; [|split; [|split; [|split]]]].
  - apply fixAssets_idempotent. exact H.
  - intros doc'. apply fixAssetPaths_settled. exact H.
  - intros. apply fixAttribute_http.
  - intros. apply fixAttribute_data.
  - intros. apply fixAssetPath_http.
  - intros nm rest a u Hnm Hu. apply fixAssetPath_data; assumption.
Qed.

(** A page with a relative image, a stylesheet on another host and a
    relative script. *)
Definition assetPage : document :=
  [Element "img" [("src", "/logo.png"); ("alt", "logo")] [];
   Element "link" [("rel", "stylesheet"); ("href", "https://cdn.example.com/site.css")] [];
   Element "script" [("src", "/app.js")] []].

Lemma assetPage_rewritten :
  fixAssets Url.simple "https://example.com" assetPage
  = [Element "img" [("src", "https://example.com/logo.png"); ("alt", "logo")] [];
     Element "link" [("rel", "stylesheet"); ("href", "https://cdn.example.com/site.css")] [];
     Element "script" [("src", "https://example.com/app.js")] []]
  /\ fixAssetPaths Url.simple "example.com" assetPage
     = Normal (fixAssets Url.simple "https://example.com" assetPage).
Proof. split; reflexivity. Qed.

Lemma C7_asset_rewriting_witness :
  forallb (settles Url.simple ("https://" ++ "example.com")) (values assetPage) = true
  /\ fixAssets Url.simple ("https://" ++ "example.com")
               (fixAssets Url.simple ("https://" ++ "example.com") assetPage)
     = fixAssets Url.simple ("https://" ++ "example.com") assetPage.
Proof.
  split; [reflexivity|].
  exact (proj1 (@C7_asset_rewriting_is_idempotent Url.simple "example.com" assetPage eq_refl)).
Defined.

End AssetFacts.

(* ===================================================================== *)
(** * Properties: link discovery *)
(* ===================================================================== *)

Module LinkFacts.

Import Crawl DomFacts.

(** ** What the string tests decide *)

Lemma endsWith_iff (s suf : string) :
  endsWith s suf = true <-> exists pre, s = pre ++ suf.
Proof.
  split.
  - induction s as [|c s IH]; cbn [endsWith].
    + rewrite orb_false_r. intros H. apply String.eqb_eq in H. exists EmptyString. exact H.
    + intros H. apply orb_prop in H. destruct H as [H|H].
      * apply String.eqb_eq in H. exists EmptyString. exact H.
      * destruct (IH H) as [pre ->]. exists (String c pre). reflexivity.
  - intros [pre ->]. apply endsWith_app.
Qed.

Lemma startsWith_iff (s p : string) :
  startsWith s p = true <-> exists rest, s = p ++ rest.
Proof.
  split.
  - intros H. exists (drop (String.length p) s). apply startsWith_split. exact H.
  - intros [rest ->]. apply startsWith_app.
Qed.

Lemma indexOf_unfold (s pat : string) :
  indexOf s pat
  = if startsWith s pat then Some 0
    else match s with
         | EmptyString => None
         | String _ s' => option_map S (indexOf s' pat)
         end.
Proof. destruct s; reflexivity. Qed.

Lemma includes_iff (s p : string) :
  includes s p = true <-> exists a b, s = a ++ p ++ b.
Proof.
  unfold includes. split.
  - destruct (indexOf s p) as [i|] eqn:E; [|discriminate]. intros _.
    exists (take i s), (drop (i + String.length p) s). apply indexOf_split. exact E.
  - intros (a & b & ->). induction a as [|c a IH]; cbn [append].
    + rewrite indexOf_unfold, startsWith_app. reflexivity.
    + rewrite indexOf_unfold. destruct (startsWith (String c (a ++ p ++ b)) p); [reflexivity|].
      destruct (indexOf (a ++ p ++ b) p); [reflexivity|discriminate].
Qed.

(** [schemeLike] is the test of [/^[^/]*:/]: a colon after a run without
    a slash. *)
Fixpoint slashFree (s : string) : Prop :=
  match s with
  | EmptyString => True
  | String c s' => c <> "/"%char /\ slashFree s'
  end.

Lemma schemeLike_iff (s : string) :
  schemeLike s = true <-> exists a b, s = a ++ String ":" b /\ slashFree a.
Proof.
  split.
  - induction s as [|c s IH]; cbn [schemeLike]; [discriminate|].
    destruct (Ascii.eqb_spec c ":") as [->|Hc].
    + intros _. exists EmptyString, s. split; [reflexivity|exact I].
    + destruct (Ascii.eqb_spec c "/") as [->|Hs]; [discriminate|].
      intros H. destruct (IH H) as (a & b & -> & Ha).
      exists (String c a), b. split; [reflexivity|]. split; assumption.
  - intros (a & b & -> & Ha). induction a as [|c a IH]; cbn [append schemeLike].
    + reflexivity.
    + destruct Ha as [Hc Ha]. destruct (Ascii.eqb c ":"); [reflexivity|].
      destruct (Ascii.eqb_spec c "/") as [->|]; [contradiction|]. apply IH. exact Ha.
Qed.

(** ** The path filter *)

(** What a path that passed [isValidWebpagePath] looks like. *)
Definition pageLike (e : string) : Prop :=
  startsWith e "mailto:" = false
  /\ startsWith e "tel:" = false
  /\ startsWith e "#" = false
  /\ startsWith e "javascript:" = false
  /\ hasListedExtension e = false
  /\ includes e "@" = false
  /\ schemeLike e = false
  /\ (startsWith e "/" = true \/ startsWith e "./" = true \/ startsWith e "../" = true).

Lemma isValidWebpagePath_pageLike (e : string) :
  isValidWebpagePath e = true -> pageLike e.
Proof.
  unfold isValidWebpagePath, pageLike, invalidPatterns. cbn [existsb].
  destruct (startsWith e "mailto:"); [discriminate|].
  destruct (startsWith e "tel:"); [discriminate|].
  destruct (startsWith e "#"); [discriminate|].
  destruct (startsWith e "javascript:"); [discriminate|].
  destruct (hasListedExtension e); [discriminate|].
  destruct (includes e "@"); [discriminate|].
  destruct (schemeLike e); [discriminate|].
  cbn [orb]. intros H. repeat split.
  destruct (startsWith e "/"); [auto|].
  destruct (startsWith e "./"); [auto|]. auto.
Qed.

(** No listed extension, whatever the case of its letters. *)
Lemma hasListedExtension_false (e ext pre : string) :
  hasListedExtension e = false -> In ext extensions -> upcase e <> pre ++ upcase ("." ++ ext).
Proof.
  unfold hasListedExtension. intros H Hin Heq.
  assert (Ht : existsb (fun x => endsWith (upcase e) (upcase ("." ++ x))) extensions = true).
  { apply existsb_exists. exists ext. split; [exact Hin|]. apply endsWith_iff. eauto. }
  congruence.
Qed.

(** ** The link discoverer *)

Lemma JsSet_has_In (s : JsSet.t) (x : string) : JsSet.has s x = true <-> In x s.
Proof.
  unfold JsSet.has. rewrite existsb_exists. split.
  - intros (y & Hy & E). apply String.eqb_eq in E. subst. exact Hy.
  - intros H. exists x. split; [exact H|apply String.eqb_refl].
Qed.

Lemma JsSet_add_In (s : JsSet.t) (x y : string) : In y (JsSet.add s x) <-> In y s \/ y = x.
Proof.
  unfold JsSet.add. destruct (JsSet.has s x) eqn:E.
  - apply JsSet_has_In in E. split; [auto|]. intros [H|H]; [|subst]; assumption.
  - rewrite in_app_iff. cbn. split; intros [H|H]; auto; destruct H; auto; contradiction.
Qed.

Lemma JsSet_add_NoDup (s : JsSet.t) (x : string) : NoDup s -> NoDup (JsSet.add s x).
Proof.
  intros H. unfold JsSet.add. destruct (JsSet.has s x) eqn:E; [exact H|].
  apply NoDup_app; [exact H|repeat constructor; auto|].
  intros y Hy [<-|[]]. apply JsSet_has_In in Hy. congruence.
Qed.

Section Discoverer.

Variable newURL : Url.parser.
Variable html : document.
Variable baseUrl : string.

(** The path comes from an anchor of the page whose [href] resolves,
    against the base, to a URL on the base's hostname. *)
Definition onSameHost (e : string) : Prop :=
  exists el href u base,
    In el (select ["a"] html) /\ attr "href" el = Some href
    /\ newURL href (Some baseUrl) = Some u /\ newURL baseUrl None = Some base
    /\ hostname u = hostname base /\ pathname u = e.

Definition overHttp (e : string) : Prop :=
  exists el href u base,
    In el (select ["a"] html) /\ attr "href" el = Some href
    /\ newURL href (Some baseUrl) = Some u /\ newURL baseUrl None = Some base
    /\ hostname u = hostname base /\ pathname u = e
    /\ (protocol u = "http:" \/ protocol u = "https:").

Lemma fold_collects (P : string -> Prop) (f : JsSet.t -> node -> JsSet.t) (els : list node) :
  (forall links el, In el els -> NoDup links -> Forall P links ->
                    NoDup (f links el) /\ Forall P (f links el)) ->
  forall links, NoDup links -> Forall P links ->
                NoDup (fold_left f els links) /\ Forall P (fold_left f els links).
Proof.
  induction els as [|el els IH]; intros Hf links Hn Hp; cbn [fold_left]; [auto|].
  destruct (Hf links el (or_introl eq_refl) Hn Hp) as [Hn' Hp'].
  apply IH; auto. intros l e He. apply Hf. right. exact He.
Qed.

Lemma Forall_add (P : string -> Prop) (links : JsSet.t) (x : string) :
  Forall P links -> P x -> Forall P (JsSet.add links x).
Proof.
  intros Hl Hx. apply Forall_forall. intros y Hy. apply JsSet_add_In in Hy.
  destruct Hy as [Hy|Hy]; [|subst; exact Hx]. rewrite Forall_forall in Hl. auto.
Qed.

Lemma getPageLinks_sound :
  NoDup (getPageLinks newURL html baseUrl)
  /\ Forall (fun e => pageLike e /\ onSameHost e) (getPageLinks newURL html baseUrl).
Proof.
  unfold getPageLinks. apply fold_collects; [|constructor|constructor].
  intros links el Hel Hn Hp.
  destruct (attr "href" el) as [href|] eqn:Ea; [|auto].
  destruct (negb (truthy href)); [auto|].
  destruct (newURL href (Some baseUrl)) as [u|] eqn:Eu; [|auto].
  destruct (newURL baseUrl None) as [b|] eqn:Eb; [|auto].
  destruct (String.eqb (hostname u) (hostname b) && isValidWebpagePath (pathname u)) eqn:Eg; [|auto].
  apply andb_prop in Eg. destruct Eg as [Eh Ev]. apply String.eqb_eq in Eh.
  split; [apply JsSet_add_NoDup; exact Hn|]. apply Forall_add; [exact Hp|].
  split; [apply isValidWebpagePath_pageLike; exact Ev|].
  exists el, href, u, b. repeat split; assumption.
Qed.

Lemma getPageLinks_rev0_sound :
  NoDup (getPageLinks_rev0 newURL html baseUrl)
  /\ Forall overHttp (getPageLinks_rev0 newURL html baseUrl).
Proof.
  unfold getPageLinks_rev0. apply fold_collects; [|constructor|constructor].
  intros links el Hel Hn Hp.
  destruct (attr "href" el) as [href|] eqn:Ea; [|auto].
  destruct (negb (truthy href)); [auto|].
  destruct (newURL href (Some baseUrl)) as [u|] eqn:Eu; [|auto].
  destruct (newURL baseUrl None) as [b|] eqn:Eb; [|auto].
  destruct (String.eqb (hostname u) (hostname b)
            && (String.eqb (protocol u) "http:" || String.eqb (protocol u) "https:")) eqn:Eg;
    [|auto].
  apply andb_prop in Eg. destruct Eg as [Eh Ep]. apply String.eqb_eq in Eh.
  split; [apply JsSet_add_NoDup; exact Hn|]. apply Forall_add; [exact Hp|].
  exists el, href, u, b. repeat split; try assumption.
  apply orb_prop in Ep. destruct Ep as [Ep|Ep]; apply String.eqb_eq in Ep; auto.
Qed.

End Discoverer.

(** A page that links to a document, and a page with a link whose path
    starts with two slashes. *)
Definition reportPage : document :=
  [Element "a" [("href", "/files/report.pdf")] [Text "Annual report"]].

Definition doubleSlashPage : document :=
  [Element "a" [("href", "https://example.com//elsewhere.example/x")] [Text "x"]].

(** C5, where it does not hold as stated. The discoverer of the earlier revision has
    no path filter: the path of a PDF on the site is among its links (the
    discoverer of [server/index.js] drops it). And a link of either
    discoverer is a path of a URL on the base's host, not a reference
    that resolves to it: a path that starts with two slashes, taken as a
    reference against the base, names another host. *)
Lemma C5_earlier_discoverer_returns_documents :
  getPageLinks_rev0 Url.simple reportPage "https://example.com" = ["/files/report.pdf"]
  /\ hasListedExtension "/files/report.pdf" = true
  /\ getPageLinks Url.simple reportPage "https://example.com" = []
  /\ getPageLinks Url.simple doubleSlashPage "https://example.com" = ["//elsewhere.example/x"]
  /\ option_map hostname (Url.simple "//elsewhere.example/x" (Some "https://example.com"))
     = Some "elsewhere.example".
Proof. repeat split. Qed.

(** C5, as amended. Every link of [getPageLinks] of [server/index.js]
    passed the path filter (none of the rejected prefixes, no listed
    extension, no [@], no scheme-like prefix, and a leading [/], [./] or
    [../]) and is the path of an anchor's [href] that resolved to the
    base's hostname; the links are distinct. The links of the earlier
    revision are distinct paths of anchors that resolved to the base's
    hostname over http or https, with no filter on the path. *)
Theorem C5_links_are_same_host_page_paths :
  forall (newURL : Url.parser) (html : document) (baseUrl : string),
    NoDup (getPageLinks newURL html baseUrl)
    /\ Forall (fun e => pageLike e /\ onSameHost newURL html baseUrl e)
              (getPageLinks newURL html baseUrl)
    /\ NoDup (getPageLinks_rev0 newURL html baseUrl)
    /\ Forall (overHttp newURL html baseUrl) (getPageLinks_rev0 newURL html baseUrl).
Proof.
  intros newURL html baseUrl.
  destruct (getPageLinks_sound newURL html baseUrl) as [H1 H2].
  destruct (getPageLinks_rev0_sound newURL html baseUrl) as [H3 H4].
  auto.
Qed.

End LinkFacts.

(* ===================================================================== *)
(** * Properties: the map-website crawl *)
(* ===================================================================== *)

Module CrawlFacts.

Import Crawl DomFacts LinkFacts.

Local Open Scope list_scope.

Lemma JsSet_has_false (s : JsSet.t) (x : string) : JsSet.has s x = false <-> ~ In x s.
Proof.
  rewrite <- JsSet_has_In. destruct (JsSet.has s x); split; intros H; congruence.
Qed.

Lemma JsSet_add_new (s : JsSet.t) (x : string) : ~ In x s -> JsSet.add s x = (s ++ [x])%list.
Proof. intros H. unfold JsSet.add. apply JsSet_has_false in H. rewrite H. reflexivity. Qed.

Lemma JsSet_delete_head (s : JsSet.t) (x : string) : JsSet.delete (x :: s) x = s.
Proof. cbn. rewrite String.eqb_refl. reflexivity. Qed.

Lemma StronglySorted_app (R : string -> string -> Prop) (l1 l2 : list string) :
  StronglySorted R (l1 ++ l2)
  <-> StronglySorted R l1 /\ StronglySorted R l2 /\ (forall x y, In x l1 -> In y l2 -> R x y).
Proof.
  induction l1 as [|a l1 IH]; cbn.
  - split; [intros H; repeat split; [constructor|exact H|intros x y []]|tauto].
  - split.
    + intros H. apply StronglySorted_inv in H. destruct H as [H1 H2].
      apply IH in H1. destruct H1 as (S1 & S2 & S12). rewrite Forall_forall in H2.
      repeat split; auto.
      * constructor; [exact S1|]. apply Forall_forall. intros x Hx. apply H2.
        apply in_or_app. left. exact Hx.
      * intros x y [<-|Hx] Hy; [apply H2; apply in_or_app; right; exact Hy|auto].
    + intros (S1 & S2 & S12). apply StronglySorted_inv in S1. destruct S1 as [S1 F1].
      constructor.
      * apply IH. repeat split; auto.
      * rewrite Forall_forall in F1 |- *. intros x Hx. apply in_app_or in Hx.
        destruct Hx as [Hx|Hx]; auto.
Qed.

Lemma StronglySorted_all (R : string -> string -> Prop) (l : list string) :
  (forall x y, In x l -> In y l -> R x y) -> StronglySorted R l.
Proof.
  induction l as [|a l IH]; intros H; constructor.
  - apply IH. intros x y Hx Hy. apply H; right; assumption.
  - apply Forall_forall. intros x Hx. apply H; [left; reflexivity|right; exact Hx].
Qed.

Section Crawl.

Variable newURL : Url.parser.
Variable fetch : string -> completion document.
Variable baseUrl : string.
Variable seed : string.

(** The link graph the crawl walks: the links of a page that loads, none
    for a page that does not. *)
Definition links (p : string) : list string :=
  match fetch (baseUrl ++ p)%string with
  | Normal doc => getPageLinks newURL doc baseUrl
  | Throw _ => []
  end.

Definition loads (p : string) : bool :=
  match fetch (baseUrl ++ p)%string with
  | Normal _ => true
  | Throw _ => false
  end.

(** The pages the seed leads to. *)
Inductive reachable : string -> Prop :=
| reach_seed : reachable seed
| reach_link : forall p q, reachable p -> In q (links p) -> reachable q.

(** The pages at most [k] links away from the seed. *)
Inductive within : nat -> string -> Prop :=
| within_seed : forall k, within k seed
| within_link : forall k p q, within k p -> In q (links p) -> within (S k) q.

(** [p] is no further from the seed than [q]. *)
Definition closer (p q : string) : Prop := forall k, within k q -> within k p.

Abbreviation step := (Crawl.step newURL fetch baseUrl).
Abbreviation loop := (Crawl.loop newURL fetch baseUrl).

(** ** The frontier *)

(** What [enqueue] appends: the links that are neither visited nor in
    the frontier, each once. *)
Lemma enqueue_appends (visited : JsSet.t) (ls : list string) :
  forall queue, exists fresh,
    enqueue visited queue ls = (queue ++ fresh)%list
    /\ NoDup fresh
    /\ (forall x, In x fresh <-> In x ls /\ ~ In x visited /\ ~ In x queue).
Proof.
  unfold enqueue. induction ls as [|l ls IH]; intros queue; cbn [fold_left].
  - exists []. rewrite app_nil_r. split; [reflexivity|]. split; [constructor|].
    intros x. cbn. tauto.
  - destruct (JsSet.has visited l) eqn:Ev; cbn [negb].
    + apply JsSet_has_In in Ev. destruct (IH queue) as (fresh & E & Hn & Hin).
      exists fresh. split; [exact E|]. split; [exact Hn|].
      intros x. rewrite Hin. cbn. split; [tauto|].
      intros ([Hx|Hx] & Hv & Hq); [subst; contradiction|tauto].
    + apply JsSet_has_false in Ev.
      destruct (JsSet.has queue l) eqn:Eq.
      * assert (Ea : JsSet.add queue l = queue) by (unfold JsSet.add; rewrite Eq; reflexivity).
        rewrite Ea.
        apply JsSet_has_In in Eq. destruct (IH queue) as (fresh & E & Hn & Hin).
        exists fresh. split; [exact E|]. split; [exact Hn|].
        intros x. rewrite Hin. cbn. split; [tauto|].
        intros ([Hx|Hx] & Hv & Hq); [subst; contradiction|tauto].
      * apply JsSet_has_false in Eq. rewrite (JsSet_add_new _ _ Eq).
        destruct (IH (queue ++ [l])%list) as (fresh & E & Hn & Hin).
        exists (l :: fresh). rewrite E, <- app_assoc. split; [reflexivity|]. split.
        -- constructor; [|exact Hn]. intros Hl. apply Hin in Hl.
           destruct Hl as (_ & _ & Hl). apply Hl. apply in_or_app. right. left. reflexivity.
        -- intros x. cbn [In]. rewrite Hin, in_app_iff. cbn [In]. split.
           ++ intros [Hx|Hx]; [subst; tauto|tauto].
           ++ intros ([Hx|Hx] & Hv & Hq); [left; exact Hx|].
              destruct (string_dec l x) as [Hlx|Hlx]; [left; exact Hlx|]. right. tauto.
Qed.

(** ** One turn of the loop *)

Lemma within_more (k : nat) (p : string) : within k p -> within (S k) p.
Proof. induction 1; [apply within_seed|eapply within_link; eauto]. Qed.

Lemma closer_refl (p : string) : closer p p.
Proof. intros k H. exact H. Qed.

Lemma reachable_within (p : string) : reachable p <-> exists k, within k p.
Proof.
  split.
  - induction 1 as [|p q _ [k Hk] Hq]; [exists 0; apply within_seed|].
    exists (S k). eapply within_link; eauto.
  - intros [k Hk]. induction Hk; [apply reach_seed|eapply reach_link; eauto].
Qed.

(** What holds of the state at every turn. [visitedPages ++ pagesQueue]
    is the list of the paths in the order they entered the frontier. *)
Record Inv (st : state) : Prop := mkInv {
  inv_nodup : NoDup (visitedPages st ++ pagesQueue st);
  inv_seed : In seed (visitedPages st ++ pagesQueue st);
  inv_reach : forall p, In p (visitedPages st ++ pagesQueue st) -> reachable p;
  inv_closed : forall p q, In p (visitedPages st) -> In q (links p) ->
                           In q (visitedPages st ++ pagesQueue st);
  inv_sorted : StronglySorted closer (visitedPages st ++ pagesQueue st);
  inv_span : forall h q x k, pagesQueue st = h :: q -> In x (pagesQueue st) ->
                             within k h -> within (S k) x;
  inv_found : List.map path (foundPages st) = filter loads (visitedPages st)
}.

Lemma Inv_start : Inv (start seed).
Proof.
  constructor; cbn.
  - repeat constructor. intros [].
  - left. reflexivity.
  - intros p [<-|[]]. apply reach_seed.
  - intros p q [].
  - repeat constructor.
  - intros h q x k E [<-|[]] _. apply within_seed.
  - reflexivity.
Qed.

(** A turn takes the head of the frontier, marks it, and appends the
    links of the page that are new. *)
Lemma step_turn (st : state) (h : string) (q : list string) :
  Inv st -> pagesQueue st = h :: q ->
  exists fresh found,
    step st = mkState (q ++ fresh) (visitedPages st ++ [h]) found
    /\ NoDup fresh
    /\ (forall x, In x fresh <-> In x (links h) /\ ~ In x (visitedPages st ++ [h]) /\ ~ In x q)
    /\ List.map path found = filter loads (visitedPages st ++ [h]).
Proof.
  intros HI Hq. unfold Crawl.step. rewrite Hq, JsSet_delete_head.
  assert (Hh : ~ In h (visitedPages st)).
  { pose proof (inv_nodup HI) as Hn. rewrite Hq in Hn.
    apply NoDup_remove_2 in Hn. intros Hin. apply Hn. apply in_or_app. left. exact Hin. }
  pose proof Hh as Hh'. apply JsSet_has_false in Hh'. rewrite Hh', (JsSet_add_new _ _ Hh).
  unfold links, loads. rewrite filter_app. cbn [filter].
  destruct (fetch (baseUrl ++ h)%string) as [doc|m] eqn:Ef.
  - destruct (enqueue_appends (visitedPages st ++ [h]) (getPageLinks newURL doc baseUrl) q)
      as (fresh & E & Hn & Hin).
    exists fresh. eexists. split; [rewrite E; reflexivity|]. split; [exact Hn|].
    split; [exact Hin|]. rewrite List.map_app, (inv_found HI). reflexivity.
  - exists []. eexists. rewrite app_nil_r. split; [reflexivity|]. split; [constructor|].
    split; [cbn; tauto|]. rewrite (inv_found HI), app_nil_r. reflexivity.
Qed.

(** The head of the frontier is no further from the seed than anything
    in the frontier. *)
Lemma head_closer (st : state) (h : string) (q : list string) (x : string) :
  Inv st -> pagesQueue st = h :: q -> In x (h :: q) -> closer h x.
Proof.
  intros HI Hq Hx. pose proof (inv_sorted HI) as Hs. rewrite Hq in Hs.
  apply StronglySorted_app in Hs. destruct Hs as (_ & Hs & _).
  apply StronglySorted_inv in Hs. destruct Hs as [_ Hf]. rewrite Forall_forall in Hf.
  destruct Hx as [<-|Hx]; [apply closer_refl|auto].
Qed.

(** Whatever is within [k] links of the seed is visited, unless the head
    of the frontier is within [k] links itself. *)
Lemma visited_or_head_within (st : state) (k : nat) (w : string) :
  Inv st -> within k w ->
  In w (visitedPages st) \/ exists h q, pagesQueue st = h :: q /\ within k h.
Proof.
  intros HI Hw. induction Hw as [k|k p w Hp IH Hl].
  - pose proof (inv_seed HI) as Hs. apply in_app_or in Hs. destruct Hs as [Hs|Hs]; [left; exact Hs|].
    right. destruct (pagesQueue st) as [|h q] eqn:Hq; [destruct Hs|].
    exists h, q. split; [reflexivity|].
    apply (head_closer HI Hq Hs). apply within_seed.
  - destruct IH as [IH|(h & q & Hq & Hh)].
    + pose proof (inv_closed HI _ _ IH Hl) as Hc. apply in_app_or in Hc.
      destruct Hc as [Hc|Hc]; [left; exact Hc|]. right.
      destruct (pagesQueue st) as [|h q] eqn:Hq; [destruct Hc|].
      exists h, q. split; [reflexivity|].
      apply (head_closer HI Hq Hc). eapply within_link; eauto.
    + right. exists h, q. split; [exact Hq|]. apply within_more. exact Hh.
Qed.

(** A path that has not entered the frontier yet is one link further
    from the seed than the head of the frontier, or more. *)
Lemma new_is_deeper (st : state) (h : string) (q : list string) (k : nat) (x : string) :
  Inv st -> pagesQueue st = h :: q -> ~ In x (visitedPages st ++ pagesQueue st) ->
  within k x -> exists k', k = S k' /\ within k' h.
Proof.
  intros HI Hq Hx Hw. inversion Hw as [k0|k' p x' Hp Hl]; subst.
  - exfalso. apply Hx. apply (inv_seed HI).
  - exists k'. split; [reflexivity|].
    destruct (visited_or_head_within HI Hp) as [Hv|(h' & q' & Hq' & Hh')].
    + exfalso. apply Hx. apply (inv_closed HI _ _ Hv Hl).
    + rewrite Hq in Hq'. injection Hq' as <- <-. exact Hh'.
Qed.

Lemma entered_order (V q fresh : list string) (h : string) :
  (V ++ [h]) ++ q ++ fresh = (V ++ h :: q) ++ fresh.
Proof. rewrite <- !app_assoc. reflexivity. Qed.

Lemma step_Inv (st : state) (h : string) (q : list string) :
  Inv st -> pagesQueue st = h :: q -> Inv (step st).
Proof.
  intros HI Hq. destruct (step_turn HI Hq) as (fresh & found & E & Hn & Hin & Hf).
  rewrite E. clear E.
  assert (Hold : forall x, In x fresh -> ~ In x (visitedPages st ++ pagesQueue st)).
  { intros x Hx Ho. apply Hin in Hx. destruct Hx as (_ & Hv & Hx). rewrite Hq in Ho.
    apply in_app_or in Ho. destruct Ho as [Ho|[Ho|Ho]].
    - apply Hv. apply in_or_app. left. exact Ho.
    - apply Hv. apply in_or_app. right. left. exact Ho.
    - apply Hx. exact Ho. }
  assert (Hdeep : forall x k, In x fresh -> within k x -> exists k', k = S k' /\ within k' h).
  { intros x k Hx Hk. apply (new_is_deeper HI Hq (Hold x Hx) Hk). }
  assert (Hlink : forall x, In x fresh -> In x (links h)).
  { intros x Hx. apply Hin in Hx. tauto. }
  assert (Hhead : forall x k, In x (visitedPages st ++ pagesQueue st) ->
                              within k h -> within (S k) x).
  { intros x k Hx Hk. apply in_app_or in Hx. destruct Hx as [Hx|Hx].
    - apply within_more. pose proof (inv_sorted HI) as Hs.
      apply StronglySorted_app in Hs. destruct Hs as (_ & _ & Hs).
      apply (Hs x h Hx); [rewrite Hq; left; reflexivity|exact Hk].
    - apply (inv_span HI _ Hq Hx Hk). }
  constructor; cbn [visitedPages pagesQueue foundPages]; rewrite ?entered_order, <- ?Hq.
  - apply NoDup_app; [exact (inv_nodup HI)|exact Hn|].
    intros x Hx Hf'. apply (Hold x Hf' Hx).
  - apply in_or_app. left. exact (inv_seed HI).
  - intros p Hp. apply in_app_or in Hp. destruct Hp as [Hp|Hp]; [exact (inv_reach HI _ Hp)|].
    apply reach_link with (p := h); [|exact (Hlink p Hp)].
    apply (inv_reach HI). rewrite Hq. apply in_or_app. right. left. reflexivity.
  - intros p x Hp Hx.
    destruct (in_dec string_dec x (visitedPages st ++ pagesQueue st)) as [Ho|Ho];
      [apply in_or_app; left; exact Ho|].
    apply in_app_or in Hp. destruct Hp as [Hp|[<-|[]]].
    + exfalso. apply Ho. apply (inv_closed HI _ _ Hp Hx).
    + apply in_or_app. right. apply Hin. split; [exact Hx|].
      rewrite Hq in Ho. split; intros Hc; apply Ho.
      * apply in_app_or in Hc. apply in_or_app. destruct Hc as [Hc|[<-|[]]]; [left; exact Hc|].
        right. left. reflexivity.
      * apply in_or_app. right. right. exact Hc.
  - apply StronglySorted_app. split; [exact (inv_sorted HI)|]. split.
    + apply StronglySorted_all. intros x y Hx Hy k Hk.
      destruct (Hdeep y k Hy Hk) as (k' & -> & Hk').
      eapply within_link; [exact Hk'|exact (Hlink x Hx)].
    + intros x y Hx Hy k Hk. destruct (Hdeep y k Hy Hk) as (k' & -> & Hk').
      apply (Hhead x k' Hx Hk').
  - intros h' q' x k Hq' Hx Hk.
    assert (Hk0 : within k h).
    { assert (Hh' : In h' (q ++ fresh)) by (rewrite Hq'; left; reflexivity).
      apply in_app_or in Hh'. destruct Hh' as [Hh'|Hh'].
      - apply (head_closer HI Hq (or_intror Hh')). exact Hk.
      - destruct (Hdeep h' k Hh' Hk) as (k' & -> & Hk'). apply within_more. exact Hk'. }
    apply in_app_or in Hx. destruct Hx as [Hx|Hx].
    + apply (Hhead x k); [rewrite Hq; apply in_or_app; right; right; exact Hx|exact Hk0].
    + eapply within_link; [exact Hk0|exact (Hlink x Hx)].
  - exact Hf.
Qed.

(** ** The loop *)

Lemma continues_false (st : state) :
  continues st = false ->
  pagesQueue st = [] \/ maxPages <= List.length (visitedPages st).
Proof.
  unfold continues, JsSet.size. intros H. apply andb_false_iff in H. destruct H as [H|H].
  - left. apply Nat.ltb_ge in H. destruct (pagesQueue st); [reflexivity|cbn in H; lia].
  - right. apply Nat.ltb_ge in H. exact H.
Qed.

Lemma continues_true (st : state) :
  continues st = true ->
  (exists h q, pagesQueue st = h :: q) /\ List.length (visitedPages st) < maxPages.
Proof.
  unfold continues, JsSet.size. intros H. apply andb_prop in H. destruct H as [H1 H2].
  apply Nat.ltb_lt in H1, H2. split; [|exact H2].
  destruct (pagesQueue st) as [|h q]; [cbn in H1; lia|eauto].
Qed.

Lemma step_visits_one (st : state) (h : string) (q : list string) :
  Inv st -> pagesQueue st = h :: q ->
  visitedPages (step st) = visitedPages st ++ [h]
  /\ exists fresh, pagesQueue (step st) = q ++ fresh.
Proof.
  intros HI Hq. destruct (step_turn HI Hq) as (fresh & found & E & _).
  rewrite E. cbn. eauto.
Qed.

Lemma iter_step_first (n : nat) (st : state) :
  Nat.iter n step (step st) = Nat.iter (S n) step st.
Proof. symmetry. apply Nat.iter_succ_r. Qed.

(** From a state that satisfies the invariant the loop needs no more
    turns than there are pages left under the cap, and each of its turns
    visits one page. *)
Lemma loop_runs (n : nat) :
  forall st, Inv st -> List.length (visitedPages st) <= maxPages ->
             maxPages - List.length (visitedPages st) <= n ->
  exists st', loop n st = Some st'
              /\ Inv st' /\ continues st' = false
              /\ List.length (visitedPages st) <= List.length (visitedPages st') <= maxPages
              /\ Nat.iter (List.length (visitedPages st') - List.length (visitedPages st)) step st
                 = st'.
Proof.
  induction n as [|n IH]; intros st HI Hcap Hn.
  - assert (Hc : continues st = false).
    { unfold continues. replace (Nat.ltb (JsSet.size (visitedPages st)) maxPages) with false.
      - apply andb_false_r.
      - symmetry. apply Nat.ltb_ge. unfold JsSet.size. lia. }
    exists st. cbn [Crawl.loop]. rewrite Hc, Nat.sub_diag.
    split; [reflexivity|]. split; [exact HI|]. split; [reflexivity|]. split; [lia|reflexivity].
  - cbn [Crawl.loop]. destruct (continues st) eqn:Hc.
    + destruct (continues_true _ Hc) as [(h & q & Hq) Hlt].
      destruct (step_visits_one HI Hq) as [Hv _].
      assert (Hlen : List.length (visitedPages (step st)) = S (List.length (visitedPages st))).
      { rewrite Hv, length_app. cbn. lia. }
      destruct (IH (step st) (step_Inv HI Hq)) as (st' & Hl & HI' & Hc' & Hb & Hi); try lia.
      exists st'. split; [exact Hl|]. split; [exact HI'|]. split; [exact Hc'|].
      split; [lia|].
      rewrite iter_step_first in Hi.
      replace (List.length (visitedPages st') - List.length (visitedPages st))
        with (S (List.length (visitedPages st') - List.length (visitedPages (step st)))) by lia.
      exact Hi.
    + exists st. rewrite Nat.sub_diag.
      split; [reflexivity|]. split; [exact HI|]. split; [exact Hc|]. split; [lia|reflexivity].
Qed.

(** The visited pages, once the frontier is empty, are the reachable
    ones. *)
Lemma visited_all_reachable (st : state) :
  Inv st -> pagesQueue st = [] -> forall p, reachable p -> In p (visitedPages st).
Proof.
  intros HI Hq p Hp. induction Hp as [|p x _ IH Hx].
  - pose proof (inv_seed HI) as H. rewrite Hq, app_nil_r in H. exact H.
  - pose proof (inv_closed HI _ _ IH Hx) as H. rewrite Hq, app_nil_r in H. exact H.
Qed.

Lemma visited_count (st : state) (R : list string) :
  Inv st -> continues st = false -> List.length (visitedPages st) <= maxPages ->
  NoDup R -> (forall p, In p R <-> reachable p) ->
  List.length (visitedPages st) = Nat.min maxPages (List.length R).
Proof.
  intros HI Hc Hcap HR Hiff.
  assert (HV : NoDup (visitedPages st)) by (apply (NoDup_app_remove_r _ _ (inv_nodup HI))).
  assert (Hsub : incl (visitedPages st) R).
  { intros p Hp. apply Hiff. apply (inv_reach HI). apply in_or_app. left. exact Hp. }
  pose proof (NoDup_incl_length HV Hsub) as Hle.
  destruct (continues_false _ Hc) as [Hq|Hfull]; [|lia].
  assert (Hsup : incl R (visitedPages st)).
  { intros p Hp. apply (visited_all_reachable HI Hq). apply Hiff. exact Hp. }
  pose proof (NoDup_incl_length HR Hsup). lia.
Qed.

(** The crawl of one request ends within [maxPages] turns, in a state
    that satisfies the invariant and in which the loop condition fails;
    it took one turn for each visited page. *)
Lemma crawl_runs :
  exists st, crawl newURL fetch baseUrl seed = Some st
             /\ Inv st /\ continues st = false
             /\ List.length (visitedPages st) <= maxPages
             /\ Nat.iter (List.length (visitedPages st)) step (start seed) = st.
Proof.
  assert (H0 : List.length (visitedPages (start seed)) <= maxPages) by (cbn; lia).
  assert (H1 : maxPages - List.length (visitedPages (start seed)) <= maxPages) by lia.
  destruct (@loop_runs maxPages (start seed) Inv_start H0 H1) as (st & Hl & HI & Hc & Hb & Hi).
  exists st. cbn in Hb, Hi. rewrite Nat.sub_0_r in Hi.
  split; [exact Hl|]. split; [exact HI|]. split; [exact Hc|]. split; [lia|exact Hi].
Qed.

(** The invariant holds after any number of turns: the frontier is a
    queue. *)
Lemma Inv_iter (n : nat) : Inv (Nat.iter n step (start seed)).
Proof.
  induction n as [|n IH]; [exact Inv_start|]. rewrite Nat.iter_succ.
  destruct (pagesQueue (Nat.iter n step (start seed))) as [|h q] eqn:Hq.
  - unfold Crawl.step at 1. rewrite Hq. exact IH.
  - apply (step_Inv IH Hq).
Qed.

End Crawl.

(** ** Two runs *)

Lemma step_ext (newURL : Url.parser) (fetch fetch' : string -> completion document)
      (baseUrl : string) :
  (forall url, fetch url = fetch' url) ->
  forall st, Crawl.step newURL fetch baseUrl st = Crawl.step newURL fetch' baseUrl st.
Proof.
  intros H st. unfold Crawl.step. destruct (pagesQueue st) as [|h q]; [reflexivity|].
  destruct (JsSet.has (visitedPages st) h); [reflexivity|]. rewrite H. reflexivity.
Qed.

Lemma loop_ext (newURL : Url.parser) (fetch fetch' : string -> completion document)
      (baseUrl : string) :
  (forall url, fetch url = fetch' url) ->
  forall n st, Crawl.loop newURL fetch baseUrl n st = Crawl.loop newURL fetch' baseUrl n st.
Proof.
  intros H n. induction n as [|n IH]; intros st; cbn [Crawl.loop]; [reflexivity|].
  destruct (continues st); [|reflexivity]. rewrite (@step_ext newURL fetch fetch' baseUrl H). apply IH.
Qed.

(** ** The scenario: [/] links to [/a] and [/b], [/b] links to [/a] *)

Definition anchor (href : string) : node := Element "a" [("href", href)] [Text href].

Definition siteMap (url : string) : completion document :=
  if String.eqb url "https://example.com/" then Normal [anchor "/a"; anchor "/b"]
  else if String.eqb url "https://example.com/a" then Normal []
  else if String.eqb url "https://example.com/b" then Normal [anchor "/a"]
  else Throw "Request failed with status code 404".

Lemma siteMap_crawl :
  crawl Url.simple siteMap "https://example.com" "/"
  = Some (mkState [] ["/"; "/a"; "/b"]
                  [mkCrawlResult "/" "/" 4; mkCrawlResult "/a" "/a" 0; mkCrawlResult "/b" "/b" 2]).
Proof. reflexivity. Qed.

Lemma siteMap_reachable (p : string) :
  In p ["/"; "/a"; "/b"] <-> reachable Url.simple siteMap "https://example.com" "/" p.
Proof.
  split.
  - intros [<-|[<-|[<-|[]]]].
    + apply reach_seed.
    + apply reach_link with (p := "/"); [apply reach_seed|vm_compute; auto].
    + apply reach_link with (p := "/"); [apply reach_seed|vm_compute; auto].
  - induction 1 as [|p q _ IH Hq]; [cbn; auto|].
    destruct IH as [<-|[<-|[<-|[]]]]; vm_compute in Hq; cbn; tauto.
Qed.

(** A page that does not load is visited and left out of the pages. *)
Definition brokenLink (url : string) : completion document :=
  if String.eqb url "https://example.com/" then Normal [anchor "/gone"]
  else Throw "Request failed with status code 404".

Lemma brokenLink_crawl :
  crawl Url.simple brokenLink "https://example.com" "/"
  = Some (mkState [] ["/"; "/gone"] [mkCrawlResult "/" "/" 5]).
Proof. reflexivity. Qed.

(** C1. The crawl ends, with the frontier empty or the cap reached; it
    took one turn per visited page, so no page was marked twice; the
    visited pages are [min maxPages M] of the [M] reachable ones; and the
    returned pages are the visited ones that loaded. *)
Theorem C1_crawl_visits_min_of_cap_and_reachable :
  forall (newURL : Url.parser) (fetch : string -> completion document) (baseUrl seed : string),
  exists st,
    crawl newURL fetch baseUrl seed = Some st
    /\ (pagesQueue st = [] \/ List.length (visitedPages st) = maxPages)
    /\ NoDup (visitedPages st)
    /\ Nat.iter (List.length (visitedPages st)) (Crawl.step newURL fetch baseUrl) (start seed) = st
    /\ (forall p, In p (visitedPages st) -> reachable newURL fetch baseUrl seed p)
    /\ (forall R, NoDup R -> (forall p, In p R <-> reachable newURL fetch baseUrl seed p) ->
                  List.length (visitedPages st) = Nat.min maxPages (List.length R))
    /\ List.map path (foundPages st) = filter (loads fetch baseUrl) (visitedPages st).
Proof.
  intros newURL fetch baseUrl seed.
  destruct (crawl_runs newURL fetch baseUrl seed) as (st & Hl & HI & Hc & Hcap & Hi).
  exists st. split; [exact Hl|]. split.
  { destruct (continues_false _ Hc) as [Hq|Hfull]; [left; exact Hq|right; lia]. }
  split; [apply (NoDup_app_remove_r _ _ (inv_nodup HI))|]. split; [exact Hi|]. split.
  { intros p Hp. apply (inv_reach HI). apply in_or_app. left. exact Hp. }
  split; [|exact (inv_found HI)].
  intros R HR Hiff. apply (visited_count HI Hc Hcap HR Hiff).
Qed.

Lemma C1_crawl_scenario_witness :
  exists st,
    crawl Url.simple siteMap "https://example.com" "/" = Some st
    /\ List.length (visitedPages st) = Nat.min maxPages 3.
Proof.
  destruct (C1_crawl_visits_min_of_cap_and_reachable Url.simple siteMap "https://example.com" "/")
    as (st & Hl & _ & _ & _ & _ & Hcount & _).
  exists st. split; [exact Hl|].
  apply (Hcount ["/"; "/a"; "/b"]).
  - repeat constructor; cbn; intuition discriminate.
  - exact siteMap_reachable.
Defined.

(** C9. Two runs on oracles that answer alike end alike, with the same
    visited order and the same pages. The frontier is a queue: a turn
    takes its head and puts what is new at its end. The visit order is
    breadth-first: a page visited earlier is no further from the seed. *)
Theorem C9_crawl_is_deterministic_and_breadth_first
        (newURL : Url.parser) (fetch fetch' : string -> completion document)
        (baseUrl seed : string) :
  (forall url, fetch url = fetch' url) ->
  crawl newURL fetch baseUrl seed = crawl newURL fetch' baseUrl seed
  /\ (forall url, mapWebsite newURL fetch url = mapWebsite newURL fetch' url)
  /\ (forall n h q,
         pagesQueue (Nat.iter n (Crawl.step newURL fetch baseUrl) (start seed)) = h :: q ->
         visitedPages (Nat.iter (S n) (Crawl.step newURL fetch baseUrl) (start seed))
         = visitedPages (Nat.iter n (Crawl.step newURL fetch baseUrl) (start seed)) ++ [h]
         /\ exists fresh,
             pagesQueue (Nat.iter (S n) (Crawl.step newURL fetch baseUrl) (start seed))
             = q ++ fresh)
  /\ exists st,
      crawl newURL fetch baseUrl seed = Some st
      /\ StronglySorted (closer newURL fetch baseUrl seed) (visitedPages st).
Proof.
  intros H. split; [apply (@loop_ext newURL fetch fetch' baseUrl H)|]. split.
  { intros [u|]; [|reflexivity]. unfold mapWebsite.
    destruct (negb (truthy u)); [reflexivity|].
    destruct (newURL u None) as [parsed|]; [|reflexivity].
    unfold crawl. rewrite (@loop_ext newURL fetch fetch' _ H). reflexivity. }
  split.
  { intros n h q Hq. rewrite Nat.iter_succ.
    apply (step_visits_one (Inv_iter newURL fetch baseUrl seed n) Hq). }
  destruct (crawl_runs newURL fetch baseUrl seed) as (st & Hl & HI & _).
  exists st. split; [exact Hl|].
  pose proof (inv_sorted HI) as Hs. apply StronglySorted_app in Hs. tauto.
Qed.

(** An oracle written differently that answers like [siteMap]. *)
Definition siteMap' (url : string) : completion document :=
  if String.eqb url "https://example.com/a" then Normal [] else siteMap url.

Lemma siteMap'_alike (url : string) : siteMap url = siteMap' url.
Proof.
  unfold siteMap'. destruct (String.eqb_spec url "https://example.com/a") as [->|];
    reflexivity.
Qed.

Lemma C9_two_runs_witness :
  (forall url, siteMap url = siteMap' url)
  /\ crawl Url.simple siteMap "https://example.com" "/"
     = crawl Url.simple siteMap' "https://example.com" "/".
Proof.
  split; [exact siteMap'_alike|].
  exact (proj1 (@C9_crawl_is_deterministic_and_breadth_first
                  Url.simple siteMap siteMap' "https://example.com" "/" siteMap'_alike)).
Defined.

End CrawlFacts.

(* ===================================================================== *)
(** * More of the translation client and of the translate-website run *)
(* ===================================================================== *)

Module ClientFacts.

Import Db Translate TranslateWebsiteFacts.

(** What [translateText] returns, case by case: it never throws; a
    request that throws and a [null] body give the input text; an object
    gives its [translatedText] field, whatever that is. *)
Lemma translateText_by_cases :
  forall (post : string -> string -> completion value) (text lang : string),
  exists v,
    translateText post text lang = Normal v
    /\ (forall m, post text lang = Throw m -> v = VStr text)
    /\ (post text lang = Normal VNull -> v = VStr text)
    /\ (forall fields, post text lang = Normal (VObj fields) -> v = field "translatedText" fields).
Proof.
  intros post text lang. unfold translateText.
  destruct (post text lang) as [data|m] eqn:E; cbn.
  - destruct data; cbn; eexists; (split; [reflexivity|]);
      repeat split; intros; try discriminate; try reflexivity.
    match goal with H : Normal _ = Normal _ |- _ => injection H as <- end. reflexivity.
  - exists (VStr text). repeat split; intros; try discriminate; reflexivity.
Qed.

(** ** Which rows a run touches *)

(** What the loop binds for an item: the text of [translateText], as
    better-sqlite3 takes it. *)
Definition boundText (post : string -> string -> completion value) (lang : string)
           (item : translation) : completion (option string) :=
  translatedText <- translateText post (original_text item) lang ;; bindText translatedText.

(** How a row after the loop relates to the row before, when [done] are
    the items the loop got to. *)
Definition touched (post : string -> string -> completion value) (lang : string)
           (done : list translation) (r r' : translation) : Prop :=
  t_id r' = t_id r /\ website_id r' = website_id r /\ original_text r' = original_text r
  /\ t_path r' = t_path r /\ element_type r' = element_type r
  /\ (~ In (t_id r) (List.map t_id done) -> r' = r)
  /\ (In (t_id r) (List.map t_id done) ->
      language r' = lang
      /\ exists item, In item done /\ t_id item = t_id r
                      /\ boundText post lang item = Normal (translated_text r')).

Section Touched.

Variable post : string -> string -> completion value.
Variable lang : string.

Lemma touched_none (l : list translation) : Forall2 (touched post lang []) l l.
Proof. induction l; constructor; auto. unfold touched. cbn. intuition. Qed.

Lemma update_row_touched (d : Db.t) (item : translation) (text : option string) :
  boundText post lang item = Normal text ->
  Forall2 (touched post lang [item]) (translations d)
          (translations (updateTranslation d text lang (t_id item))).
Proof.
  intros Hb. destruct d as [ws rows]; cbn. induction rows as [|r rows IH]; cbn; constructor; auto.
  unfold touched. destruct (Nat.eqb_spec (t_id r) (t_id item)) as [E|E]; cbn.
  - do 5 (split; [reflexivity|]). split.
    + intros H. exfalso. apply H. left. symmetry. exact E.
    + intros _. split; [reflexivity|]. exists item. repeat split; auto.
  - do 5 (split; [reflexivity|]). split; [reflexivity|].
    intros [H|[]]. congruence.
Qed.

Lemma touched_trans (done1 done2 : list translation) (l1 l2 l3 : list translation) :
  Forall2 (touched post lang done1) l1 l2 -> Forall2 (touched post lang done2) l2 l3 ->
  Forall2 (touched post lang (done1 ++ done2)) l1 l3.
Proof.
  intros H. revert l3. induction H as [|a b l1 l2 Hab _ IH]; intros l3 H23; inversion H23; subst.
  - constructor.
  - constructor; auto.
    destruct Hab as (A1 & A2 & A3 & A4 & A5 & A6 & A7).
    match goal with H : touched post lang done2 b ?c |- _ =>
      destruct H as (B1 & B2 & B3 & B4 & B5 & B6 & B7); rename c into c0 end.
    unfold touched. rewrite map_app.
    split; [congruence|]. split; [congruence|]. split; [congruence|].
    split; [congruence|]. split; [congruence|]. split; [|intros Hin; split].
    + intros Hn. rewrite B6, A6; auto.
      * intros Hin. apply Hn. apply in_or_app. left. exact Hin.
      * rewrite A1. intros Hin. apply Hn. apply in_or_app. right. exact Hin.
    + destruct (in_dec Nat.eq_dec (t_id a) (List.map t_id done2)) as [H2|H2].
      * apply B7. rewrite A1. exact H2.
      * rewrite B6 by (rewrite A1; exact H2). apply A7.
        apply in_app_or in Hin. tauto.
    + destruct (in_dec Nat.eq_dec (t_id a) (List.map t_id done2)) as [H2|H2].
      * rewrite <- A1 in H2. destruct (B7 H2) as (_ & item & Hi & Hid & Hb).
        exists item. repeat split; [apply in_or_app; right; exact Hi|congruence|exact Hb].
      * assert (E : c0 = b) by (apply B6; rewrite A1; exact H2). subst c0.
        apply in_app_or in Hin. destruct Hin as [Hin|Hin]; [|tauto].
        destruct (A7 Hin) as (_ & item & Hi & Hid & Hb).
        exists item. repeat split; [apply in_or_app; left; exact Hi|exact Hid|exact Hb].
Qed.

(** Whatever the backend does and however the loop ends, it leaves the
    sites alone and touches only rows whose id it was given, of which it
    changes the translated text and the language. *)
Lemma translateItems_touches (items : list translation) :
  forall d, exists done,
    incl done items
    /\ (snd (translateItems post lang items d) = Normal tt -> done = items)
    /\ websites (fst (translateItems post lang items d)) = websites d
    /\ Forall2 (touched post lang done) (translations d)
               (translations (fst (translateItems post lang items d))).
Proof.
  induction items as [|item items IH]; intros d; cbn [translateItems].
  - exists []. cbn. repeat split; auto using touched_none. intros x [].
  - fold (boundText post lang item). destruct (boundText post lang item) as [text|m] eqn:Hb.
    + destruct (IH (updateTranslation d text lang (t_id item))) as (done & Hi & Hs & Hw & Hr).
      exists (item :: done). split; [|split; [|split]].
      * intros x [<-|Hx]; [left; reflexivity|right; apply Hi; exact Hx].
      * intros Hn. f_equal. apply Hs. exact Hn.
      * rewrite Hw. reflexivity.
      * change (item :: done) with ([item] ++ done)%list.
        eapply touched_trans; [apply update_row_touched; exact Hb|exact Hr].
    + exists []. cbn. repeat split; auto using touched_none; try discriminate. intros x [].
Qed.

End Touched.

Lemma Forall2_In_l (A B : Type) (R : A -> B -> Prop) (l : list A) (l' : list B) (x : A) :
  Forall2 R l l' -> In x l -> exists y, In y l' /\ R x y.
Proof.
  induction 1 as [|a b l l' Hab _ IH]; intros Hin; [destruct Hin|].
  destruct Hin as [<-|Hin]; [exists b; cbn; auto|].
  destruct (IH Hin) as (y & Hy & Hr). exists y. cbn. auto.
Qed.

(** With unique ids, a row is known by its id. *)
Lemma row_by_id (l : list translation) (r r0 : translation) :
  NoDup (List.map t_id l) -> In r l -> In r0 l -> t_id r0 = t_id r -> r0 = r.
Proof.
  induction l as [|x l IH]; cbn; [tauto|].
  intros Hn Hr H0 Hid. inversion Hn as [|? ? Hx Hl]; subst.
  destruct Hr as [->|Hr], H0 as [->|H0]; auto.
  - exfalso. apply Hx. rewrite <- Hid. apply in_map. exact H0.
  - exfalso. apply Hx. rewrite Hid. apply in_map. exact Hr.
Qed.

Lemma untranslated_ids (d : Db.t) (websiteId : nat) (r : translation) :
  NoDup (List.map t_id (translations d)) -> In r (translations d) ->
  In (t_id r) (List.map t_id (findUntranslated d websiteId)) ->
  website_id r = websiteId /\ translated_text r = None.
Proof.
  intros Hn Hr Hin. apply in_map_iff in Hin. destruct Hin as (r0 & Hid & H0).
  unfold findUntranslated in H0. apply filter_In in H0. destruct H0 as [H0 Hp].
  assert (r0 = r) by (eapply row_by_id; eauto).
  subst. apply andb_prop in Hp. destruct Hp as [H1 H2]. apply Nat.eqb_eq in H1.
  destruct (translated_text r); [discriminate|auto].
Qed.

Lemma translateWebsite_fst (post : string -> string -> completion value) (d : Db.t)
      (websiteId : nat) (lang : string) :
  fst (translateWebsite post d websiteId lang)
  = fst (translateItems post lang (findUntranslated d websiteId) d).
Proof.
  unfold translateWebsite.
  destruct (translateItems post lang (findUntranslated d websiteId) d) as [d' [u|m]]; reflexivity.
Qed.

(** A run keeps the sites, and of every row its id and its site. *)
Lemma translateWebsite_keys (post : string -> string -> completion value) (d : Db.t)
      (websiteId : nat) (lang : string) :
  websites (fst (translateWebsite post d websiteId lang)) = websites d
  /\ List.map t_id (translations (fst (translateWebsite post d websiteId lang)))
     = List.map t_id (translations d)
  /\ List.map website_id (translations (fst (translateWebsite post d websiteId lang)))
     = List.map website_id (translations d).
Proof.
  destruct (translateItems_touches post lang (findUntranslated d websiteId) d)
    as (done & _ & _ & Hw & Hr).
  rewrite translateWebsite_fst. split; [exact Hw|].
  split; induction Hr as [|a b l l' Hab _ IH]; cbn; try reflexivity;
    destruct Hab as (E1 & E2 & _); rewrite IH; congruence.
Qed.

(** With unique ids, a run leaves every row of another site and every
    row that had a translation exactly as it was: whatever the backend
    answers, and also when the run fails half-way. The sites table is
    never written and no row is added or removed. *)
Theorem translateWebsite_leaves_other_rows
        (post : string -> string -> completion value) (d : Db.t) (websiteId : nat)
        (lang : string) :
  NoDup (List.map t_id (translations d)) ->
  websites (fst (translateWebsite post d websiteId lang)) = websites d
  /\ List.map t_id (translations (fst (translateWebsite post d websiteId lang)))
     = List.map t_id (translations d)
  /\ forall r, In r (translations d) ->
               website_id r <> websiteId \/ translated_text r <> None ->
               In r (translations (fst (translateWebsite post d websiteId lang))).
Proof.
  intros Hn.
  destruct (translateItems_touches post lang (findUntranslated d websiteId) d)
    as (done & Hi & _ & _ & Hr).
  split; [apply translateWebsite_keys|]. split; [apply translateWebsite_keys|].
  rewrite translateWebsite_fst.
  intros r Hin Hother. destruct (Forall2_In_l r Hr Hin) as (r' & Hin' & Ht).
  destruct Ht as (_ & _ & _ & _ & _ & Hsame & _).
  rewrite <- Hsame; [exact Hin'|]. intros Hid.
  assert (Hid' : In (t_id r) (List.map t_id (findUntranslated d websiteId))).
  { apply in_map_iff in Hid. destruct Hid as (x & Hx & Hd). rewrite <- Hx.
    apply in_map. apply Hi. exact Hd. }
  destruct (untranslated_ids d websiteId r Hn Hin Hid') as [H1 H2]. tauto.
Qed.

(** The table of [oneFragment], with a translated row of the same site
    and a row of another site. *)
Definition threeRows : Db.t :=
  mkDb [mkWebsite 1 "example.com"; mkWebsite 2 "example.org"]
       [mkTranslation 1 1 "Hello" None "en" "/" "p";
        mkTranslation 2 1 "World" (Some "Mundo") "es" "/" "p";
        mkTranslation 3 2 "Hello" None "en" "/" "h1"].

Lemma threeRows_ids : NoDup (List.map t_id (translations threeRows)).
Proof. cbn. repeat constructor; cbn; intuition discriminate. Qed.

Lemma translateWebsite_leaves_other_rows_witness :
  NoDup (List.map t_id (translations threeRows))
  /\ In (mkTranslation 3 2 "Hello" None "en" "/" "h1")
        (translations (fst (translateWebsite nullTextBackend threeRows 1 "fr"))).
Proof.
  split; [exact threeRows_ids|].
  apply (proj2 (proj2 (@translateWebsite_leaves_other_rows nullTextBackend threeRows 1 "fr"
                                                            threeRows_ids))).
  - cbn. auto.
  - left. cbn. discriminate.
Defined.

(** ** A run with a backend that keeps its contract *)

(** A backend that answers every request with the text in brackets after
    the language. *)
Definition taggingBackend : string -> string -> completion value :=
  fun text lang => Normal (VObj [("translatedText", VStr (lang ++ ":" ++ text))]).

Lemma taggingBackend_keepsContract : keepsContract taggingBackend.
Proof. intros text lang. right. eexists _, _. split; reflexivity. Qed.

Lemma stored_translation
      (post : string -> string -> completion value) (d : Db.t) (websiteId : nat)
      (lang : string) (r : translation) :
  keepsContract post ->
  NoDup (List.map t_id (translations d)) ->
  In r (translations d) -> website_id r = websiteId -> translated_text r = None ->
  exists s,
    translateText post (original_text r) lang = Normal (VStr s)
    /\ In (mkTranslation (t_id r) websiteId (original_text r) (Some s) lang
                         (t_path r) (element_type r))
          (translations (fst (translateWebsite post d websiteId lang))).
Proof.
  intros contract Hn Hin Hw Ht.
  destruct (translateItems_touches post lang (findUntranslated d websiteId) d)
    as (done & Hi & Hs & _ & Hr).
  destruct (translateItems_fills contract lang (findUntranslated d websiteId) d)
    as (d' & Hrun & _ & _).
  rewrite translateWebsite_fst. rewrite Hrun in Hs. specialize (Hs eq_refl). subst done.
  destruct (translateText_is_string contract (original_text r) lang) as [s Hs].
  exists s. split; [exact Hs|].
  destruct (Forall2_In_l r Hr Hin) as (r' & Hin' & Hk).
  destruct Hk as (K1 & K2 & K3 & K4 & K5 & _ & K7).
  assert (Hmine : In r (findUntranslated d websiteId)).
  { unfold findUntranslated. apply filter_In. split; [exact Hin|].
    rewrite Hw, Nat.eqb_refl, Ht. reflexivity. }
  destruct (K7 (in_map t_id _ _ Hmine)) as (Hl & item & Hitem & Hid & Hb).
  assert (item = r).
  { eapply row_by_id; eauto. unfold findUntranslated in Hitem. apply filter_In in Hitem. tauto. }
  subst item. unfold boundText in Hb. rewrite Hs in Hb. cbn in Hb.
  injection Hb as Hb.
  replace (mkTranslation (t_id r) websiteId (original_text r) (Some s) lang
                         (t_path r) (element_type r)) with r'; [exact Hin'|].
  destruct r' as [i w o t l p e]. cbn in *. subst. reflexivity.
Qed.

(** With unique ids and a backend that keeps its contract, a run
    answers success and has stored, for every untranslated row of the
    site, what [translateText] returned for its original text, under the
    target language, changing nothing else of the row. *)
Theorem translateWebsite_stores_each_translation
        (post : string -> string -> completion value) (d : Db.t) (websiteId : nat)
        (lang : string) (r : translation) :
  keepsContract post ->
  NoDup (List.map t_id (translations d)) ->
  In r (translations d) -> website_id r = websiteId -> translated_text r = None ->
  snd (translateWebsite post d websiteId lang) = Translated
  /\ exists s,
       translateText post (original_text r) lang = Normal (VStr s)
       /\ In (mkTranslation (t_id r) websiteId (original_text r) (Some s) lang
                            (t_path r) (element_type r))
             (translations (fst (translateWebsite post d websiteId lang))).
Proof.
  intros contract Hn Hin Hw Ht. split.
  - apply (translateWebsite_leaves_none_untranslated contract d websiteId lang).
  - apply stored_translation; assumption.
Qed.

Lemma translateWebsite_stores_each_translation_witness :
  keepsContract taggingBackend
  /\ NoDup (List.map t_id (translations threeRows))
  /\ exists s,
       translateText taggingBackend "Hello" "fr" = Normal (VStr s)
       /\ In (mkTranslation 1 1 "Hello" (Some s) "fr" "/" "p")
             (translations (fst (translateWebsite taggingBackend threeRows 1 "fr"))).
Proof.
  split; [exact taggingBackend_keepsContract|]. split; [exact threeRows_ids|].
  refine (proj2 (@translateWebsite_stores_each_translation taggingBackend threeRows 1 "fr"
                   (mkTranslation 1 1 "Hello" None "en" "/" "p")
                   taggingBackend_keepsContract threeRows_ids _ eq_refl eq_refl)).
  cbn. auto.
Defined.

(** With a backend that keeps its contract a run answers success and
    leaves the site without untranslated rows, so a second run, for any
    language and with any backend, asks for nothing and changes nothing:
    a site holds translations for the language of its first run only. *)
Theorem translateWebsite_second_run_changes_nothing
        (post post' : string -> string -> completion value) (d : Db.t) (websiteId : nat)
        (lang lang' : string) :
  keepsContract post ->
  snd (translateWebsite post d websiteId lang) = Translated
  /\ translateWebsite post' (fst (translateWebsite post d websiteId lang)) websiteId lang'
     = (fst (translateWebsite post d websiteId lang), Translated).
Proof.
  intros contract.
  destruct (translateWebsite_leaves_none_untranslated contract d websiteId lang) as [H1 H2].
  split; [exact H1|]. unfold translateWebsite at 1. rewrite H2. reflexivity.
Qed.

Lemma translateWebsite_second_run_witness :
  keepsContract taggingBackend
  /\ translateWebsite nullTextBackend (fst (translateWebsite taggingBackend threeRows 1 "fr")) 1 "de"
     = (fst (translateWebsite taggingBackend threeRows 1 "fr"), Translated).
Proof.
  split; [exact taggingBackend_keepsContract|].
  exact (proj2 (@translateWebsite_second_run_changes_nothing taggingBackend nullTextBackend
                  threeRows 1 "fr" "de" taggingBackend_keepsContract)).
Defined.

End ClientFacts.

(* ===================================================================== *)
(** * More of the content rewriter *)
(* ===================================================================== *)

Module RewriterFacts.

Import Db View DomFacts SubstitutionFacts.

(** ** The text-node substitution *)

Lemma substitute_plain_returns (selectAll : string -> document -> completion (list position))
      (translations : list translation) :
  forallb plain translations = true ->
  forall doc, exists doc', substitute selectAll translations doc = Normal doc'.
Proof.
  induction translations as [|tr trs IH]; intros H doc; cbn [substitute]; [eauto|].
  cbn [forallb] in H. apply andb_prop in H. destruct H as [Hp Hrest].
  unfold substituteOne, selection. rewrite Hp. cbn [Js.bind]. apply IH. exact Hrest.
Qed.

(** The substitution step of the handlers that walk text nodes returns
    a document whenever every selector is read (the rows are [plain]),
    and what it returns differs from the document it was given in the
    data of text nodes only: the markup (element names, attributes,
    nesting, comments) and with it every attribute list are the same. *)
Theorem substitute_changes_text_only
        (selectAll : string -> document -> completion (list position))
        (translations : list translation) (doc : document) :
  (forallb plain translations = true ->
   exists doc', substitute selectAll translations doc = Normal doc')
  /\ forall doc',
       substitute selectAll translations doc = Normal doc' ->
       List.map markup doc' = List.map markup doc /\ attributes doc' = attributes doc.
Proof.
  split; [intros H; apply substitute_plain_returns; exact H|].
  intros doc' E. split; [apply (substitute_markup _ _ _ E)|apply (substitute_attributes _ _ _ E)].
Qed.

(** The step has left the document as it is, or a selector that is not
    [plain] has made it throw. *)
Definition unchangedOrRefused (selectAll : string -> document -> completion (list position))
           (translations : list translation) (doc : document) : Prop :=
  substitute selectAll translations doc = Normal doc
  \/ exists tr m,
       In tr translations /\ plain tr = false
       /\ substitute selectAll translations doc = Throw m.

Lemma substitute_fixed (selectAll : string -> document -> completion (list position))
      (translations : list translation) (doc : document) :
  (forall tr ps, In tr translations ->
                 fold_left (fun d p => updateAt p (walkAndReplace tr) d) ps doc = doc) ->
  unchangedOrRefused selectAll translations doc.
Proof.
  unfold unchangedOrRefused.
  induction translations as [|tr trs IH]; intros H; cbn [substitute]; [left; reflexivity|].
  unfold substituteOne, selection.
  destruct (plain tr) eqn:Hp.
  - cbn [Js.bind]. rewrite (H tr _ (or_introl eq_refl)).
    destruct IH as [E|(tr' & m & Hin & Hp' & E)].
    + intros tr0 ps Hin. apply H. right. exact Hin.
    + left. exact E.
    + right. exists tr', m. split; [right; exact Hin|]. split; [exact Hp'|exact E].
  - destruct (selectAll (selectorOf tr) doc) as [ps|m]; cbn [Js.bind].
    + rewrite (H tr ps (or_introl eq_refl)).
      destruct IH as [E|(tr' & m & Hin & Hp' & E)].
      * intros tr0 ps0 Hin. apply H. right. exact Hin.
      * left. exact E.
      * right. exists tr', m. split; [right; exact Hin|]. split; [exact Hp'|exact E].
    + right. exists tr, m. split; [left; reflexivity|]. split; [exact Hp|reflexivity].
Qed.

(** The data of the text nodes below a node, in document order. *)
Fixpoint textNodes (n : node) : list string :=
  match n with
  | Text d => [d]
  | Comment _ => []
  | Element _ _ cs => flat_map textNodes cs
  end.

Lemma walkAndReplace_absent (tr : translation) (n : node) :
  Forall (fun d => includes d (original_text tr) = false) (textNodes n) ->
  walkAndReplace tr n = n.
Proof.
  induction n as [d|d|nm a cs IH] using node_induction; cbn.
  - intros H. inversion H as [|? ? Hd _]; subst. rewrite Hd. reflexivity.
  - reflexivity.
  - intros H. f_equal. apply map_id_Forall. apply Forall_flat_map in H.
    rewrite Forall_forall in IH, H |- *. intros c Hc. apply IH; auto.
Qed.

Lemma updateNth_id_on (g : node -> node) (i : nat) (l : list node) :
  Forall (fun n => g n = n) l -> updateNth i g l = l.
Proof.
  intros H. revert i. induction H as [|x l Hx _ IH]; intros i; [destruct i; reflexivity|].
  destruct i; cbn; [rewrite Hx|rewrite IH]; reflexivity.
Qed.

Lemma updateAt_absent (tr : translation) (p : position) :
  forall doc,
    Forall (fun d => includes d (original_text tr) = false) (flat_map textNodes doc) ->
    updateAt p (walkAndReplace tr) doc = doc.
Proof.
  induction p as [|i p IH]; intros doc H; [reflexivity|].
  cbn [updateAt]. apply Forall_flat_map in H. destruct p as [|j p].
  - apply updateNth_id_on. eapply Forall_impl; [|exact H].
    intros n Hn. apply walkAndReplace_absent. exact Hn.
  - apply updateNth_id_on. eapply Forall_impl; [|exact H].
    intros [d|d|nm a cs] Hn; try reflexivity. f_equal. apply IH. exact Hn.
Qed.

(** A recorded text is replaced only where one text node holds all of
    it. A text that the page spreads over several text nodes (part of it
    inside an inline element, say) selects its element, but the walk
    finds it in no text node: when no text node of the page holds any
    of the recorded texts, the step returns the page as it is, unless
    the selector of a row that is not [plain] makes it throw. *)
Theorem substitute_needs_whole_text_nodes
        (selectAll : string -> document -> completion (list position))
        (translations : list translation) (doc : document) :
  (forall tr d, In tr translations -> In d (flat_map textNodes doc) ->
                includes d (original_text tr) = false) ->
  unchangedOrRefused selectAll translations doc.
Proof.
  intros H. apply substitute_fixed. intros tr ps Hin.
  induction ps as [|p ps IHps]; [reflexivity|]. cbn [fold_left].
  rewrite updateAt_absent; [exact IHps|].
  apply Forall_forall. intros d Hd. apply H; [exact Hin|exact Hd].
Qed.

(** A paragraph whose text is partly in bold. *)
Definition splitHello : document :=
  [Element "p" [] [Text "Hel"; Element "b" [] [Text "lo"]]].

(** A selector engine that refuses every selector. *)
Definition refusing : string -> document -> completion (list position) :=
  fun _ _ => Throw "Unmatched selector".

Lemma substitute_needs_whole_text_nodes_witness :
  selected helloHola (Element "p" [] [Text "Hel"; Element "b" [] [Text "lo"]]) = true
  /\ unchangedOrRefused refusing [helloHola] splitHello.
Proof.
  split; [reflexivity|].
  apply (@substitute_needs_whole_text_nodes refusing [helloHola] splitHello).
  intros tr d [<-|[]] Hd. cbn in Hd. destruct Hd as [<-|[<-|[]]]; reflexivity.
Defined.

(** Rows that hold no translation yet, with texts free of dollar signs,
    leave the page as it is (such a row replaces its text by itself),
    unless the selector of a row that is not [plain] makes the step
    throw. *)
Theorem substitute_before_translation
        (selectAll : string -> document -> completion (list position))
        (translations : list translation) (doc : document) :
  Forall (fun tr => untranslated tr /\ includes (original_text tr) "$" = false) translations ->
  unchangedOrRefused selectAll translations doc.
Proof.
  intros H. apply substitute_fixed. intros tr ps Hin.
  rewrite Forall_forall in H. destruct (H tr Hin) as [Hu Hd].
  apply walked_id. intros n. apply walkAndReplace_untranslated; assumption.
Qed.

(** A row whose text has a closing parenthesis, as a numbered step has. *)
Definition numberedStep : translation :=
  mkTranslation 1 1 "Step 1) Install" None "en" "/" "p".

Lemma substitute_before_translation_witness :
  Forall (fun tr => untranslated tr /\ includes (original_text tr) "$" = false) [numberedStep]
  /\ plain numberedStep = false
  /\ substitute refusing [numberedStep] [Element "p" [] [Text "Step 1) Install"]]
     = Throw "Unmatched selector"
  /\ unchangedOrRefused refusing [numberedStep] [Element "p" [] [Text "Step 1) Install"]].
Proof.
  assert (H : Forall (fun tr => untranslated tr /\ includes (original_text tr) "$" = false)
                     [numberedStep]).
  { repeat constructor. }
  split; [exact H|]. split; [reflexivity|]. split; [reflexivity|].
  exact (@substitute_before_translation refusing [numberedStep]
           [Element "p" [] [Text "Step 1) Install"]] H).
Defined.

(** ** The translation passes before anything is translated *)

Lemma translationFor_untranslated (db : Db.t) (domain originalText lang : string) :
  Forall untranslated (translations db) ->
  translationFor db domain originalText lang = None.
Proof.
  intros H. unfold translationFor, getTranslation.
  destruct (find _ (translations db)) as [tr|] eqn:E; [|reflexivity].
  apply find_some in E. destruct E as [Hin _].
  rewrite Forall_forall in H. destruct (H tr Hin) as [Hn|Hn]; rewrite Hn; reflexivity.
Qed.

(** While no stored row holds a translation (as after the fetch, before
    the first translate run), the last pass of the root view and the
    translation pass of the sub-path view change nothing, whatever the
    language asked for. *)
Theorem translation_passes_before_translation
        (db : Db.t) (parseHtml : string -> list node) (domain lang : string) (n : node) :
  Forall untranslated (translations db) ->
  retranslate db domain lang n = n /\ translateMarkup db parseHtml domain lang n = n.
Proof.
  intros H. split.
  - induction n as [d|d|nm a cs IH] using node_induction; try reflexivity.
    cbn [retranslate]. rewrite (translationFor_untranslated _ _ _ _ H).
    rewrite (map_id_Forall _ IH).
    destruct (isOneOf extractable nm); [|reflexivity].
    destruct (truthy (trim (textContent (Element nm a cs)))); reflexivity.
  - induction n as [d|d|nm a cs IH] using node_induction; try reflexivity.
    cbn [translateMarkup]. rewrite (translationFor_untranslated _ _ _ _ H).
    rewrite (map_id_Forall _ IH).
    destruct (isOneOf extractable nm); [|reflexivity].
    destruct (truthy (trim (textContent (Element nm a cs)))); reflexivity.
Qed.

Lemma translation_passes_before_translation_witness :
  Forall untranslated (translations TranslateWebsiteFacts.oneFragment)
  /\ retranslate TranslateWebsiteFacts.oneFragment "example.com" "es"
                 (Element "p" [] [Text "Hello"])
     = Element "p" [] [Text "Hello"].
Proof.
  assert (H : Forall untranslated (translations TranslateWebsiteFacts.oneFragment)).
  { repeat constructor. }
  split; [exact H|].
  exact (proj1 (@translation_passes_before_translation
                  TranslateWebsiteFacts.oneFragment (fun markup => [Text markup])
                  "example.com" "es" (Element "p" [] [Text "Hello"]) H)).
Defined.

(** ** The [base] element of the sub-path view *)

Lemma removeBase_no_base (n e : node) :
  In e (flat_map elements (removeBase n)) -> nameOf e <> "base".
Proof.
  induction n as [d|d|nm a cs IH] using node_induction; cbn; try tauto.
  destruct (String.eqb_spec nm "base") as [E|E]; cbn; [tauto|].
  rewrite app_nil_r. intros [<-|Hin]; [exact E|].
  apply in_flat_map in Hin. destruct Hin as (x & Hx & He).
  apply in_flat_map in Hx. destruct Hx as (c & Hc & Hx).
  rewrite Forall_forall in IH. apply (IH c Hc). apply in_flat_map. eauto.
Qed.

Lemma prependBase_base (baseHref : string) (n e : node) :
  (forall x, In x (elements n) -> nameOf x <> "base") ->
  In e (elements (prependBase baseHref n)) -> nameOf e = "base" ->
  e = Element "base" [("href", baseHref)] [].
Proof.
  induction n as [d|d|nm a cs IH] using node_induction; cbn [prependBase elements]; try (intros _ []).
  intros Hn Hin Hb.
  assert (Hnm : nm <> "base") by (apply (Hn (Element nm a cs)); left; reflexivity).
  assert (Hcs : In e (flat_map elements (List.map (prependBase baseHref) cs)) ->
                e = Element "base" [("href", baseHref)] []).
  { intros H. apply in_flat_map in H. destruct H as (c' & Hc' & He).
    apply in_map_iff in Hc'. destruct Hc' as (c & <- & Hc).
    rewrite Forall_forall in IH. apply (IH c Hc); auto.
    intros x Hx. apply Hn. right. apply in_flat_map. eauto. }
  destruct (String.eqb nm "head"); cbn [elements flat_map app] in Hin.
  - destruct Hin as [<-|[<-|Hin]]; [contradiction|reflexivity|auto].
  - destruct Hin as [<-|Hin]; [contradiction|auto].
Qed.

(** After [$('base').remove()] and the [prepend] into the head, every
    [base] element of the document is the one the handler wrote: any the
    page brought, wherever it stood, is gone with all it held. *)
Theorem base_elements_are_the_inserted_ones (baseHref : string) (doc : document) (e : node) :
  In e (flat_map elements (List.map (prependBase baseHref) (flat_map removeBase doc))) ->
  nameOf e = "base" ->
  e = Element "base" [("href", baseHref)] [].
Proof.
  intros Hin Hb. apply in_flat_map in Hin. destruct Hin as (n' & Hn' & He).
  apply in_map_iff in Hn'. destruct Hn' as (n & <- & Hn).
  apply (@prependBase_base baseHref n e); auto.
  intros x Hx. apply in_flat_map in Hn. destruct Hn as (n0 & _ & Hn).
  apply (@removeBase_no_base n0 x). apply in_flat_map. eauto.
Qed.

(** A page that brings its own [base] element, outside the head. *)
Definition ownBase : document :=
  [Element "html" []
     [Element "head" [] [Element "title" [] [Text "Home"]];
      Element "body" [] [Element "base" [("href", "https://elsewhere.example/")] []]]].

Lemma base_elements_witness :
  List.map (prependBase "https://example.com/") (flat_map removeBase ownBase)
  = [Element "html" []
       [Element "head" [] [Element "base" [("href", "https://example.com/")] [];
                           Element "title" [] [Text "Home"]];
        Element "body" [] []]]
  /\ Element "base" [("href", "https://example.com/")] []
     = Element "base" [("href", "https://example.com/")] [].
Proof.
  split; [reflexivity|].
  apply (@base_elements_are_the_inserted_ones "https://example.com/" ownBase
           (Element "base" [("href", "https://example.com/")] [])).
  - cbn. right. right. left. reflexivity.
  - reflexivity.
Defined.

(** ** The slash-stripping passes of the sub-path view *)

(** The two passes in the handler's order. *)
Definition stripSlashes (doc : document) : document :=
  List.map (mapElements stripSrc) (List.map (mapElements stripHref) doc).

Definition stripBoth (nm : string) (a : list (string * string)) : list (string * string) :=
  stripSrc nm (stripHref nm a).

Lemma mapElements_compose (f g : string -> list (string * string) -> list (string * string))
      (n : node) :
  mapElements g (mapElements f n) = mapElements (fun nm a => g nm (f nm a)) n.
Proof.
  induction n as [d|d|nm a cs IH] using node_induction; try reflexivity.
  cbn [mapElements]. f_equal. rewrite List.map_map. apply map_ext_Forall. exact IH.
Qed.

Lemma stripSlashes_stripBoth (doc : document) :
  stripSlashes doc = List.map (mapElements stripBoth) doc.
Proof.
  unfold stripSlashes. rewrite List.map_map. apply List.map_ext.
  intros n. exact (mapElements_compose stripHref stripSrc n).
Qed.

Lemma stripHref_after_stripSrc (nm : string) (a : list (string * string)) :
  stripHref nm a = a -> stripHref nm (stripSrc nm a) = stripSrc nm a.
Proof.
  intros Ha. unfold stripSrc. destruct (getAttr "src" a) as [s|] eqn:Es; [|exact Ha].
  destruct (truthy s && negb (startsWith s "http") && negb (startsWith s "//")); [|exact Ha].
  unfold stripHref in Ha |- *.
  rewrite getAttr_setAttr_other by discriminate.
  destruct (getAttr "href" a) as [h|] eqn:Eh; [|reflexivity].
  destruct (truthy h && negb (startsWith h "http") && negb (startsWith h "//")
            && negb (startsWith h "mailto:") && negb (startsWith h "#")); [|reflexivity].
  assert (E : stripSlash h = h).
  { assert (E : getAttr "href" (setAttr "href" (stripSlash h) a) = Some h) by (rewrite Ha; exact Eh).
    rewrite getAttr_setAttr_same in E. injection E as E. exact E. }
  rewrite E. apply setAttr_unchanged. rewrite getAttr_setAttr_other by discriminate. exact Eh.
Qed.

Lemma stripBoth_idempotent (nm : string) (a : list (string * string)) :
  stripBoth nm (stripBoth nm a) = stripBoth nm a.
Proof.
  unfold stripBoth.
  rewrite (@stripHref_after_stripSrc nm (stripHref nm a) (AssetFacts.stripHref_idempotent nm a)).
  apply AssetFacts.stripSrc_idempotent.
Qed.

(** Running the two slash-stripping passes on their own result changes
    nothing, for any document. *)
Theorem stripSlashes_idempotent (doc : document) :
  stripSlashes (stripSlashes doc) = stripSlashes doc.
Proof.
  rewrite !stripSlashes_stripBoth, List.map_map. apply List.map_ext.
  intros n. apply AssetFacts.mapElements_idempotent. intros e _. apply stripBoth_idempotent.
Qed.

Lemma stripSlash_rooted (v : string) :
  startsWith v "//" = false -> startsWith (stripSlash v) "/" = false.
Proof.
  unfold stripSlash. destruct v as [|c v]; [reflexivity|].
  cbn [startsWith]. destruct (Ascii.eqb_spec "/" c) as [<-|Hc]; cbn [andb drop]; [|intros _].
  - destruct v as [|d v]; [reflexivity|]. cbn [startsWith].
    destruct (Ascii.eqb "/" d); cbn [andb]; [discriminate|reflexivity].
  - cbn [startsWith]. destruct (Ascii.eqb_spec "/" c); [contradiction|reflexivity].
Qed.

Lemma stripHref_rooted (nm : string) (a : list (string * string)) (v : string) :
  getAttr "href" (stripHref nm a) = Some v -> startsWith v "/" = true ->
  startsWith v "//" = true.
Proof.
  unfold stripHref. destruct (getAttr "href" a) as [h|] eqn:Eh; [|rewrite Eh; discriminate].
  destruct (truthy h) eqn:Et; cbn [andb].
  2:{ rewrite Eh. intros E; injection E as <-. destruct h; discriminate. }
  destruct (startsWith h "//") eqn:E2.
  { rewrite !andb_false_r. cbn [andb]. rewrite Eh. intros E; injection E as <-. auto. }
  destruct (negb (startsWith h "http") && negb false && negb (startsWith h "mailto:")
            && negb (startsWith h "#")) eqn:Eg.
  - rewrite getAttr_setAttr_same. intros E; injection E as <-.
    rewrite (stripSlash_rooted _ E2). discriminate.
  - rewrite Eh. intros E; injection E as <-. intros Hs. exfalso.
    destruct h as [|c h]; [discriminate|]. cbn [startsWith] in Hs.
    destruct (Ascii.eqb_spec "/" c) as [<-|]; [|discriminate].
    cbn in Eg. discriminate.
Qed.

Lemma stripSrc_rooted (nm : string) (a : list (string * string)) (v : string) :
  getAttr "src" (stripSrc nm a) = Some v -> startsWith v "/" = true ->
  startsWith v "//" = true.
Proof.
  unfold stripSrc. destruct (getAttr "src" a) as [h|] eqn:Eh; [|rewrite Eh; discriminate].
  destruct (truthy h) eqn:Et; cbn [andb].
  2:{ rewrite Eh. intros E; injection E as <-. destruct h; discriminate. }
  destruct (startsWith h "//") eqn:E2.
  { rewrite !andb_false_r. rewrite Eh. intros E; injection E as <-. auto. }
  destruct (negb (startsWith h "http") && negb false) eqn:Eg.
  - rewrite getAttr_setAttr_same. intros E; injection E as <-.
    rewrite (stripSlash_rooted _ E2). discriminate.
  - rewrite Eh. intros E; injection E as <-. intros Hs. exfalso.
    destruct h as [|c h]; [discriminate|]. cbn [startsWith] in Hs.
    destruct (Ascii.eqb_spec "/" c) as [<-|]; [|discriminate].
    cbn in Eg. discriminate.
Qed.

Lemma stripBoth_rooted (nm : string) (a : list (string * string)) (k v : string) :
  k = "href" \/ k = "src" ->
  getAttr k (stripBoth nm a) = Some v -> startsWith v "/" = true -> startsWith v "//" = true.
Proof.
  unfold stripBoth. intros [->| ->].
  - assert (E : getAttr "href" (stripSrc nm (stripHref nm a)) = getAttr "href" (stripHref nm a)).
    { unfold stripSrc. destruct (getAttr "src" (stripHref nm a)) as [s|]; [|reflexivity].
      destruct (truthy s && negb (startsWith s "http") && negb (startsWith s "//")); [|reflexivity].
      apply getAttr_setAttr_other. discriminate. }
    rewrite E. apply stripHref_rooted.
  - apply stripSrc_rooted.
Qed.

(** After the two passes no [href] and no [src] of the document is
    relative to the root of the proxy: one that starts with a slash
    starts with two, and names its own host. *)
Theorem stripSlashes_leaves_no_rooted_reference (doc : document) (e : node) (k v : string) :
  In e (flat_map elements (stripSlashes doc)) ->
  k = "href" \/ k = "src" ->
  attr k e = Some v -> startsWith v "/" = true ->
  startsWith v "//" = true.
Proof.
  rewrite stripSlashes_stripBoth. intros Hin Hk. apply in_flat_map in Hin.
  destruct Hin as (n' & Hn' & He). apply in_map_iff in Hn'. destruct Hn' as (n & <- & _).
  rewrite elements_mapElements in He. apply in_map_iff in He. destruct He as (e0 & <- & He0).
  pose proof (elements_are_elements _ _ He0) as Hel.
  destruct e0 as [d|d|nm a cs]; try discriminate.
  unfold attr. cbn [mapElements attribsOf]. apply stripBoth_rooted. exact Hk.
Qed.

(** A page with a root-relative image and a protocol-relative script. *)
Definition rootedAssets : document :=
  [Element "img" [("src", "/logo.png")] [];
   Element "script" [("src", "//cdn.example.com/app.js")] []].

Lemma stripSlashes_witness :
  stripSlashes rootedAssets
  = [Element "img" [("src", "logo.png")] [];
     Element "script" [("src", "//cdn.example.com/app.js")] []]
  /\ startsWith "//cdn.example.com/app.js" "//" = true.
Proof.
  split; [reflexivity|].
  apply (@stripSlashes_leaves_no_rooted_reference rootedAssets
           (Element "script" [("src", "//cdn.example.com/app.js")] []) "src"
           "//cdn.example.com/app.js").
  - cbn. right. left. reflexivity.
  - right. reflexivity.
  - reflexivity.
  - reflexivity.
Defined.

(** ** The style rewriting of the sub-path view *)

Fixpoint allChars (p : ascii -> bool) (s : string) : bool :=
  match s with
  | EmptyString => true
  | String c s' => p c && allChars p s'
  end.

Lemma spanGroup_inGroup (s : string) : allChars inGroup (fst (spanGroup s)) = true.
Proof.
  induction s as [|c s IH]; [reflexivity|]. cbn [spanGroup].
  destruct (inGroup c) eqn:E; [|reflexivity].
  destruct (spanGroup s) as [g r]. cbn in *. rewrite E, IH. reflexivity.
Qed.

(** What the regular expression of the style passes takes for the
    argument of [url(...)] holds none of the letters [h], [t] and [p]
    (its character class lists them beside the quotes and the closing
    parenthesis). So an argument with one of these letters is never
    rewritten, and the exemption for [data:] arguments is never taken. *)
Theorem matchUrl_group_has_no_h_t_p (s p1 r : string) :
  matchUrl s = Some (p1, r) ->
  allChars inGroup p1 = true /\ startsWith p1 "data:" = false.
Proof.
  unfold matchUrl. destruct (startsWith s "url("); [|discriminate].
  pose proof (spanGroup_inGroup (skipQuote (drop 4 s))) as H.
  destruct (spanGroup (skipQuote (drop 4 s))) as [g r0]. cbn [fst] in H.
  destruct g as [|c g]; [discriminate|].
  destruct (skipQuote r0) as [|c0 r']; [discriminate|].
  destruct (Ascii.eqb c0 ")"); [|discriminate].
  intros E. injection E as <- <-. split; [exact H|].
  destruct g as [|c1 g]; [cbn [startsWith]; apply andb_false_r|].
  destruct g as [|c2 g]; [cbn [startsWith]; rewrite !andb_false_r; reflexivity|].
  cbn [startsWith]. destruct (Ascii.eqb_spec "t" c2) as [<-|]; [|rewrite !andb_false_r; reflexivity].
  cbn [allChars] in H. apply andb_prop in H. destruct H as [_ H].
  apply andb_prop in H. destruct H as [_ H]. apply andb_prop in H. destruct H as [H _].
  discriminate.
Qed.

Lemma matchUrl_group_witness :
  matchUrl "url(/a.gif) no-repeat" = Some ("/a.gif", " no-repeat")
  /\ allChars inGroup "/a.gif" = true /\ startsWith "/a.gif" "data:" = false
  /\ fixUrls "url(/a.gif) url(/photo.png)" = "url('a.gif') url(/photo.png)".
Proof.
  split; [reflexivity|].
  destruct (@matchUrl_group_has_no_h_t_p "url(/a.gif) no-repeat" "/a.gif" " no-repeat" eq_refl)
    as [H1 H2].
  split; [exact H1|]. split; [exact H2|reflexivity].
Defined.

(** ** An asset reference that cannot be resolved *)

(** Name and attributes of every element, in document order. *)
Definition tags (doc : document) : list (string * list (string * string)) :=
  List.map (fun e => (nameOf e, attribsOf e)) (flat_map elements doc).

Lemma tags_markup_node (n : node) :
  List.map (fun e => (nameOf e, attribsOf e)) (elements (markup n))
  = List.map (fun e => (nameOf e, attribsOf e)) (elements n).
Proof.
  induction n as [d|d|nm a cs IH] using node_induction; cbn; try reflexivity.
  f_equal. induction IH as [|c cs Hc _ IHcs]; cbn; [reflexivity|].
  rewrite !List.map_app, Hc, IHcs. reflexivity.
Qed.

Lemma tags_markup (doc : document) : tags (List.map markup doc) = tags doc.
Proof.
  unfold tags. induction doc as [|n doc IH]; cbn; [reflexivity|].
  rewrite !List.map_app, tags_markup_node, IH. reflexivity.
Qed.

Lemma tags_substitute (selectAll : string -> document -> completion (list position))
      (translations : list translation) (doc doc' : document) :
  substitute selectAll translations doc = Normal doc' -> tags doc' = tags doc.
Proof.
  intros E. rewrite <- (tags_markup doc'), (substitute_markup _ _ _ E). apply tags_markup.
Qed.

Lemma tags_mapElements (f : string -> list (string * string) -> list (string * string))
      (doc : document) :
  tags (List.map (mapElements f) doc)
  = List.map (fun t => (fst t, f (fst t) (snd t))) (tags doc).
Proof.
  unfold tags. induction doc as [|n doc IH]; cbn; [reflexivity|].
  rewrite !List.map_app, IH. f_equal.
  rewrite elements_mapElements, !List.map_map. apply List.map_ext_in.
  intros e He. pose proof (elements_are_elements _ _ He) as Hel.
  destruct e; try discriminate. reflexivity.
Qed.

Section Throws.

Variable f : string -> list (string * string) -> completion (list (string * string)).
Variable m0 : string.
Hypothesis f_throws : forall nm a m, f nm a = Throw m -> m = m0.

Lemma eachM_throw (g : node -> completion node) (l : list node) (m : string) :
  Forall (fun n => forall m, g n = Throw m -> m = m0) l ->
  eachM g l = Throw m -> m = m0.
Proof.
  induction 1 as [|c l Hc _ IH]; cbn [eachM]; [discriminate|].
  destruct (g c) as [c'|mc] eqn:Ec; cbn [Js.bind].
  - destruct (eachM g l) as [l'|ml]; cbn [Js.bind]; [discriminate|].
    intros E. injection E as <-. apply IH. reflexivity.
  - intros E. injection E as <-. apply Hc. reflexivity.
Qed.

Lemma mapElementsM_throw (n : node) (m : string) :
  mapElementsM f n = Throw m -> m = m0.
Proof.
  revert m. induction n as [d|d|nm a cs IH] using node_induction; intros m; try discriminate.
  rewrite AssetFacts.mapElementsM_element.
  destruct (f nm a) as [a'|ma] eqn:Ea; cbn [Js.bind].
  - destruct (eachM (mapElementsM f) cs) as [cs'|mc] eqn:Ec; cbn [Js.bind]; [discriminate|].
    intros E. injection E as <-. apply (@eachM_throw (mapElementsM f) cs mc IH Ec).
  - intros E. injection E as <-. apply (@f_throws nm a ma Ea).
Qed.

Lemma eachM_reaches (g : node -> completion node) (l : list node) (c : node) (m : string) :
  In c l -> g c = Throw m -> exists m', eachM g l = Throw m'.
Proof.
  induction l as [|x l IH]; [intros []|]. intros Hin Hc. cbn [eachM].
  destruct (g x) as [x'|mx] eqn:Ex; cbn [Js.bind]; [|eauto].
  destruct Hin as [->|Hin]; [congruence|].
  destruct (IH Hin Hc) as [m' Hm']. rewrite Hm'. cbn [Js.bind]. eauto.
Qed.

Lemma mapElementsM_reaches (n e : node) (m : string) :
  In e (elements n) -> f (nameOf e) (attribsOf e) = Throw m ->
  exists m', mapElementsM f n = Throw m'.
Proof.
  induction n as [d|d|nm a cs IH] using node_induction; cbn [elements];
    [intros []|intros []|].
  intros Hin He. rewrite AssetFacts.mapElementsM_element.
  destruct Hin as [<-|Hin]; [cbn [nameOf attribsOf] in He; rewrite He; cbn; eauto|].
  destruct (f nm a) as [a'|ma]; cbn [Js.bind]; [|eauto].
  apply in_flat_map in Hin. destruct Hin as (c & Hc & Hec).
  rewrite Forall_forall in IH. destruct (IH c Hc Hec He) as [mc Hmc].
  destruct (@eachM_reaches (mapElementsM f) cs c mc Hc Hmc) as [m' Hm'].
  rewrite Hm'. cbn [Js.bind]. eauto.
Qed.

Lemma eachM_mapElementsM_throws (doc : document) (nm : string) (a : list (string * string))
      (m : string) :
  In (nm, a) (tags doc) -> f nm a = Throw m ->
  eachM (mapElementsM f) doc = Throw m0.
Proof.
  intros Hin Hf. unfold tags in Hin. apply in_map_iff in Hin. destruct Hin as (e & E & He).
  injection E as <- <-. apply in_flat_map in He. destruct He as (n & Hn & He).
  destruct (@mapElementsM_reaches n e m He Hf) as [mn Hmn].
  destruct (@eachM_reaches (mapElementsM f) doc n mn Hn Hmn) as [m' Hm'].
  rewrite Hm'. f_equal. apply (@eachM_throw (mapElementsM f) doc m'); [|exact Hm'].
  apply Forall_forall. intros x _ mx. apply mapElementsM_throw.
Qed.

End Throws.

(** An element of the inline asset pass whose reference [new URL]
    refuses. *)
Definition unresolvable (newURL : Url.parser) (domain : string)
           (nm : string) (a : list (string * string)) : bool :=
  isOneOf ["img"; "script"; "link"] nm
  && match getAttr (AssetFacts.referenceKey a) a with
     | Some s => truthy s && negb (startsWith s "http")
                 && match newURL s (Some ("https://" ++ domain)) with
                    | None => true
                    | Some _ => false
                    end
     | None => false
     end.

Section RootView.

Variable newURL : Url.parser.
Variable fetch : string -> completion document.
Variable db : Db.t.
Variable selectAll : string -> document -> completion (list position).
Variable domain : string.

Lemma fixAssetPath_throw (nm : string) (a : list (string * string)) (m : string) :
  fixAssetPath newURL domain nm a = Throw m -> m = "Invalid URL".
Proof.
  rewrite AssetFacts.fixAssetPath_by_key.
  destruct (isOneOf ["img"; "script"; "link"] nm); [|discriminate].
  destruct (getAttr (AssetFacts.referenceKey a) a) as [s|]; [|discriminate].
  destruct (truthy s && negb (startsWith s "http")); [|discriminate].
  destruct (newURL s (Some ("https://" ++ domain))); [discriminate|].
  intros E. injection E as <-. reflexivity.
Qed.

Lemma fixAssetPath_unresolvable (nm : string) (a : list (string * string)) :
  unresolvable newURL domain nm a = true ->
  fixAssetPath newURL domain nm a = Throw "Invalid URL".
Proof.
  unfold unresolvable. rewrite AssetFacts.fixAssetPath_by_key.
  destruct (isOneOf ["img"; "script"; "link"] nm); [|discriminate]. cbn [andb].
  destruct (getAttr (AssetFacts.referenceKey a) a) as [s|]; [|discriminate].
  destruct (truthy s && negb (startsWith s "http")); [|discriminate]. cbn [andb].
  destruct (newURL s (Some ("https://" ++ domain))); [discriminate|reflexivity].
Qed.

Lemma rewriteLink_asset (skipFragments : bool) (lang nm : string) (a : list (string * string)) :
  isOneOf ["img"; "script"; "link"] nm = true ->
  rewriteLink newURL skipFragments domain lang nm a = a.
Proof.
  unfold rewriteLink, isOneOf. cbn [existsb].
  destruct (String.eqb_spec nm "a") as [->|]; [discriminate|reflexivity].
Qed.

(** The passes of the inline views up to the asset pass keep the
    elements the asset pass looks at as the page had them. *)
Lemma asset_reaches_the_pass (translations : list translation) (lang : string)
      (doc doc1 : document) (nm : string) (a : list (string * string)) :
  substitute selectAll translations doc = Normal doc1 ->
  In (nm, a) (tags doc) -> isOneOf ["img"; "script"; "link"] nm = true ->
  In (nm, a) (tags (rewriteLinks newURL false domain lang doc1)).
Proof.
  intros E Hin Hnm. unfold rewriteLinks. rewrite tags_mapElements, (tags_substitute _ _ _ E).
  apply in_map_iff. exists (nm, a). cbn [fst snd].
  rewrite (@rewriteLink_asset false lang nm a Hnm). auto.
Qed.

(** One image, script or stylesheet reference that [new URL] refuses
    fails the whole root view: the page is never served. The asset pass
    has no [try] around [new URL], so when the substitution step before
    it returns, the answer is status 500 with the message of the
    TypeError; and when a selector makes that step throw, the answer is
    status 500 with the message of that throw. *)
Theorem viewRoot_fails_on_unresolvable_asset
        (again : bool) (lang : option string) (website : website) (doc : document)
        (nm : string) (a : list (string * string)) :
  findWebsite db domain = Some website ->
  fetch ("https://" ++ domain) = Normal doc ->
  In (nm, a) (tags doc) ->
  unresolvable newURL domain nm a = true ->
  viewRootWith newURL fetch db selectAll again domain lang
  = mkOutcome
      (mkResponse 500
         (Message ("Error loading translated website: "
                   ++ match substitute selectAll
                              (getTranslations db (w_id website) "/" (languageOf lang)) doc with
                      | Normal _ => "Invalid URL"
                      | Throw m => m
                      end)))
      ["https://" ++ domain].
Proof.
  intros Hw Hf Hin Hu. unfold viewRootWith. rewrite Hw, Hf. cbn [Js.bind].
  destruct (substitute selectAll (getTranslations db (w_id website) "/" (languageOf lang)) doc)
    as [doc1|m] eqn:Es; [|reflexivity].
  cbn [Js.bind].
  assert (Hnm : isOneOf ["img"; "script"; "link"] nm = true).
  { unfold unresolvable in Hu. apply andb_prop in Hu. tauto. }
  unfold fixAssetPaths.
  rewrite (@eachM_mapElementsM_throws (fixAssetPath newURL domain) "Invalid URL"
             fixAssetPath_throw _ nm a "Invalid URL"
             (@asset_reaches_the_pass _ _ doc doc1 nm a Es Hin Hnm)
             (@fixAssetPath_unresolvable nm a Hu)).
  reflexivity.
Qed.

(** Whether a handler asks the upstream, and for what: with no row for
    the domain none of the four view handlers makes a request or answers
    200; with a row each makes the one request for the page of that
    domain. *)
Theorem views_ask_registered_domains_only
        (parseHtml : string -> list node)
        (wrapBody appendWrapperStyle : document -> document)
        (prependMeta : string -> document -> document)
        (again : bool) (rest path : string) (lang : option string) (language : string) :
  let asks (o : outcome) (url : string) :=
    match findWebsite db domain with
    | None => upstream o = [] /\ status (reply o) <> 200
    | Some _ => upstream o = [url]
    end in
  asks (viewRootWith newURL fetch db selectAll again domain lang) ("https://" ++ domain)
  /\ asks (viewPath_rev0 newURL fetch db selectAll domain rest lang)
          ("https://" ++ domain ++ "/" ++ rest)
  /\ asks (viewPath fetch db parseHtml domain rest lang)
          ((if includes domain "localhost" then "http:" else "https:")
           ++ "//" ++ domain ++ "/" ++ rest)
  /\ asks (serveTranslatedWebsite newURL fetch db selectAll wrapBody appendWrapperStyle
                                  prependMeta domain path language)
          (("https://" ++ domain) ++ path).
Proof.
  cbv zeta. unfold viewRootWith, viewPath_rev0, viewPath, serveTranslatedWebsite.
  destruct (findWebsite db domain) as [w|].
  - repeat split.
    + destruct (Js.bind (fetch ("https://" ++ domain)) _); reflexivity.
    + destruct (Js.bind (fetch ("https://" ++ domain ++ "/" ++ rest)) _); reflexivity.
    + destruct (fetch _); reflexivity.
    + destruct (fetch _); [|reflexivity]. destruct (substitute selectAll _ _); reflexivity.
  - cbn. repeat split; discriminate.
Qed.

(** ** The language of the links *)

(** A response whose internal links are proxy routes for [lang]: every
    anchor of the page whose [href] resolves to the host of the site
    has the route [/view/domain/path?query?lang=lang] for its [href]. *)
Definition carriesLanguage (lang : string) (o : outcome) : Prop :=
  match content (reply o) with
  | Message _ => True
  | Page doc =>
      forall (a : list (string * string)) (href : string) (u : URL),
        In ("a", a) (tags doc) ->
        getAttr "href" a = Some href -> truthy href = true ->
        newURL href (Some ("https://" ++ domain)) = Some u -> hostname u = domain ->
        exists v, href = proxyHref domain v lang
  end.

(** The link pass leaves no internal link without the route. *)
Lemma rewriteLink_carries (lang : string) (a0 : list (string * string)) (href : string) (u : URL) :
  getAttr "href" (rewriteLink newURL false domain lang "a" a0) = Some href ->
  truthy href = true ->
  newURL href (Some ("https://" ++ domain)) = Some u -> hostname u = domain ->
  exists v, href = proxyHref domain v lang.
Proof.
  unfold rewriteLink. rewrite String.eqb_refl.
  destruct (getAttr "href" a0) as [h0|] eqn:E0; [|rewrite E0; discriminate].
  cbn [andb negb]. rewrite andb_true_r.
  destruct (truthy h0) eqn:Et.
  2:{ rewrite E0. intros E; injection E as <-. congruence. }
  destruct (newURL h0 (Some ("https://" ++ domain))) as [u0|] eqn:Eu0.
  2:{ rewrite E0. intros E; injection E as <-. congruence. }
  destruct (String.eqb_spec (hostname u0) domain) as [Eh|Eh].
  - rewrite getAttr_setAttr_same. intros E; injection E as <-. eauto.
  - rewrite E0. intros E; injection E as <-. intros _ Hu Hh. rewrite Eu0 in Hu.
    injection Hu as <-. contradiction.
Qed.

(** The asset pass leaves the anchors as they are. *)
Lemma mapElementsM_anchor (n n' : node) (a : list (string * string)) :
  mapElementsM (fixAssetPath newURL domain) n = Normal n' ->
  In ("a", a) (tags [n']) -> In ("a", a) (tags [n]).
Proof.
  revert n'. induction n as [d|d|nm a0 cs IH] using node_induction; intros n'.
  - cbn. intros E; injection E as <-. auto.
  - cbn. intros E; injection E as <-. auto.
  - rewrite AssetFacts.mapElementsM_element.
    destruct (fixAssetPath newURL domain nm a0) as [a1|m] eqn:Ea; [|discriminate].
    cbn [Js.bind].
    destruct (eachM (mapElementsM (fixAssetPath newURL domain)) cs) as [cs'|m] eqn:Ec;
      [|discriminate].
    cbn [Js.bind]. intros E; injection E as <-.
    unfold tags. cbn [flat_map elements List.map nameOf attribsOf]. rewrite !app_nil_r.
    cbn [List.map nameOf attribsOf]. intros [E|Hin].
    + left. injection E as -> <-. f_equal.
      unfold fixAssetPath in Ea. cbn in Ea. injection Ea as Ea. exact Ea.
    + right. revert cs' Ec Hin. induction IH as [|c cs Hc _ IHcs]; intros cs' Ec Hin.
      * cbn in Ec. injection Ec as <-. exact Hin.
      * cbn [eachM] in Ec.
        destruct (mapElementsM (fixAssetPath newURL domain) c) as [c'|m] eqn:E1; [|discriminate].
        cbn [Js.bind] in Ec.
        destruct (eachM (mapElementsM (fixAssetPath newURL domain)) cs) as [cs0|m] eqn:E2;
          [|discriminate].
        cbn [Js.bind] in Ec. injection Ec as <-.
        cbn [flat_map] in Hin |- *. rewrite List.map_app in Hin |- *.
        apply in_app_or in Hin. apply in_or_app. destruct Hin as [Hin|Hin].
        -- left. specialize (Hc c' eq_refl). unfold tags in Hc. cbn [flat_map] in Hc.
           rewrite !app_nil_r in Hc. apply Hc. exact Hin.
        -- right. apply (IHcs cs0 eq_refl). exact Hin.
Qed.

Lemma fixAssetPaths_anchor (doc doc' : document) (a : list (string * string)) :
  fixAssetPaths newURL domain doc = Normal doc' ->
  In ("a", a) (tags doc') -> In ("a", a) (tags doc).
Proof.
  unfold fixAssetPaths. revert doc'. induction doc as [|n doc IH]; intros doc' E.
  - cbn in E. injection E as <-. auto.
  - cbn [eachM] in E.
    destruct (mapElementsM (fixAssetPath newURL domain) n) as [n'|m] eqn:E1; [|discriminate].
    cbn [Js.bind] in E.
    destruct (eachM (mapElementsM (fixAssetPath newURL domain)) doc) as [doc0|m] eqn:E2;
      [|discriminate].
    cbn [Js.bind] in E. injection E as <-.
    unfold tags. cbn [flat_map]. rewrite !List.map_app. intros Hin.
    apply in_app_or in Hin. apply in_or_app. destruct Hin as [Hin|Hin].
    + left. pose proof (@mapElementsM_anchor n n' a E1) as H. unfold tags in H.
      cbn [flat_map] in H. rewrite !app_nil_r in H. apply H. exact Hin.
    + right. apply (IH doc0 eq_refl). exact Hin.
Qed.

(** The last pass of the root view adds no element. *)
Lemma retranslate_tags (lang : string) (n : node) (t : string * list (string * string)) :
  In t (tags [retranslate db domain lang n]) -> In t (tags [n]).
Proof.
  induction n as [d|d|nm a cs IH] using node_induction; try (intros H; exact H).
  assert (Hd : In t (tags [Element nm a (List.map (retranslate db domain lang) cs)]) ->
               In t (tags [Element nm a cs])).
  { unfold tags. cbn [flat_map elements List.map nameOf attribsOf]. rewrite !app_nil_r.
    cbn [List.map nameOf attribsOf]. intros [E|Hin]; [left; exact E|right].
    clear -IH Hin. induction IH as [|c cs Hc _ IHcs]; [exact Hin|].
    cbn [List.map flat_map] in Hin |- *. rewrite List.map_app in Hin |- *.
    apply in_app_or in Hin. apply in_or_app. destruct Hin as [Hin|Hin].
    - left. unfold tags in Hc. cbn [flat_map] in Hc. rewrite !app_nil_r in Hc. apply Hc. exact Hin.
    - right. apply IHcs. exact Hin. }
  cbn [retranslate]. destruct (isOneOf extractable nm); [|exact Hd].
  destruct (truthy (trim (textContent (Element nm a cs)))); [|exact Hd].
  destruct (translationFor db domain (trim (textContent (Element nm a cs))) lang); [|exact Hd].
  unfold tags. cbn. intros [E|[]]. left. exact E.
Qed.

Lemma retranslate_all_tags (lang : string) (doc : document) (t : string * list (string * string)) :
  In t (tags (List.map (retranslate db domain lang) doc)) -> In t (tags doc).
Proof.
  induction doc as [|n doc IH]; [auto|]. unfold tags. cbn [List.map flat_map].
  rewrite !List.map_app. intros Hin. apply in_app_or in Hin. apply in_or_app.
  destruct Hin as [Hin|Hin]; [left|right; apply IH; exact Hin].
  pose proof (@retranslate_tags lang n t) as H. unfold tags in H. cbn [flat_map] in H.
  rewrite !app_nil_r in H. apply H. exact Hin.
Qed.

(** What the pipeline of the inline views serves carries the language
    of the request in every internal link. *)
Lemma pipeline_carries (again : bool) (language : string) (translations : list translation)
      (doc doc' : document) (a : list (string * string)) :
  (doc1 <- substitute selectAll translations doc ;;
   doc2 <- fixAssetPaths newURL domain (rewriteLinks newURL false domain language doc1) ;;
   Normal (if again then List.map (retranslate db domain language) doc2 else doc2))
  = Normal doc' ->
  In ("a", a) (tags doc') ->
  exists a0, a = rewriteLink newURL false domain language "a" a0.
Proof.
  destruct (substitute selectAll translations doc) as [doc1|m]; [|discriminate]. cbn [Js.bind].
  destruct (fixAssetPaths newURL domain (rewriteLinks newURL false domain language doc1))
    as [doc2|m] eqn:E2; [|discriminate].
  cbn [Js.bind]. intros E Hin. injection E as <-.
  assert (H2 : In ("a", a) (tags doc2)).
  { destruct again; [apply (retranslate_all_tags language)|]; exact Hin. }
  apply (@fixAssetPaths_anchor _ doc2 a E2) in H2. unfold rewriteLinks in H2.
  rewrite tags_mapElements in H2. apply in_map_iff in H2. destruct H2 as ([nm a0] & E & _).
  cbn [fst snd] in E. injection E as -> <-. exists a0. reflexivity.
Qed.

Lemma views_carry_language (again : bool) (rest : string) (lang : option string) :
  carriesLanguage (languageOf lang) (viewRootWith newURL fetch db selectAll again domain lang)
  /\ carriesLanguage (languageOf lang) (viewPath_rev0 newURL fetch db selectAll domain rest lang).
Proof.
  split.
  - unfold carriesLanguage, viewRootWith.
    destruct (findWebsite db domain) as [w|]; [|exact I].
    destruct (fetch ("https://" ++ domain)) as [doc|m]; [|exact I]. cbn [Js.bind].
    destruct (Js.bind (substitute selectAll _ doc) _) as [doc'|m] eqn:E; [|exact I].
    cbn [reply content]. intros a href u Hin Ha Ht Hu Hh.
    destruct (@pipeline_carries again _ _ doc doc' a E Hin) as [a0 ->].
    apply (@rewriteLink_carries _ a0 href u Ha Ht Hu Hh).
  - unfold carriesLanguage, viewPath_rev0.
    destruct (findWebsite db domain) as [w|]; [|exact I].
    destruct (fetch ("https://" ++ domain ++ "/" ++ rest)) as [doc|m]; [|exact I]. cbn [Js.bind].
    destruct (Js.bind (substitute selectAll _ doc) _) as [doc'|m] eqn:E; [|exact I].
    cbn [reply content]. intros a href u Hin Ha Ht Hu Hh.
    assert (E' : (doc1 <- substitute selectAll
                            (getTranslations db (w_id w) ("/" ++ rest) (languageOf lang)) doc ;;
                  doc2 <- fixAssetPaths newURL domain
                            (rewriteLinks newURL false domain (languageOf lang) doc1) ;;
                  Normal (if false then List.map (retranslate db domain (languageOf lang)) doc2
                          else doc2))
                 = Normal doc').
    { rewrite <- E. destruct (substitute selectAll _ doc) as [doc1|m]; [|reflexivity].
      cbn [Js.bind]. destruct (fixAssetPaths newURL domain _); reflexivity. }
    destruct (@pipeline_carries false _ _ doc doc' a E' Hin) as [a0 ->].
    apply (@rewriteLink_carries _ a0 href u Ha Ht Hu Hh).
Qed.

End RootView.

(** C10, as amended. A request without [lang] is served in [en] by the
    handlers that rewrite links, the root view and the earlier sub-path
    view: the response is the one for the database without the rows of
    other languages, and in the page it serves every anchor whose [href]
    resolves to the host of the site has the proxy route that ends in
    [?lang=en] for its [href]. The sub-path view of [server/index.js]
    looks translations up in [en] as well. *)
Theorem C10_default_language_is_en :
  forall (newURL : Url.parser) (fetch : string -> completion document) (db : Db.t)
         (selectAll : string -> document -> completion (list position))
         (parseHtml : string -> list node) (domain rest : string) (again : bool),
    languageOf None = "en"
    /\ viewRootWith newURL fetch db selectAll again domain None
       = viewRootWith newURL fetch (ViewFacts.onlyLanguage "en" db) selectAll again domain None
    /\ viewPath_rev0 newURL fetch db selectAll domain rest None
       = viewPath_rev0 newURL fetch (ViewFacts.onlyLanguage "en" db) selectAll domain rest None
    /\ viewPath fetch db parseHtml domain rest None
       = viewPath fetch (ViewFacts.onlyLanguage "en" db) parseHtml domain rest None
    /\ carriesLanguage newURL domain "en"
                       (viewRootWith newURL fetch db selectAll again domain None)
    /\ carriesLanguage newURL domain "en"
                       (viewPath_rev0 newURL fetch db selectAll domain rest None).
Proof.
  intros newURL fetch db selectAll parseHtml domain rest again.
  destruct (ViewFacts.default_language_lookup newURL fetch db selectAll parseHtml domain rest again)
    as (L1 & L2 & L3).
  destruct (views_carry_language newURL fetch db selectAll domain again rest None) as [C1 C2].
  split; [reflexivity|]. split; [exact L1|]. split; [exact L2|]. split; [exact L3|].
  split; [exact C1|exact C2].
Qed.

(** The front page of a site served without [lang]: the link to a page
    of the site goes through the proxy in [en], the link to another
    site is left alone. *)
Lemma root_view_links_in_en :
  viewRoot Url.simple
           (fun _ => Normal [Element "a" [("href", "/about")] [Text "About"];
                             Element "a" [("href", "https://other.example/")] [Text "Other"]])
           (mkDb ViewFacts.exampleSite []) refusing "example.com" None
  = mkOutcome
      (mkResponse 200
         (Page [Element "a" [("href", "/view/example.com/about?lang=en")] [Text "About"];
                Element "a" [("href", "https://other.example/")] [Text "Other"]]))
      ["https://example.com"].
Proof. reflexivity. Qed.

(** A page whose image names a host that is empty. *)
Definition emptyHostImage : document := [Element "img" [("src", "//")] []].

Lemma viewRoot_fails_on_unresolvable_asset_witness :
  unresolvable Url.simple "example.com" "img" [("src", "//")] = true
  /\ viewRoot Url.simple (fun _ => Normal emptyHostImage) (mkDb ViewFacts.exampleSite [])
              refusing "example.com" None
     = mkOutcome (mkResponse 500 (Message "Error loading translated website: Invalid URL"))
                 ["https://example.com"].
Proof.
  split; [reflexivity|].
  apply (@viewRoot_fails_on_unresolvable_asset Url.simple (fun _ => Normal emptyHostImage)
           (mkDb ViewFacts.exampleSite []) refusing "example.com" true None
           (mkWebsite 1 "example.com") emptyHostImage "img" [("src", "//")]).
  - reflexivity.
  - reflexivity.
  - cbn. left. reflexivity.
  - reflexivity.
Defined.

End RewriterFacts.

(* ===================================================================== *)
(** * More of the link discovery and of the map-website endpoint *)
(* ===================================================================== *)

Module MapFacts.

Import Crawl DomFacts LinkFacts CrawlFacts.

Local Open Scope list_scope.

(** ** The path filter on a pathname *)

(** [getPageLinks] hands the filter the [pathname] of a resolved URL,
    which starts with a slash. On such a path five of the seven patterns
    cannot match and the prefix test holds: what decides is the file
    extension and the at sign. *)
Theorem isValidWebpagePath_of_pathname (rest : string) :
  isValidWebpagePath (String "/" rest)
  = negb (hasListedExtension (String "/" rest)) && negb (includes (String "/" rest) "@").
Proof.
  unfold isValidWebpagePath, invalidPatterns. cbn [existsb startsWith schemeLike].
  change (Ascii.eqb "m" "/") with false. change (Ascii.eqb "t" "/") with false.
  change (Ascii.eqb "#" "/") with false. change (Ascii.eqb "j" "/") with false.
  change (Ascii.eqb "/" ":") with false. change (Ascii.eqb "/" "/") with true.
  cbn [andb orb].
  destruct (hasListedExtension (String "/" rest)); [reflexivity|].
  destruct (includes (String "/" rest) "@"); reflexivity.
Qed.

(** ** Every link that qualifies is returned *)

Section Discovery.

Variable newURL : Url.parser.
Variable html : document.
Variable baseUrl : string.

Lemma fold_keeps (f : JsSet.t -> node -> JsSet.t) (x : string) (els : list node) :
  (forall links el, In x links -> In x (f links el)) ->
  forall links, In x links -> In x (fold_left f els links).
Proof.
  intros Hf. induction els as [|el els IH]; intros links Hin; cbn [fold_left]; auto.
Qed.

Lemma fold_reaches (f : JsSet.t -> node -> JsSet.t) (x : string) (els : list node) (el : node) :
  (forall links el, In x links -> In x (f links el)) ->
  (forall links, In x (f links el)) ->
  In el els -> forall links, In x (fold_left f els links).
Proof.
  intros Hk Hel. induction els as [|e els IH]; intros Hin links; [destruct Hin|].
  cbn [fold_left]. destruct Hin as [->|Hin]; [|apply IH; exact Hin].
  apply fold_keeps; [exact Hk|apply Hel].
Qed.

(** The discoverer misses nothing: the path of every anchor whose
    [href] resolves to the host of the base and passes the filter is in
    the result (once, whatever the number of anchors that lead to it). *)
Theorem getPageLinks_complete (el : node) (href : string) (fullUrl base : Url.URL) :
  In el (select ["a"] html) ->
  attr "href" el = Some href -> truthy href = true ->
  newURL href (Some baseUrl) = Some fullUrl -> newURL baseUrl None = Some base ->
  Url.hostname fullUrl = Url.hostname base ->
  isValidWebpagePath (Url.pathname fullUrl) = true ->
  In (Url.pathname fullUrl) (getPageLinks newURL html baseUrl)
  /\ NoDup (getPageLinks newURL html baseUrl).
Proof.
  intros Hel Ha Ht Hu Hb Hh Hv. split; [|apply getPageLinks_sound].
  unfold getPageLinks. apply (@fold_reaches _ _ _ el); [| |exact Hel].
  - intros links e Hin.
    destruct (attr "href" e) as [h|]; [|exact Hin].
    destruct (negb (truthy h)); [exact Hin|].
    destruct (newURL h (Some baseUrl)) as [u|]; [|exact Hin].
    destruct (newURL baseUrl None) as [b|]; [|exact Hin].
    destruct (String.eqb (Url.hostname u) (Url.hostname b) && isValidWebpagePath (Url.pathname u));
      [|exact Hin].
    apply JsSet_add_In. left. exact Hin.
  - intros links. rewrite Ha, Ht, Hu, Hb, Hh, String.eqb_refl, Hv. cbn [negb andb].
    apply JsSet_add_In. right. reflexivity.
Qed.

End Discovery.

Lemma getPageLinks_complete_witness :
  In "/about"
     (getPageLinks Url.simple
                   [Element "a" [("href", "/about?ref=home")] [Text "About"]]
                   "https://example.com").
Proof.
  refine (proj1 (@getPageLinks_complete Url.simple
                   [Element "a" [("href", "/about?ref=home")] [Text "About"]]
                   "https://example.com"
                   (Element "a" [("href", "/about?ref=home")] [Text "About"])
                   "/about?ref=home"
                   (Url.mkURL "https:" "example.com" "/about" "?ref=home"
                              "https://example.com/about?ref=home")
                   (Url.mkURL "https:" "example.com" "/" "" "https://example.com/")
                   _ eq_refl eq_refl eq_refl eq_refl eq_refl eq_refl)).
  cbn. left. reflexivity.
Defined.

(** ** The handler *)

Lemma filter_length (A : Type) (f : A -> bool) (l : list A) :
  List.length (filter f l) <= List.length l.
Proof. induction l as [|x l IH]; cbn; [lia|]. destruct (f x); cbn; lia. Qed.

(** What the crawl records for a page is read off the page it fetched. *)
Definition scanned (fetch : string -> completion document) (baseUrl : string)
           (r : CrawlResult) : Prop :=
  exists doc,
    fetch (baseUrl ++ path r)%string = Normal doc
    /\ title r = titleOf doc (path r) /\ textCount r = textCountOf doc.

Lemma step_scanned (newURL : Url.parser) (fetch : string -> completion document)
      (baseUrl : string) (st : state) :
  Forall (scanned fetch baseUrl) (foundPages st) ->
  Forall (scanned fetch baseUrl) (foundPages (Crawl.step newURL fetch baseUrl st)).
Proof.
  intros H. unfold Crawl.step. destruct (pagesQueue st) as [|currentPath queue]; [exact H|].
  destruct (JsSet.has (visitedPages st) currentPath); [exact H|].
  destruct (fetch (baseUrl ++ currentPath)%string) as [doc|m] eqn:Ef; [|exact H].
  cbn [foundPages]. apply Forall_app. split; [exact H|].
  constructor; [|constructor]. exists doc. cbn [path title textCount]. auto.
Qed.

Lemma iter_scanned (newURL : Url.parser) (fetch : string -> completion document)
      (baseUrl seed : string) (n : nat) :
  Forall (scanned fetch baseUrl)
         (foundPages (Nat.iter n (Crawl.step newURL fetch baseUrl) (start seed))).
Proof.
  induction n as [|n IH]; [constructor|]. rewrite Nat.iter_succ. apply step_scanned. exact IH.
Qed.

(** [POST /api/map-website] always answers. A successful answer lists at
    most [maxPages] pages, no path twice, and [totalPages] is their
    number; every page listed is one the seed leads to by links and one
    that loaded, with the title and the text count of the page that was
    fetched for it. *)
Theorem mapWebsite_lists_loaded_pages_once
        (newURL : Url.parser) (fetch : string -> completion document) (url : option string) :
  exists resp,
    mapWebsite newURL fetch url = Some resp
    /\ forall domain pages total,
         resp = MapOk domain pages total ->
         total = List.length pages /\ total <= maxPages
         /\ NoDup (List.map path pages)
         /\ exists u parsed,
              url = Some u /\ newURL u None = Some parsed /\ domain = Url.hostname parsed
              /\ (forall p, In p (List.map path pages) ->
                    reachable newURL fetch (Url.protocol parsed ++ "//" ++ Url.hostname parsed)%string
                              (Url.pathname parsed) p
                    /\ loads fetch (Url.protocol parsed ++ "//" ++ Url.hostname parsed)%string p = true)
              /\ Forall (scanned fetch (Url.protocol parsed ++ "//" ++ Url.hostname parsed)%string)
                        pages.
Proof.
  unfold mapWebsite. destruct url as [u|]; [|eexists; split; [reflexivity|discriminate]].
  destruct (negb (truthy u)); [eexists; split; [reflexivity|discriminate]|].
  destruct (newURL u None) as [parsed|] eqn:Eu; [|eexists; split; [reflexivity|discriminate]].
  destruct (crawl_runs newURL fetch (Url.protocol parsed ++ "//" ++ Url.hostname parsed)%string
                       (Url.pathname parsed)) as (st & Hl & HI & _ & Hcap & Hiter).
  rewrite Hl. eexists. split; [reflexivity|].
  intros domain pages total E. injection E as <- <- <-.
  pose proof (inv_found HI) as Hf.
  assert (Hv : NoDup (visitedPages st)) by (apply (NoDup_app_remove_r _ _ (inv_nodup HI))).
  split; [reflexivity|]. split.
  { rewrite <- (List.length_map path), Hf.
    pose proof (filter_length (loads fetch (Url.protocol parsed ++ "//" ++ Url.hostname parsed)%string)
                              (visitedPages st)). lia. }
  split; [rewrite Hf; apply NoDup_filter; exact Hv|].
  exists u, parsed. split; [reflexivity|]. split; [exact Eu|]. split; [reflexivity|].
  split; [|rewrite <- Hiter; apply iter_scanned].
  intros p Hp. rewrite Hf in Hp. apply filter_In in Hp. destruct Hp as [Hp Hload].
  split; [|exact Hload]. apply (inv_reach HI). apply in_or_app. left. exact Hp.
Qed.

End MapFacts.

(* ===================================================================== *)
(** * The fetch-website endpoint and the stored fragments *)
(* ===================================================================== *)

Module IngestFacts.

Import Db Ingest DomFacts.

Local Open Scope list_scope.

(** ** Trimmed texts *)

Lemma trimStart_afterSpace (s : string) :
  trimStart s = match afterSpace s with Some r => trimStart r | None => s end.
Proof.
  destruct s as [|a [|b [|c s3]]]; cbn [trimStart afterSpace]; try reflexivity.
  - destruct (isSpace a); reflexivity.
  - destruct (isSpace a); [reflexivity|]. destruct (isSpace2 a b); reflexivity.
  - destruct (isSpace a); [reflexivity|]. destruct (isSpace2 a b); [reflexivity|].
    destruct (isSpace3 a b c); reflexivity.
Qed.

Lemma afterSpace_shorter (s r : string) :
  afterSpace s = Some r -> String.length r < String.length s.
Proof.
  destruct s as [|a [|b [|c s3]]]; cbn [afterSpace]; try discriminate.
  - destruct (isSpace a); [|discriminate]. intros E; injection E as <-. cbn. lia.
  - destruct (isSpace a); [intros E; injection E as <-; cbn; lia|].
    destruct (isSpace2 a b); [|discriminate]. intros E; injection E as <-. cbn. lia.
  - destruct (isSpace a); [intros E; injection E as <-; cbn; lia|].
    destruct (isSpace2 a b); [intros E; injection E as <-; cbn; lia|].
    destruct (isSpace3 a b c); [|discriminate]. intros E; injection E as <-. cbn. lia.
Qed.

Lemma afterSpace_app (s r q : string) :
  afterSpace s = Some r -> afterSpace (s ++ q)%string = Some (r ++ q)%string.
Proof.
  destruct s as [|a [|b [|c s3]]]; cbn [afterSpace append]; try discriminate.
  - destruct (isSpace a); [|discriminate]. intros E; injection E as <-. reflexivity.
  - destruct (isSpace a); [intros E; injection E as <-; reflexivity|].
    destruct (isSpace2 a b); [|discriminate]. intros E; injection E as <-.
    destruct q; reflexivity.
  - destruct (isSpace a); [intros E; injection E as <-; reflexivity|].
    destruct (isSpace2 a b); [intros E; injection E as <-; reflexivity|].
    destruct (isSpace3 a b c); [|discriminate]. intros E; injection E as <-. reflexivity.
Qed.

(** What [trimStart] returns does not start with white space. *)
Lemma trimStart_settled (s : string) :
  trimStart s = EmptyString \/ afterSpace (trimStart s) = None.
Proof.
  remember (String.length s) as n eqn:En. revert s En.
  induction n as [n IH] using lt_wf_ind. intros s En.
  rewrite trimStart_afterSpace. destruct (afterSpace s) as [r|] eqn:E.
  - apply (IH (String.length r)); [|reflexivity]. subst n. apply afterSpace_shorter. exact E.
  - right. exact E.
Qed.

(** A text that is all white space is trimmed away at the start of any
    text. *)
Lemma trimStart_app (p q : string) :
  trimStart p = EmptyString -> trimStart (p ++ q)%string = trimStart q.
Proof.
  remember (String.length p) as n eqn:En. revert p En.
  induction n as [n IH] using lt_wf_ind. intros p En H.
  destruct p as [|a p']; [reflexivity|].
  rewrite trimStart_afterSpace in H. destruct (afterSpace (String a p')) as [r|] eqn:E;
    [|discriminate].
  rewrite trimStart_afterSpace, (afterSpace_app _ q E).
  apply (IH (String.length r)); [|reflexivity|exact H].
  subst n. apply afterSpace_shorter. exact E.
Qed.

Lemma trimEnd_cons (c : ascii) (s : string) :
  trimEnd (String c s)
  = match trimStart (String c s) with
    | EmptyString => EmptyString
    | String _ _ => String c (trimEnd s)
    end.
Proof. reflexivity. Qed.

(** What [trimEnd] drops is white space. *)
Lemma trimEnd_split (s : string) :
  exists rest, s = (trimEnd s ++ rest)%string /\ trimStart rest = EmptyString.
Proof.
  induction s as [|c s IH]; [exists EmptyString; split; reflexivity|].
  rewrite trimEnd_cons. destruct (trimStart (String c s)) as [|d t] eqn:E.
  - exists (String c s). split; [reflexivity|exact E].
  - destruct IH as (rest & Hs & Hr). exists rest. split; [|exact Hr].
    cbn [append]. rewrite <- Hs. reflexivity.
Qed.

Lemma trimEnd_idempotent (s : string) : trimEnd (trimEnd s) = trimEnd s.
Proof.
  induction s as [|c s IH]; [reflexivity|]. rewrite trimEnd_cons.
  destruct (trimStart (String c s)) as [|d t] eqn:E; [reflexivity|].
  rewrite trimEnd_cons, IH.
  destruct (trimStart (String c (trimEnd s))) as [|d' t'] eqn:E'; [|reflexivity].
  exfalso. destruct (trimEnd_split s) as (rest & Hs & Hr).
  pose proof (trimStart_app (String c (trimEnd s)) rest E') as H.
  cbn [append] in H. rewrite <- Hs, Hr, E in H. discriminate.
Qed.

Lemma trim_idempotent (s : string) : trim (trim s) = trim s.
Proof.
  unfold trim. destruct (trimStart_settled s) as [E|E]; [rewrite E; reflexivity|].
  assert (H : trimStart (trimEnd (trimStart s)) = trimEnd (trimStart s)).
  { rewrite trimStart_afterSpace.
    destruct (afterSpace (trimEnd (trimStart s))) as [r|] eqn:Er; [|reflexivity].
    exfalso. destruct (trimEnd_split (trimStart s)) as (rest & Hs & _).
    pose proof (afterSpace_app _ rest Er) as H. rewrite <- Hs, E in H. discriminate. }
  rewrite H. apply trimEnd_idempotent.
Qed.

Lemma fragment_of_element (doc : document) (text kind : string) :
  In (text, kind) (fragments doc) ->
  truthy text = true /\ trim text = text /\ In kind extractable
  /\ exists el, In el (flat_map elements doc) /\ nameOf el = kind
                /\ trim (textContent el) = text.
Proof.
  unfold fragments. intros H. apply in_flat_map in H. destruct H as (el & Hel & H).
  destruct (truthy (trim (textContent el))) eqn:Et; [|destruct H].
  destruct H as [E|[]]. injection E as <- <-.
  unfold select in Hel. apply filter_In in Hel. destruct Hel as [Hin Hname].
  apply existsb_exists in Hname. destruct Hname as (x & Hx & Ex). apply String.eqb_eq in Ex.
  split; [exact Et|]. split; [apply trim_idempotent|]. split; [rewrite Ex; exact Hx|].
  exists el. auto.
Qed.

(** What is stored for a page is read off its elements: every fragment
    is the trimmed text of an element of one of the ten kinds, is not
    empty, has no white space at either end, and carries the name of
    that element. *)
Theorem fragments_are_trimmed_texts (doc : document) (text kind : string) :
  In (text, kind) (fragments doc) ->
  truthy text = true /\ trim text = text /\ In kind extractable
  /\ exists el, In el (flat_map elements doc) /\ nameOf el = kind
                /\ trim (textContent el) = text.
Proof. apply fragment_of_element. Qed.

(** A page with a heading, an empty paragraph and a padded link. *)
Definition landing : document :=
  [Element "h1" [] [Text "Welcome"];
   Element "p" [] [Text "   "];
   Element "div" [] [Element "a" [("href", "/about")] [Text " About us "]]].

Lemma fragments_witness :
  fragments landing = [("Welcome", "h1"); ("About us", "a")]
  /\ trim "About us" = "About us".
Proof.
  split; [reflexivity|].
  apply (@fragments_are_trimmed_texts landing "About us" "a").
  cbn. right. left. reflexivity.
Defined.

(** ** The rows a fetch stores *)

(** What a row holds beside its id. *)
Definition content (r : translation)
  : nat * string * option string * string * string * string :=
  (website_id r, original_text r, translated_text r, language r, t_path r, element_type r).

(** The rows of one page, without their ids. *)
Definition pageContents (websiteId : nat) (path : string) (doc : document)
  : list (nat * string * option string * string * string * string) :=
  List.map (fun f => (websiteId, fst f, @None string, "en"%string, path, snd f)) (fragments doc).

Lemma max_ge (ids : list nat) (x : nat) : In x ids -> x <= fold_right Nat.max 0 ids.
Proof.
  induction ids as [|y ids IH]; [intros []|]. cbn [fold_right].
  intros [->|H]; [lia|]. specialize (IH H). lia.
Qed.

Lemma nextId_fresh (ids : list nat) : ~ In (nextId ids) ids.
Proof. intros H. apply max_ge in H. unfold nextId in H. lia. Qed.

Lemma nextId_NoDup (ids : list nat) : NoDup ids -> NoDup (ids ++ [nextId ids]).
Proof.
  intros H. apply NoDup_app; [exact H|repeat constructor; intros []|].
  intros x Hx [<-|[]]. exact (@nextId_fresh _ Hx).
Qed.

Section Store.

Variable websiteId : nat.
Variable path : string.

Lemma storeFold (frs : list (string * string)) :
  forall d n, exists rows,
    fold_left (fun (acc : Db.t * nat) (fragment : string * string) =>
                 (insertTranslation (fst acc) websiteId (fst fragment) None "en" path (snd fragment),
                  S (snd acc)))
              frs (d, n)
    = (mkDb (websites d) (translations d ++ rows), n + List.length frs)
    /\ List.map content rows
       = List.map (fun f => (websiteId, fst f, @None string, "en"%string, path, snd f)) frs
    /\ (NoDup (List.map t_id (translations d)) ->
        NoDup (List.map t_id (translations d ++ rows))).
Proof.
  induction frs as [|f frs IH]; intros d n.
  - exists []. cbn [fold_left List.length List.map]. rewrite app_nil_r, Nat.add_0_r.
    destruct d. repeat split. auto.
  - cbn [fold_left fst snd].
    destruct (IH (insertTranslation d websiteId (fst f) None "en" path (snd f)) (S n))
      as (rows & E & Hc & Hn).
    exists (mkTranslation (nextId (List.map t_id (translations d))) websiteId (fst f)
                          None "en" path (snd f) :: rows).
    rewrite E. cbn [insertTranslation websites translations List.length List.map content
                    website_id original_text translated_text language t_path element_type].
    rewrite <- app_assoc. cbn [app]. split; [f_equal; lia|]. split; [rewrite Hc; reflexivity|].
    intros Hd. cbn [insertTranslation translations] in Hn. rewrite <- app_assoc in Hn.
    apply Hn. rewrite List.map_app. apply nextId_NoDup. exact Hd.
Qed.

Lemma storeFragments_spec (doc : document) (d : Db.t) :
  exists rows,
    storeFragments websiteId path doc d
    = (mkDb (websites d) (translations d ++ rows), List.length (fragments doc))
    /\ List.map content rows = pageContents websiteId path doc
    /\ (NoDup (List.map t_id (translations d)) ->
        NoDup (List.map t_id (translations d ++ rows))).
Proof. exact (storeFold (fragments doc) d 0). Qed.

End Store.

(** ** The transaction *)

Lemma find_app_none (A : Type) (f : A -> bool) (l : list A) (x : A) :
  find f l = None -> find f (l ++ [x]) = if f x then Some x else None.
Proof.
  induction l as [|y l IH]; cbn; [reflexivity|]. destruct (f y); [discriminate|exact IH].
Qed.

Lemma find_none_not_in (d : Db.t) (domain : string) :
  findWebsite d domain = None -> ~ In domain (List.map w_domain (websites d)).
Proof.
  unfold findWebsite. intros H Hin. apply in_map_iff in Hin. destruct Hin as (w & E & Hw).
  pose proof (find_none _ _ H w Hw) as Hf. cbn in Hf. rewrite E, String.eqb_refl in Hf.
  discriminate.
Qed.

(** The row the transaction returns is the row of the domain in the
    table it leaves, found there or appended to it. *)
Lemma findOrCreateWebsite_spec (d : Db.t) (domain : string) :
  match findOrCreateWebsite d domain with
  | (d1, Normal w) =>
      w_domain w = domain /\ w_id w <> 0 /\ findWebsite d1 domain = Some w
      /\ translations d1 = translations d
      /\ ((d1 = d /\ In w (websites d))
          \/ (findWebsite d domain = None /\ websites d1 = websites d ++ [w]
              /\ w_id w = nextId (List.map w_id (websites d))))
  | (d1, Throw _) => d1 = d
  end.
Proof.
  unfold findOrCreateWebsite. destruct (findWebsite d domain) as [w|] eqn:Ef.
  - destruct (Nat.eqb_spec (w_id w) 0) as [E0|E0]; [reflexivity|].
    unfold findWebsite in Ef. pose proof (find_some _ _ Ef) as [Hin He].
    apply String.eqb_eq in He. repeat split; auto.
  - cbn. split; [reflexivity|]. split; [discriminate|]. split.
    + unfold findWebsite in Ef |- *. cbn [websites].
      rewrite (find_app_none _ _ _ Ef). cbn. rewrite String.eqb_refl. reflexivity.
    + split; [reflexivity|]. right. auto.
Qed.

(** ** The loop over the selected pages *)

Section Fetch.

Variable newURL : Url.parser.
Variable fetch : string -> completion document.

(** The rows of the pages that load, without their ids. *)
Definition loadedContents (websiteId : nat) (baseUrl : string) (pages : list string)
  : list (nat * string * option string * string * string * string) :=
  flat_map (fun p => match fetch (baseUrl ++ p)%string with
                     | Normal doc => pageContents websiteId p doc
                     | Throw _ => []
                     end) pages.

Lemma storePages_spec (websiteId : nat) (baseUrl : string) (pages : list string) :
  forall d total, exists rows loaded,
    fst (storePages fetch websiteId baseUrl pages d total)
    = mkDb (websites d) (translations d ++ rows)
    /\ List.map content rows = loadedContents websiteId baseUrl loaded
    /\ (NoDup (List.map t_id (translations d)) ->
        NoDup (List.map t_id (translations d ++ rows)))
    /\ (exists rest, pages = loaded ++ rest)
    /\ match snd (storePages fetch websiteId baseUrl pages d total) with
       | Normal n =>
           loaded = pages /\ n = total + List.length rows
           /\ forall p, In p pages -> exists doc, fetch (baseUrl ++ p)%string = Normal doc
       | Throw m =>
           exists p rest, pages = loaded ++ p :: rest /\ fetch (baseUrl ++ p)%string = Throw m
       end.
Proof.
  induction pages as [|p ps IH]; intros d total.
  - exists [], []. cbn [storePages fst snd]. rewrite app_nil_r. destruct d.
    split; [reflexivity|]. split; [reflexivity|]. split; [auto|]. split; [exists []; reflexivity|].
    split; [reflexivity|]. split; [cbn; lia|]. intros p [].
  - cbn [storePages]. destruct (fetch (baseUrl ++ p)%string) as [doc|m] eqn:Ef.
    + destruct (storeFragments_spec websiteId p doc d) as (rows0 & E0 & Hc0 & Hn0).
      rewrite E0. cbv beta iota.
      destruct (IH (mkDb (websites d) (translations d ++ rows0))
                   (total + List.length (fragments doc)))
        as (rows1 & loaded1 & F1 & C1 & N1 & [rest P1] & S1).
      cbn [websites translations] in F1, N1.
      exists (rows0 ++ rows1), (p :: loaded1).
      split; [rewrite F1, app_assoc; reflexivity|]. split.
      { rewrite List.map_app, Hc0, C1. unfold loadedContents. cbn [flat_map].
        rewrite Ef. reflexivity. }
      split; [intros Hd; rewrite app_assoc; apply N1, Hn0, Hd|].
      split; [exists rest; rewrite P1; reflexivity|].
      destruct (snd (storePages fetch websiteId baseUrl ps
                                (mkDb (websites d) (translations d ++ rows0))
                                (total + List.length (fragments doc)))) as [n|m].
      * destruct S1 as (S1 & S2 & S3). split; [rewrite S1; reflexivity|]. split.
        { rewrite S2, List.length_app.
          assert (El : List.length rows0 = List.length (fragments doc)).
          { rewrite <- (List.length_map content rows0), Hc0. unfold pageContents.
            apply List.length_map. }
          lia. }
        intros q [<-|Hq]; [eauto|apply S3; exact Hq].
      * destruct S1 as (q & rest' & S1 & S2). exists q, rest'. rewrite S1. auto.
    + exists [], []. cbn [fst snd]. rewrite app_nil_r. destruct d.
      split; [reflexivity|]. split; [reflexivity|]. split; [auto|].
      split; [exists (p :: ps); reflexivity|]. exists p, ps. auto.
Qed.

(** ** The handler *)

(** What a request does, in one of two ways: it leaves the tables as
    they are and does not answer success; or it gets the row of the
    domain and appends the rows of the pages that load, in the order of
    the selection, up to the first page that does not. *)
Lemma fetchWebsite_run (d : Db.t) (url : option string) (selectedPages : option (list string)) :
  (fst (fetchWebsite newURL fetch d url selectedPages) = d
   /\ forall id dom n, snd (fetchWebsite newURL fetch d url selectedPages) <> Stored id dom n)
  \/ exists u pages parsed d1 website rows loaded,
       url = Some u /\ selectedPages = Some pages /\ truthy u = true /\ pages <> []
       /\ newURL u None = Some parsed
       /\ findOrCreateWebsite d (Url.hostname parsed) = (d1, Normal website)
       /\ fst (fetchWebsite newURL fetch d url selectedPages)
          = mkDb (websites d1) (translations d1 ++ rows)
       /\ List.map content rows
          = loadedContents (w_id website)
                           (Url.protocol parsed ++ "//" ++ Url.hostname parsed)%string loaded
       /\ (NoDup (List.map t_id (translations d1)) ->
           NoDup (List.map t_id (translations d1 ++ rows)))
       /\ (exists rest, pages = loaded ++ rest)
       /\ match snd (fetchWebsite newURL fetch d url selectedPages) with
          | Stored id dom n =>
              id = w_id website /\ dom = w_domain website /\ loaded = pages
              /\ n = List.length rows
              /\ forall p, In p pages ->
                   exists doc,
                     fetch ((Url.protocol parsed ++ "//" ++ Url.hostname parsed) ++ p)%string
                     = Normal doc
          | BadRequest _ => False
          | Failed _ => loaded <> pages
          end.
Proof.
  unfold fetchWebsite.
  destruct url as [u|]; [|left; split; [reflexivity|discriminate]].
  destruct selectedPages as [pages|]; [|left; split; [reflexivity|discriminate]].
  destruct (truthy u) eqn:Et; cbn [negb orb]; [|left; split; [reflexivity|discriminate]].
  destruct (Nat.eqb_spec (List.length pages) 0) as [El|El];
    [left; split; [reflexivity|discriminate]|].
  destruct (newURL u None) as [parsed|] eqn:Eu; [|left; split; [reflexivity|discriminate]].
  pose proof (findOrCreateWebsite_spec d (Url.hostname parsed)) as Hw.
  destruct (findOrCreateWebsite d (Url.hostname parsed)) as [d1 [website|m]] eqn:Ew.
  2:{ left. split; [exact Hw|]. intros id dom n. unfold failure. discriminate. }
  right.
  destruct (storePages_spec (w_id website)
                            (Url.protocol parsed ++ "//" ++ Url.hostname parsed)%string
                            pages d1 0)
    as (rows & loaded & F & C & N & P & S).
  exists u, pages, parsed, d1, website, rows, loaded.
  split; [reflexivity|]. split; [reflexivity|]. split; [exact Et|].
  split; [intros ->; apply El; reflexivity|]. split; [exact Eu|]. split; [exact Ew|].
  destruct (storePages fetch (w_id website)
                       (Url.protocol parsed ++ "//" ++ Url.hostname parsed)%string pages d1 0)
    as [d2 [total|m]]; cbn [fst snd] in F, S |- *.
  - split; [exact F|]. split; [exact C|]. split; [exact N|]. split; [exact P|].
    destruct S as (S1 & S2 & S3). auto.
  - split; [exact F|]. split; [exact C|]. split; [exact N|]. split; [exact P|].
    unfold failure. destruct S as (q & rest & S1 & _). intros E. rewrite E in S1.
    apply (f_equal (@List.length string)) in S1. rewrite List.length_app in S1. cbn in S1. lia.
Qed.

Lemma rows_of_loaded (websiteId : nat) (baseUrl : string) (loaded : list string)
      (rows : list translation) (r : translation) :
  List.map content rows = loadedContents websiteId baseUrl loaded ->
  In r rows ->
  exists p doc,
    In p loaded /\ fetch (baseUrl ++ p)%string = Normal doc
    /\ In (original_text r, element_type r) (fragments doc)
    /\ website_id r = websiteId /\ translated_text r = None
    /\ language r = "en"%string /\ t_path r = p.
Proof.
  intros C Hr. apply (in_map content) in Hr. rewrite C in Hr.
  unfold loadedContents in Hr. apply in_flat_map in Hr. destruct Hr as (p & Hp & Hr).
  destruct (fetch (baseUrl ++ p)%string) as [doc|m] eqn:Ef; [|destruct Hr].
  unfold pageContents in Hr. apply in_map_iff in Hr. destruct Hr as ([text kind] & E & Hf).
  unfold content in E. cbn [fst snd] in E. injection E as E1 E2 E3 E4 E5 E6.
  exists p, doc. rewrite <- E2, <- E6. auto 10.
Qed.

Lemma loaded_has_row (websiteId : nat) (baseUrl : string) (loaded : list string)
      (rows : list translation) (p : string) (doc : document) (text kind : string) :
  List.map content rows = loadedContents websiteId baseUrl loaded ->
  In p loaded -> fetch (baseUrl ++ p)%string = Normal doc -> In (text, kind) (fragments doc) ->
  exists r, In r rows /\ content r = (websiteId, text, @None string, "en"%string, p, kind).
Proof.
  intros C Hp Hf Hk.
  assert (H : In (websiteId, text, @None string, "en"%string, p, kind)
                 (loadedContents websiteId baseUrl loaded)).
  { unfold loadedContents. apply in_flat_map. exists p. split; [exact Hp|]. rewrite Hf.
    unfold pageContents. apply in_map_iff. exists (text, kind). auto. }
  rewrite <- C in H. apply in_map_iff in H. destruct H as (r & E & Hr). eauto.
Qed.

(** A request to [POST /api/fetch-website] only appends: at most one
    site, and rows that hold no translation, the language [en], a path
    of the selection and a trimmed text that is not empty, under one of
    the ten element names. This holds of every request, also of one that
    is answered with an error after some pages were stored. A successful
    answer counts the appended rows and names the row of the domain. *)
Theorem fetchWebsite_only_appends
        (d : Db.t) (url : option string) (selectedPages : option (list string)) :
  exists sites rows,
    websites (fst (fetchWebsite newURL fetch d url selectedPages)) = websites d ++ sites
    /\ List.length sites <= 1
    /\ translations (fst (fetchWebsite newURL fetch d url selectedPages))
       = translations d ++ rows
    /\ Forall (fun r => translated_text r = None /\ language r = "en"%string
                        /\ truthy (original_text r) = true
                        /\ trim (original_text r) = original_text r
                        /\ In (element_type r) extractable
                        /\ exists pages, selectedPages = Some pages /\ In (t_path r) pages)
              rows
    /\ forall id dom n,
         snd (fetchWebsite newURL fetch d url selectedPages) = Stored id dom n ->
         n = List.length rows /\ id <> 0
         /\ findWebsite (fst (fetchWebsite newURL fetch d url selectedPages)) dom
            = Some (mkWebsite id dom)
         /\ Forall (fun r => website_id r = id) rows.
Proof.
  destruct (fetchWebsite_run d url selectedPages)
    as [[E Hn]|(u & pages & parsed & d1 & w & rows & loaded & -> & -> & _ & _ & _ & Ew
                & F & C & _ & [rest P] & S)].
  - exists [], []. rewrite E, !app_nil_r. repeat split; auto.
    all: exfalso; eapply Hn; eauto.
  - pose proof (findOrCreateWebsite_spec d (Url.hostname parsed)) as Hw. rewrite Ew in Hw.
    destruct Hw as (Hd & H0 & Hfind & Ht & Hsites).
    exists (match findWebsite d (Url.hostname parsed) with Some _ => [] | None => [w] end), rows.
    rewrite F. cbn [websites translations]. rewrite Ht.
    split; [|split; [|split; [reflexivity|split]]].
    + destruct Hsites as [[-> Hin]|(Hnone & Hws & _)].
      * rewrite Hfind, app_nil_r. reflexivity.
      * rewrite Hnone. exact Hws.
    + destruct (findWebsite d (Url.hostname parsed)); cbn; lia.
    + apply Forall_forall. intros r Hr.
      destruct (@rows_of_loaded _ _ _ _ r C Hr) as (p & doc & Hp & Hf & Hk & _ & Hn & Hl & Hpath).
      destruct (@fragment_of_element doc _ _ Hk) as (K1 & K2 & K3 & _).
      repeat split; auto. exists pages. split; [reflexivity|].
      rewrite Hpath, P. apply in_or_app. left. exact Hp.
    + intros id dom n E. rewrite E in S. destruct S as (-> & -> & _ & -> & _).
      split; [reflexivity|]. split; [exact H0|]. split.
      * unfold findWebsite. cbn [websites]. fold (findWebsite d1 (w_domain w)).
        rewrite Hd, Hfind. destruct w as [i dm]. cbn in Hd |- *. rewrite Hd. reflexivity.
      * apply Forall_forall. intros r Hr.
        destruct (@rows_of_loaded _ _ _ _ r C Hr) as (p & doc & _ & _ & _ & Hid & _). exact Hid.
Qed.

(** What a successful request has done. *)
Lemma fetchWebsite_stored (d d' : Db.t) (url : option string)
      (selectedPages : option (list string)) (id : nat) (dom : string) (n : nat) :
  fetchWebsite newURL fetch d url selectedPages = (d', Stored id dom n) ->
  exists u pages parsed rows,
    url = Some u /\ selectedPages = Some pages /\ truthy u = true /\ pages <> []
    /\ newURL u None = Some parsed /\ dom = Url.hostname parsed /\ id <> 0
    /\ findWebsite d' dom = Some (mkWebsite id dom)
    /\ translations d' = translations d ++ rows
    /\ List.map content rows
       = loadedContents id (Url.protocol parsed ++ "//" ++ Url.hostname parsed)%string pages
    /\ n = List.length rows
    /\ (forall p, In p pages ->
          exists doc,
            fetch ((Url.protocol parsed ++ "//" ++ Url.hostname parsed) ++ p)%string = Normal doc)
    /\ (NoDup (List.map t_id (translations d)) -> NoDup (List.map t_id (translations d'))).
Proof.
  intros R.
  destruct (fetchWebsite_run d url selectedPages)
    as [[_ Hn]|(u & pages & parsed & d1 & w & rows & loaded & -> & -> & Hu & Hp & Eu & Ew
                & F & C & N & _ & S)].
  - exfalso. apply (Hn id dom n). rewrite R. reflexivity.
  - rewrite R in F, S. cbn [fst snd] in F, S. destruct S as (-> & -> & -> & -> & Hload).
    pose proof (findOrCreateWebsite_spec d (Url.hostname parsed)) as Hw. rewrite Ew in Hw.
    destruct Hw as (Hd & H0 & Hfind & Ht & _).
    exists u, pages, parsed, rows. rewrite F. cbn [websites translations].
    rewrite Ht in N |- *. repeat split; auto.
    unfold findWebsite. cbn [websites]. fold (findWebsite d1 (w_domain w)).
    rewrite Hd, Hfind. destruct w as [i dm]. cbn in Hd |- *. rewrite Hd. reflexivity.
Qed.

(** Nothing is looked up before it is stored: a second request for the
    same pages, answered by the same upstream, succeeds as the first did
    and appends the same rows once more (under new ids), so every
    fragment is then stored twice. The sites are left as they are. *)
Theorem fetchWebsite_twice_stores_twice
        (d d1 : Db.t) (url : option string) (selectedPages : option (list string))
        (id : nat) (dom : string) (n : nat) :
  fetchWebsite newURL fetch d url selectedPages = (d1, Stored id dom n) ->
  exists d2 rows1 rows2,
    fetchWebsite newURL fetch d1 url selectedPages = (d2, Stored id dom n)
    /\ websites d2 = websites d1
    /\ translations d1 = translations d ++ rows1
    /\ translations d2 = translations d1 ++ rows2
    /\ List.map content rows2 = List.map content rows1
    /\ List.length rows1 = n.
Proof.
  intros R1.
  destruct (@fetchWebsite_stored _ _ _ _ _ _ _ R1)
    as (u & pages & parsed & rows1 & -> & -> & Hu & Hp & Eu & -> & H0 & Hfind & T1 & C1
        & -> & Hload & _).
  destruct (fetchWebsite_run d1 (Some u) (Some pages))
    as [[_ Hn]|(u' & pages' & parsed' & d1' & w & rows2 & loaded & Eu' & Ep' & _ & _ & Eu2 & Ew
                & F & C2 & _ & [rest P] & S)].
  - exfalso. revert Hn. unfold fetchWebsite. rewrite Hu. cbn [negb orb].
    destruct pages as [|p0 ps]; [contradiction|]. cbn [List.length Nat.eqb]. rewrite Eu.
    unfold findOrCreateWebsite. rewrite Hfind. cbn [w_id].
    destruct (Nat.eqb_spec id 0) as [|_]; [contradiction|]. cbn [w_id].
    pose proof (storePages_spec id (Url.protocol parsed ++ "//" ++ Url.hostname parsed)%string
                                (p0 :: ps) d1 0) as (rows & ld & _ & _ & _ & _ & S).
    destruct (storePages fetch id (Url.protocol parsed ++ "//" ++ Url.hostname parsed)%string
                         (p0 :: ps) d1 0) as [d2 [total|m]]; cbn [fst snd] in S |- *.
    + intros Hn. eapply Hn. reflexivity.
    + destruct S as (q & rest & Eq & Hq).
      destruct (Hload q) as [doc Hdoc]; [rewrite Eq; apply in_or_app; right; left; reflexivity|].
      congruence.
  - injection Eu' as <-. injection Ep' as <-. rewrite Eu in Eu2. injection Eu2 as <-.
    assert (Ew' : findOrCreateWebsite d1 (Url.hostname parsed)
                  = (d1, Normal (mkWebsite id (Url.hostname parsed)))).
    { unfold findOrCreateWebsite. rewrite Hfind. cbn [w_id].
      destruct (Nat.eqb_spec id 0); [contradiction|reflexivity]. }
    rewrite Ew' in Ew. injection Ew as <- <-. cbn [w_id w_domain] in *.
    destruct (snd (fetchWebsite newURL fetch d1 (Some u) (Some pages))) as [id' dom' n'| |msg] eqn:Es.
    + destruct S as (-> & -> & -> & -> & _).
      exists (fst (fetchWebsite newURL fetch d1 (Some u) (Some pages))), rows1, rows2.
      split.
      { rewrite (surjective_pairing (fetchWebsite newURL fetch d1 (Some u) (Some pages))), Es.
        f_equal. f_equal.
        rewrite <- (List.length_map content rows2), C2, <- C1. apply List.length_map. }
      rewrite F. cbn [websites translations]. repeat split; auto. congruence.
    + destruct S.
    + exfalso. revert Es. unfold fetchWebsite. rewrite Hu. cbn [negb orb].
      destruct pages as [|p0 ps]; [contradiction|]. cbn [List.length Nat.eqb]. rewrite Eu, Ew'.
      cbn [w_id w_domain].
      pose proof (storePages_spec id (Url.protocol parsed ++ "//" ++ Url.hostname parsed)%string
                                  (p0 :: ps) d1 0) as (rows & ld & _ & _ & _ & _ & S').
      destruct (storePages fetch id (Url.protocol parsed ++ "//" ++ Url.hostname parsed)%string
                           (p0 :: ps) d1 0) as [d2 [total|m]]; cbn [fst snd] in S' |- *.
      * discriminate.
      * destruct S' as (q & rest' & Eq & Hq).
        destruct (Hload q) as [doc Hdoc]; [rewrite Eq; apply in_or_app; right; left; reflexivity|].
        congruence.
Qed.

(** ** The earlier revision: one page *)

Lemma fetchWebsite_rev0_run (d : Db.t) (url : option string) :
  (fst (fetchWebsite_rev0 newURL fetch d url) = d
   /\ forall id dom n, snd (fetchWebsite_rev0 newURL fetch d url) <> Stored id dom n)
  \/ exists u parsed d1 website rows,
       url = Some u /\ truthy u = true /\ newURL u None = Some parsed
       /\ findOrCreateWebsite d (Url.hostname parsed) = (d1, Normal website)
       /\ fst (fetchWebsite_rev0 newURL fetch d url)
          = mkDb (websites d1) (translations d1 ++ rows)
       /\ (NoDup (List.map t_id (translations d1)) ->
           NoDup (List.map t_id (translations d1 ++ rows)))
       /\ match fetch u with
          | Normal doc =>
              List.map content rows
              = pageContents (w_id website)
                             (if truthy (Url.pathname parsed) then Url.pathname parsed
                              else "/"%string) doc
              /\ snd (fetchWebsite_rev0 newURL fetch d url)
                 = Stored (w_id website) (w_domain website) (List.length rows)
          | Throw m =>
              rows = [] /\ snd (fetchWebsite_rev0 newURL fetch d url) = failure m
          end.
Proof.
  unfold fetchWebsite_rev0.
  destruct url as [u|]; [|left; split; [reflexivity|discriminate]].
  destruct (truthy u) eqn:Et; cbn [negb]; [|left; split; [reflexivity|discriminate]].
  destruct (newURL u None) as [parsed|] eqn:Eu; [|left; split; [reflexivity|discriminate]].
  pose proof (findOrCreateWebsite_spec d (Url.hostname parsed)) as Hw.
  destruct (findOrCreateWebsite d (Url.hostname parsed)) as [d1 [website|m]] eqn:Ew.
  2:{ left. split; [exact Hw|]. intros id dom n. unfold failure. discriminate. }
  right. destruct (fetch u) as [doc|m] eqn:Ef.
  - destruct (storeFragments_spec (w_id website)
                (if truthy (Url.pathname parsed) then Url.pathname parsed else "/"%string) doc d1)
      as (rows & E & C & N).
    exists u, parsed, d1, website, rows. rewrite E. cbv beta iota. cbn [fst snd]. rewrite Ef.
    assert (El : List.length rows = List.length (fragments doc)).
    { rewrite <- (List.length_map content rows), C. unfold pageContents. apply List.length_map. }
    rewrite El. repeat split; auto.
  - exists u, parsed, d1, website, []. cbn [fst snd]. rewrite app_nil_r, Ef. destruct d1.
    repeat split; auto.
Qed.

(** The earlier revision of the endpoint stores one page, the one the
    URL names: a successful answer has appended the fragments of that
    page, in document order, under the path of the URL, untranslated
    and with the language [en], and counts them. *)
Theorem fetchWebsite_rev0_stores_the_page
        (d d' : Db.t) (url : option string) (id : nat) (dom : string) (n : nat) :
  fetchWebsite_rev0 newURL fetch d url = (d', Stored id dom n) ->
  exists u parsed doc rows,
    url = Some u /\ newURL u None = Some parsed /\ fetch u = Normal doc
    /\ dom = Url.hostname parsed
    /\ findWebsite d' dom = Some (mkWebsite id dom)
    /\ translations d' = translations d ++ rows
    /\ List.map content rows
       = pageContents id (if truthy (Url.pathname parsed) then Url.pathname parsed
                          else "/"%string) doc
    /\ n = List.length rows.
Proof.
  intros R.
  destruct (fetchWebsite_rev0_run d url)
    as [[_ Hn]|(u & parsed & d1 & w & rows & -> & _ & Eu & Ew & F & _ & S)].
  - exfalso. apply (Hn id dom n). rewrite R. reflexivity.
  - rewrite R in F, S. cbn [fst snd] in F, S.
    destruct (fetch u) as [doc|m] eqn:Ef; [|destruct S as [_ S]; discriminate].
    destruct S as [C S]. injection S as -> -> ->.
    pose proof (findOrCreateWebsite_spec d (Url.hostname parsed)) as Hw. rewrite Ew in Hw.
    destruct Hw as (Hd & H0 & Hfind & Ht & _).
    exists u, parsed, doc, rows. rewrite F. cbn [websites translations]. rewrite Ht.
    repeat split; auto.
    unfold findWebsite. cbn [websites]. fold (findWebsite d1 (w_domain w)).
    rewrite Hd, Hfind. destruct w as [i dm]. cbn in Hd |- *. rewrite Hd. reflexivity.
Qed.

(** ** Keys *)

(** The keys of the two tables: ids and domains are unique, no site has
    the id 0, and every row belongs to a site of the table. *)
Definition wellKeyed (d : Db.t) : Prop :=
  NoDup (List.map w_id (websites d))
  /\ NoDup (List.map w_domain (websites d))
  /\ ~ In 0 (List.map w_id (websites d))
  /\ NoDup (List.map t_id (translations d))
  /\ Forall (fun r => In (website_id r) (List.map w_id (websites d))) (translations d).

Lemma NoDup_snoc (A : Type) (l : list A) (x : A) : NoDup l -> ~ In x l -> NoDup (l ++ [x]).
Proof.
  intros Hl Hx. apply NoDup_app; [exact Hl|repeat constructor; intros []|].
  intros y Hy [<-|[]]. exact (Hx Hy).
Qed.

Lemma findOrCreateWebsite_wellKeyed (d d1 : Db.t) (domain : string) (c : completion website) :
  wellKeyed d -> findOrCreateWebsite d domain = (d1, c) ->
  wellKeyed d1 /\ forall w, c = Normal w -> In (w_id w) (List.map w_id (websites d1)).
Proof.
  intros (K1 & K2 & K3 & K4 & K5) E.
  pose proof (findOrCreateWebsite_spec d domain) as Hw. rewrite E in Hw.
  destruct c as [w|m]; [|subst d1; split; [repeat split; assumption|discriminate]].
  destruct Hw as (Hd & H0 & Hfind & Ht & [[-> Hin]|(Hnone & Hws & Hid)]).
  - split; [repeat split; assumption|]. intros w' E'. injection E' as <-.
    apply in_map. exact Hin.
  - split.
    + unfold wellKeyed. rewrite Hws, Ht, !List.map_app. cbn [List.map].
      split; [rewrite Hid; apply nextId_NoDup; exact K1|].
      split; [rewrite Hd; apply NoDup_snoc; [exact K2|apply find_none_not_in; exact Hnone]|].
      split; [intros H; apply in_app_or in H; destruct H as [H|[H|[]]]; [tauto|congruence]|].
      split; [exact K4|]. eapply Forall_impl; [|exact K5].
      intros r Hr. apply in_or_app. left. exact Hr.
    + intros w' E'. injection E' as <-. rewrite Hws, List.map_app. apply in_or_app.
      right. left. reflexivity.
Qed.

Lemma appended_wellKeyed (d1 : Db.t) (rows : list translation) (websiteId : nat) :
  wellKeyed d1 -> In websiteId (List.map w_id (websites d1)) ->
  (NoDup (List.map t_id (translations d1)) -> NoDup (List.map t_id (translations d1 ++ rows))) ->
  Forall (fun r => website_id r = websiteId) rows ->
  wellKeyed (mkDb (websites d1) (translations d1 ++ rows)).
Proof.
  intros (K1 & K2 & K3 & K4 & K5) Hin Hn Hrows. unfold wellKeyed. cbn [websites translations].
  repeat split; auto. apply Forall_app. split; [exact K5|].
  eapply Forall_impl; [|exact Hrows]. intros r ->. exact Hin.
Qed.

(** The handlers that write keep the keys: on tables with unique ids
    and domains, where every row belongs to a site, [POST
    /api/fetch-website] (of either revision) and [POST
    /api/translate-website] leave tables of that kind, whatever the
    upstream and the translation backend answer. In particular a domain
    is never given a second site. *)
Theorem writers_keep_the_keys
        (post : string -> string -> completion value)
        (d : Db.t) (url : option string) (selectedPages : option (list string))
        (websiteId : nat) (lang : string) :
  wellKeyed d ->
  wellKeyed (fst (fetchWebsite newURL fetch d url selectedPages))
  /\ wellKeyed (fst (fetchWebsite_rev0 newURL fetch d url))
  /\ wellKeyed (fst (Translate.translateWebsite post d websiteId lang)).
Proof.
  intros K. split; [|split].
  - destruct (fetchWebsite_run d url selectedPages)
      as [[E _]|(u & pages & parsed & d1 & w & rows & loaded & _ & _ & _ & _ & _ & Ew
                 & F & C & N & _ & _)]; [rewrite E; exact K|].
    destruct (@findOrCreateWebsite_wellKeyed d d1 _ _ K Ew) as [K1 Hin]. rewrite F.
    apply (@appended_wellKeyed d1 rows (w_id w) K1 (Hin w eq_refl) N).
    apply Forall_forall. intros r Hr.
    destruct (@rows_of_loaded _ _ _ _ r C Hr) as (p & doc & _ & _ & _ & Hid & _). exact Hid.
  - destruct (fetchWebsite_rev0_run d url)
      as [[E _]|(u & parsed & d1 & w & rows & _ & _ & _ & Ew & F & N & S)]; [rewrite E; exact K|].
    destruct (@findOrCreateWebsite_wellKeyed d d1 _ _ K Ew) as [K1 Hin]. rewrite F.
    apply (@appended_wellKeyed d1 rows (w_id w) K1 (Hin w eq_refl) N).
    destruct (fetch u) as [doc|m]; [|destruct S as [-> _]; constructor].
    destruct S as [C _]. apply Forall_forall. intros r Hr.
    apply (in_map content) in Hr. rewrite C in Hr. unfold pageContents in Hr.
    apply in_map_iff in Hr. destruct Hr as (f & E & _). unfold content in E.
    injection E as E _. symmetry. exact E.
  - destruct K as (K1 & K2 & K3 & K4 & K5).
    destruct (ClientFacts.translateWebsite_keys post d websiteId lang) as (Ew & Ei & Es).
    unfold wellKeyed. rewrite Ew, Ei. repeat split; auto.
    apply (Forall_map website_id (fun i => In i (List.map w_id (websites d)))).
    rewrite Es. apply Forall_map. exact K5.
Qed.

(** ** From the fetch to the lookup *)

(** What the endpoints give together: after a successful fetch and a
    translate run with a backend that keeps its contract, the lookup
    for the domain, a selected path and the target language returns,
    for every fragment of that page, a row with the fragment's text,
    its element name and what [translateText] returned for it. *)
Theorem fetched_fragments_are_found_translated
        (post : string -> string -> completion value)
        (d d1 : Db.t) (u : string) (pages : list string) (parsed : Url.URL)
        (id : nat) (dom : string) (n : nat) (lang p : string) (doc : document)
        (text kind : string) :
  TranslateWebsiteFacts.keepsContract post ->
  NoDup (List.map t_id (translations d)) ->
  fetchWebsite newURL fetch d (Some u) (Some pages) = (d1, Stored id dom n) ->
  newURL u None = Some parsed ->
  In p pages ->
  fetch ((Url.protocol parsed ++ "//" ++ Url.hostname parsed) ++ p)%string = Normal doc ->
  In (text, kind) (fragments doc) ->
  exists s r,
    Translate.translateText post text lang = Normal (VStr s)
    /\ getTranslationOf (fst (Translate.translateWebsite post d1 id lang))
                        (Some dom) (Some p) (Some lang)
       = Found (findTranslations (fst (Translate.translateWebsite post d1 id lang)) id lang p)
    /\ In r (findTranslations (fst (Translate.translateWebsite post d1 id lang)) id lang p)
    /\ original_text r = text /\ translated_text r = Some s /\ element_type r = kind.
Proof.
  intros contract Hn R Eu Hp Hf Hk.
  destruct (@fetchWebsite_stored _ _ _ _ _ _ _ R)
    as (u' & pages' & parsed' & rows & Eu' & Ep' & _ & _ & Eu2 & -> & H0 & Hfind & T & C
        & _ & _ & N).
  injection Eu' as <-. injection Ep' as <-. rewrite Eu in Eu2. injection Eu2 as <-.
  destruct (@loaded_has_row _ _ _ _ p doc text kind C Hp Hf Hk) as (r0 & Hr0 & E0).
  unfold content in E0. injection E0 as E1 E2 E3 E4 E5 E6.
  assert (Hin : In r0 (translations d1)) by (rewrite T; apply in_or_app; right; exact Hr0).
  destruct (@ClientFacts.stored_translation post d1 id lang r0 contract (N Hn) Hin E1 E3)
    as (s & Hs & Hstored).
  rewrite E2, E5, E6 in Hstored. rewrite E2 in Hs.
  destruct (ClientFacts.translateWebsite_keys post d1 id lang) as (Ew & _ & _).
  exists s, (mkTranslation (t_id r0) id text (Some s) lang p kind).
  split; [exact Hs|]. split.
  - unfold getTranslationOf. rewrite Ew.
    change (find (fun w => equalsParameter (w_domain w) (Some (Url.hostname parsed)))
                 (websites d1))
      with (findWebsite d1 (Url.hostname parsed)).
    rewrite Hfind. reflexivity.
  - split; [|auto]. unfold findTranslations. apply filter_In. split; [exact Hstored|].
    cbn. rewrite Nat.eqb_refl, !String.eqb_refl. reflexivity.
Qed.

End Fetch.

(** ** A site of one page *)

(** An upstream that serves [landing] as the front page of
    [example.com] and nothing else. *)
Definition landingSite : string -> completion document :=
  fun url => if String.eqb url "https://example.com/" then Normal landing
             else Throw "Request failed with status code 404".

Definition landingStored : Db.t :=
  mkDb [mkWebsite 1 "example.com"]
       [mkTranslation 1 1 "Welcome" None "en" "/" "h1";
        mkTranslation 2 1 "About us" None "en" "/" "a"].

Lemma landing_fetched :
  fetchWebsite Url.simple landingSite (mkDb [] []) (Some "https://example.com"%string)
               (Some ["/"%string])
  = (landingStored, Stored 1 "example.com" 2).
Proof. reflexivity. Qed.

Lemma fetchWebsite_twice_witness :
  exists d2 rows1 rows2,
    fetchWebsite Url.simple landingSite landingStored (Some "https://example.com"%string)
                 (Some ["/"%string])
    = (d2, Stored 1 "example.com" 2)
    /\ websites d2 = websites landingStored
    /\ translations landingStored = translations (mkDb [] []) ++ rows1
    /\ translations d2 = translations landingStored ++ rows2
    /\ List.map content rows2 = List.map content rows1
    /\ List.length rows1 = 2.
Proof.
  exact (@fetchWebsite_twice_stores_twice Url.simple landingSite (mkDb [] []) landingStored
           (Some "https://example.com"%string) (Some ["/"%string]) 1 "example.com" 2
           landing_fetched).
Defined.

Lemma fetchWebsite_rev0_witness :
  exists u parsed doc rows,
    Some "https://example.com/"%string = Some u
    /\ Url.simple u None = Some parsed /\ landingSite u = Normal doc
    /\ "example.com"%string = Url.hostname parsed
    /\ findWebsite landingStored "example.com" = Some (mkWebsite 1 "example.com")
    /\ translations landingStored = translations (mkDb [] []) ++ rows
    /\ List.map content rows
       = pageContents 1 (if truthy (Url.pathname parsed) then Url.pathname parsed
                         else "/"%string) doc
    /\ 2 = List.length rows.
Proof.
  exact (@fetchWebsite_rev0_stores_the_page Url.simple landingSite (mkDb [] []) landingStored
           (Some "https://example.com/"%string) 1 "example.com" 2 eq_refl).
Defined.

Lemma empty_wellKeyed : wellKeyed (mkDb [] []).
Proof. unfold wellKeyed. cbn. repeat split; try constructor. intros []. Qed.

Lemma writers_keep_the_keys_witness :
  wellKeyed (mkDb [] []) /\ wellKeyed landingStored.
Proof.
  split; [exact empty_wellKeyed|].
  exact (proj1 (@writers_keep_the_keys Url.simple landingSite ClientFacts.taggingBackend
                  (mkDb [] []) (Some "https://example.com"%string) (Some ["/"%string])
                  1 "fr" empty_wellKeyed)).
Defined.

Lemma fetched_fragments_witness :
  exists s r,
    Translate.translateText ClientFacts.taggingBackend "About us" "fr" = Normal (VStr s)
    /\ getTranslationOf (fst (Translate.translateWebsite ClientFacts.taggingBackend
                                                         landingStored 1 "fr"))
                        (Some "example.com"%string) (Some "/"%string) (Some "fr"%string)
       = Found (findTranslations (fst (Translate.translateWebsite ClientFacts.taggingBackend
                                                                  landingStored 1 "fr"))
                                 1 "fr" "/")
    /\ In r (findTranslations (fst (Translate.translateWebsite ClientFacts.taggingBackend
                                                               landingStored 1 "fr"))
                              1 "fr" "/")
    /\ original_text r = "About us"%string /\ translated_text r = Some s
    /\ element_type r = "a"%string.
Proof.
  apply (@fetched_fragments_are_found_translated Url.simple landingSite
           ClientFacts.taggingBackend (mkDb [] []) landingStored "https://example.com"
           ["/"%string]
           (Url.mkURL "https:" "example.com" "/" "" "https://example.com/")
           1 "example.com" 2 "fr" "/" landing "About us" "a"
           ClientFacts.taggingBackend_keepsContract).
  - constructor.
  - exact landing_fetched.
  - reflexivity.
  - left. reflexivity.
  - reflexivity.
  - cbn. right. left. reflexivity.
Defined.

End IngestFacts.
